(** * Resumability store of Qwik: snapshot writer and reader

    A shallow embedding of [packages/qwik/src/core/object/store.ts]
    ([snapshotState], [resumeContainer] and their helpers) over an explicit
    JavaScript heap, and the properties of the snapshot format proved about it. *)

From Stdlib Require Import ZArith Ascii String List Bool Lia.
From stdpp Require Import base option list strings.

Set Warnings "-register-all".

Local Open Scope string_scope.
Local Open Scope list_scope.

(** ** Text helpers *)

Module Text.

(** [s.startsWith(p)], returning what follows the prefix. *)
Fixpoint strip_prefix (p s : string) : option string :=
  match p with
  | EmptyString => Some s
  | String a p' =>
      match s with
      | EmptyString => None
      | String b s' => if Ascii.eqb a b then strip_prefix p' s' else None
      end
  end.

Definition startsWith (s p : string) : bool :=
  match strip_prefix p s with Some _ => true | None => false end.

(** [occurs p s]: [p] is a substring of [s] ([s.includes(p)]). *)
Fixpoint occurs (p s : string) : bool :=
  match strip_prefix p s with
  | Some _ => true
  | None => match s with
            | EmptyString => false
            | String _ s' => occurs p s'
            end
  end.

(** [str.replace(/re/g, ...)] for a pattern that never matches the empty
    string.  [matchAt s] tells whether the pattern matches at the start of
    [s]; it then gives the replacement text and what follows the match.
    The scan goes left to right and resumes after each match; a character
    at which nothing matches is copied.  The recursion is on [fuel]; every
    step consumes a character, so [String.length s] steps are enough. *)
Fixpoint replace_global_fuel (matchAt : string -> option (string * string))
    (fuel : nat) (s : string) : string :=
  match fuel with
  | O => s
  | S fuel' =>
      match matchAt s with
      | Some (rep, rest) => rep +:+ replace_global_fuel matchAt fuel' rest
      | None =>
          match s with
          | EmptyString => EmptyString
          | String c r => String c (replace_global_fuel matchAt fuel' r)
          end
      end
  end.

Definition replace_global (matchAt : string -> option (string * string))
    (s : string) : string :=
  replace_global_fuel matchAt (S (String.length s)) s.

(** The pattern [lead(\/?script)] at the start of [s]: the captured group
    [$1] and the rest of the text.  The optional slash is greedy. *)
Definition match_script (lead s : string) : option (string * string) :=
  match strip_prefix lead s with
  | None => None
  | Some r =>
      match strip_prefix "/script" r with
      | Some rest => Some ("/script", rest)
      | None =>
          match strip_prefix "script" r with
          | Some rest => Some ("script", rest)
          | None => None
          end
      end
  end.

(** The four characters backslash, x, 3, C. *)
Definition x3C : string := "\x3C".

Definition escape_at (s : string) : option (string * string) :=
  match match_script "<" s with
  | Some (g, rest) => Some (x3C +:+ g, rest)
  | None => None
  end.

Definition unescape_at (s : string) : option (string * string) :=
  match match_script x3C s with
  | Some (g, rest) => Some ("<" +:+ g, rest)
  | None => None
  end.

(** [str.replace(/<(\/?script)/g, '\\x3C$1')] *)
Definition escapeText (str : string) : string := replace_global escape_at str.

(** [str.replace(/\\x3C(\/?script)/g, '<$1')] *)
Definition unescapeText (str : string) : string := replace_global unescape_at str.

(** No escaped script tag occurs in [s] literally. *)
Definition free_of_escaped (s : string) : Prop :=
  occurs (x3C +:+ "script") s = false /\ occurs (x3C +:+ "/script") s = false.



(** [str.endsWith("!")] and the like, for a one-character suffix. *)
Fixpoint endsWithChar (c : ascii) (s : string) : bool :=
  match s with
  | EmptyString => false
  | String a EmptyString => Ascii.eqb a c
  | String _ r => endsWithChar c r
  end.

(** [str.split(sep)] for a one-character separator: never empty, the
    empty string splits into one empty part. *)
Fixpoint split (sep : ascii) (s : string) : list string :=
  match s with
  | EmptyString => [EmptyString]
  | String a r =>
      if Ascii.eqb a sep then EmptyString :: split sep r
      else match split sep r with
           | h :: t => String a h :: t
           | [] => [String a EmptyString]
           end
  end.

(** [parts.join(sep)] *)
Fixpoint join (sep : string) (parts : list string) : string :=
  match parts with
  | [] => EmptyString
  | [p] => p
  | p :: rest => p +:+ sep +:+ join sep rest
  end.

(** *** Base 36 *)

(** The digit of value [d < 36] as [Number.prototype.toString(36)] prints it. *)
Definition digit36 (d : N) : ascii :=
  if (d <? 10)%N then ascii_of_N (48 + d) else ascii_of_N (87 + d).

(** The value of a character read as a digit in radix 36, upper or lower case. *)
Definition digitValue (c : ascii) : option N :=
  let n := N_of_ascii c in
  if ((48 <=? n) && (n <=? 57))%N then Some (n - 48)%N
  else if ((97 <=? n) && (n <=? 122))%N then Some (n - 87)%N
  else if ((65 <=? n) && (n <=? 90))%N then Some (n - 55)%N
  else None.

Fixpoint toString36 (fuel : nat) (n : N) (acc : string) : string :=
  match fuel with
  | O => acc
  | S fuel' =>
      let acc' := String (digit36 (n mod 36)) acc in
      if (n / 36 =? 0)%N then acc' else toString36 fuel' (n / 36) acc'
  end.

(** [nu.toString(36)] for the non-negative integers the writer counts
    with.  A number of [k] bits has at most [k] digits. *)
Definition intToStr (nu : N) : string := toString36 (S (N.size_nat nu)) nu EmptyString.

(** White space that [parseInt] skips (the ASCII part of it). *)
Definition isWhite (c : ascii) : bool :=
  let n := N_of_ascii c in
  ((n =? 32) || ((9 <=? n) && (n <=? 13)))%N.

Fixpoint skipWhite (s : string) : string :=
  match s with
  | String c r => if isWhite c then skipWhite r else s
  | EmptyString => s
  end.

(** The longest prefix of radix-36 digits, most significant first:
    [None] when there is no digit at all. *)
Fixpoint digits36 (s : string) (acc : option N) : option N :=
  match s with
  | EmptyString => acc
  | String c r =>
      match digitValue c with
      | Some d => digits36 r (Some (match acc with Some a => a * 36 + d | None => d end)%N)
      | None => acc
      end
  end.

(** [parseInt(nu, 36)]: leading white space is skipped, one sign is
    read, then the longest run of digits; what follows is ignored.
    [None] is NaN. *)
Definition strToInt (nu : string) : option Z :=
  match skipWhite nu with
  | String "-" r => option_map (fun n => (- Z.of_N n)%Z) (digits36 r None)
  | String "+" r => option_map Z.of_N (digits36 r None)
  | s => option_map Z.of_N (digits36 s None)
  end.

End Text.

(** ** JavaScript values, objects and the heap *)

Module JS.

(** A reference is the identity of an object on the heap. *)
Definition loc := nat.

(** Runtime values.  Numbers are the integers (the store only counts
    with them); objects of every kind are references. *)
Inductive value : Type :=
| VUndefined
| VNull
| VBool (b : bool)
| VNum (n : Z)
| VStr (s : string)
| VRef (l : loc).

#[global] Instance value_eq_dec : EqDecision value.
Proof. solve_decision. Defined.

(** [!!v] *)
Definition truthy (v : value) : bool :=
  match v with
  | VUndefined | VNull => false
  | VBool b => b
  | VNum n => negb (n =? 0)%Z
  | VStr s => negb (String.eqb s EmptyString)
  | VRef _ => true
  end.

(** [a ?? b] *)
Definition nullish (a b : value) : value :=
  match a with
  | VUndefined | VNull => b
  | _ => a
  end.

(** *** Maps and string-keyed objects *)

(** A JavaScript [Map] (or [WeakMap]): keys in insertion order, [set] on
    a key that is present keeps its position. *)
Section JsMap.
Context {K V : Type} `{EqDecision K}.

Fixpoint mget (k : K) (m : list (K * V)) : option V :=
  match m with
  | [] => None
  | (k', v) :: m' => if decide (k' = k) then Some v else mget k m'
  end.

Fixpoint mset (k : K) (v : V) (m : list (K * V)) : list (K * V) :=
  match m with
  | [] => [(k, v)]
  | (k', v') :: m' =>
      if decide (k' = k) then (k, v) :: m' else (k', v') :: mset k v m'
  end.

Definition mhas (k : K) (m : list (K * V)) : bool :=
  match mget k m with Some _ => true | None => false end.
End JsMap.

(** A [Set]: [add] keeps the first insertion. *)
Definition sadd {A : Type} `{EqDecision A} (x : A) (s : list A) : list A :=
  if decide (x ∈ s) then s else s ++ [x].

Definition shas {A : Type} `{EqDecision A} (x : A) (s : list A) : bool :=
  bool_decide (x ∈ s).

(** [new Set(array)] *)
Definition setFrom {A : Type} `{EqDecision A} (l : list A) : list A :=
  fold_left (fun s x => sadd x s) l [].

(** The own properties of an ordinary object are enumerated with the
    array-index keys first, in ascending order, then the other string
    keys in the order they were created. *)
Fixpoint decimal (s : string) (acc : N) : option N :=
  match s with
  | EmptyString => Some acc
  | String c r =>
      let n := N_of_ascii c in
      if ((48 <=? n) && (n <=? 57))%N then decimal r (acc * 10 + (n - 48))%N
      else None
  end.

(** A canonical numeric string below 2^32 - 1. *)
Definition arrayIndex (k : string) : option N :=
  match k with
  | EmptyString => None
  | String "0" EmptyString => Some 0%N
  | String "0" _ => None
  | _ => match decimal k 0 with
         | Some n => if (n <? 4294967295)%N then Some n else None
         | None => None
         end
  end.

Definition jsobj (V : Type) := list (string * V).

Section JsObj.
Context {V : Type}.

Definition oget (k : string) (o : jsobj V) : option V := mget k o.

(** Where a new key goes. *)
Fixpoint oinsert (k : string) (v : V) (o : jsobj V) : jsobj V :=
  match o with
  | [] => [(k, v)]
  | (k', v') :: o' =>
      match arrayIndex k, arrayIndex k' with
      | Some n, Some n' =>
          if (n <? n')%N then (k, v) :: o else (k', v') :: oinsert k v o'
      | Some _, None => (k, v) :: o
      | None, _ => (k', v') :: oinsert k v o'
      end
  end.

(** [o[k] = v] *)
Definition oset (k : string) (v : V) (o : jsobj V) : jsobj V :=
  if mhas k o then mset k v o else oinsert k v o.

(** [Object.fromEntries(entries)] *)
Definition fromEntries (entries : list (string * V)) : jsobj V :=
  fold_left (fun o '(k, v) => oset k v o) entries [].
End JsObj.

(** *** Heap cells *)

(** [Map<subscriber, Set<string> | null>]: the properties each
    subscriber depends on, [None] for the whole value. *)
Definition SubscriberMap := list (value * option (list string)).

(** The component state kept on an element ([QContext], the fields the
    store reads and writes). *)
Record QContext : Type := mkQContext {
  ctx_refMap : list value;                        (* ctx.refMap.array *)
  ctx_props : value;
  ctx_renderQrl : value;
  ctx_seq : list value;
  ctx_watches : list value;
  ctx_contexts : option (list (string * value));  (* Map<string, any> *)
  ctx_listeners : option (list (string * list value))  (* Map<string, QRL[]> *)
}.

(** A lazy closure descriptor ([QRLInternal]). *)
Record Qrl : Type := mkQrl {
  qrl_chunk : string;
  qrl_symbol : string;
  qrl_capture : option (list string);
  qrl_captureRef : option (list value)
}.

(** A DOM node.  [children] are the element children, in document
    order; the document is a node of type 9 with its [documentElement]
    and [body]. *)
Record Node : Type := mkNode {
  nodeType : Z;
  tagName : string;
  attributes : list (string * string);
  children : list loc;
  isConnected : bool;
  ownerDocument : loc;
  textContent : string;
  context : option QContext;
  documentElement : loc;
  body : loc
}.

Inductive cell : Type :=
| CObject (fields : jsobj value)      (* prototype is Object.prototype *)
| CArray (items : list value)
| CQrl (q : Qrl)
| CNode (n : Node)
| CProxy (target : loc) (subs : SubscriberMap).

Inductive logEntry : Type :=
| LogWarn (msg : string)
| LogError (msg : string)
| LogDebug (msg : string).

(** The state of the page: the heap, the proxy registry of the document
    ([getProxyMap(doc)], from a raw target to its proxy), and what the
    store has done to the outside: log lines, events dispatched, watches
    destroyed. *)
Record World : Type := mkWorld {
  heap : list cell;
  proxyMap : list (loc * loc);
  log : list logEntry;
  events : list (loc * string);
  destroyed : list value
}.

Definition withHeap (w : World) (h : list cell) : World :=
  mkWorld h (proxyMap w) (log w) (events w) (destroyed w).

Definition addLog (e : logEntry) (w : World) : World :=
  mkWorld (heap w) (proxyMap w) (log w ++ [e]) (events w) (destroyed w).

Definition cellAt (w : World) (l : loc) : option cell := heap w !! l.

(** A fresh object. *)
Definition alloc (c : cell) (w : World) : loc * World :=
  (length (heap w), withHeap w (heap w ++ [c])).

Definition store (l : loc) (c : cell) (w : World) : World :=
  withHeap w (<[l := c]> (heap w)).

Definition emptyNode : Node :=
  mkNode 1 EmptyString [] [] false 0 EmptyString None 0 0.

(** The node behind a reference that the types say is a node. *)
Definition nodeAt (w : World) (l : loc) : Node :=
  match cellAt w l with
  | Some (CNode n) => n
  | _ => emptyNode
  end.

Definition setNode (l : loc) (n : Node) (w : World) : World :=
  match cellAt w l with
  | Some (CNode _) => store l (CNode n) w
  | _ => w
  end.

(** [isNode(value)] and [isElement(value)] of util/element. *)
Definition isNode (w : World) (v : value) : bool :=
  match v with
  | VRef l => match cellAt w l with Some (CNode _) => true | _ => false end
  | _ => false
  end.

Definition isElement (w : World) (v : value) : bool :=
  match v with
  | VRef l => match cellAt w l with
              | Some (CNode n) => (nodeType n =? 1)%Z
              | _ => false
              end
  | _ => false
  end.

(** [isQrl(value)] *)
Definition isQrl (w : World) (v : value) : bool :=
  match v with
  | VRef l => match cellAt w l with Some (CQrl _) => true | _ => false end
  | _ => false
  end.

(** [Array.isArray(value)] *)
Definition isArray (w : World) (v : value) : bool :=
  match v with
  | VRef l => match cellAt w l with Some (CArray _) => true | _ => false end
  | _ => false
  end.

(** [obj[QOjectTargetSymbol]]: the raw target of a proxy, [undefined]
    on anything else. *)
Definition targetOf (w : World) (v : value) : value :=
  match v with
  | VRef l => match cellAt w l with
              | Some (CProxy t _) => VRef t
              | _ => VUndefined
              end
  | _ => VUndefined
  end.

(** [proxy[QOjectSubsSymbol]] *)
Definition subsOf (w : World) (l : loc) : option SubscriberMap :=
  match cellAt w l with
  | Some (CProxy _ s) => Some s
  | _ => None
  end.

(** [proxyMap.get(obj)]: only objects are keys of a [WeakMap]. *)
Definition proxyFor (w : World) (v : value) : option loc :=
  match v with
  | VRef l => mget l (proxyMap w)
  | _ => None
  end.

(** [proxyMap.get(obj)?.[QOjectSubsSymbol]] *)
Definition registeredSubs (w : World) (v : value) : option SubscriberMap :=
  match proxyFor w v with
  | Some p => subsOf w p
  | None => None
  end.

(** [el.getAttribute(name)], [el.hasAttribute(name)],
    [el.setAttribute(name, value)] *)
Definition getAttribute (w : World) (el : loc) (name : string) : option string :=
  mget name (attributes (nodeAt w el)).

Definition hasAttribute (w : World) (el : loc) (name : string) : bool :=
  mhas name (attributes (nodeAt w el)).

Definition withAttributes (n : Node) (a : list (string * string)) : Node :=
  mkNode (nodeType n) (tagName n) a (children n) (isConnected n)
    (ownerDocument n) (textContent n) (context n) (documentElement n) (body n).

Definition withChildren (n : Node) (c : list loc) : Node :=
  mkNode (nodeType n) (tagName n) (attributes n) c (isConnected n)
    (ownerDocument n) (textContent n) (context n) (documentElement n) (body n).

Definition withConnected (n : Node) (b : bool) : Node :=
  mkNode (nodeType n) (tagName n) (attributes n) (children n) b
    (ownerDocument n) (textContent n) (context n) (documentElement n) (body n).

Definition withContext (n : Node) (c : option QContext) : Node :=
  mkNode (nodeType n) (tagName n) (attributes n) (children n) (isConnected n)
    (ownerDocument n) (textContent n) c (documentElement n) (body n).

Definition setAttribute (el : loc) (name val : string) (w : World) : World :=
  let n := nodeAt w el in
  setNode el (withAttributes n (mset name val (attributes n))) w.

(** [tryGetContext(el)] *)
Definition tryGetContext (w : World) (el : loc) : option QContext :=
  context (nodeAt w el).

(** [getDocument(el)] *)
Definition getDocument (w : World) (el : loc) : loc :=
  ownerDocument (nodeAt w el).

End JS.

(** ** Effects: state, exceptions, and the bound on recursion *)

Module Eff.

(** The outcome of running a piece of the store on a state [S]: it
    returns, it throws (the state reached is kept), or the model ran out
    of the steps it was given for a recursion over the heap. *)
Inductive res (S A : Type) : Type :=
| Ok (a : A) (s : S)
| Throw (msg : string) (s : S)
| OutOfFuel.
Arguments Ok {S A} a s.
Arguments Throw {S A} msg s.
Arguments OutOfFuel {S A}.

Definition M (S A : Type) : Type := S -> res S A.

Definition ret {S A} (a : A) : M S A := fun s => Ok a s.

Definition bind {S A B} (m : M S A) (k : A -> M S B) : M S B :=
  fun s =>
    match m s with
    | Ok a s' => k a s'
    | Throw msg s' => Throw msg s'
    | OutOfFuel => OutOfFuel
    end.

Definition get {S} : M S S := fun s => Ok s s.
Definition gets {S A} (f : S -> A) : M S A := fun s => Ok (f s) s.
Definition modify {S} (f : S -> S) : M S unit := fun s => Ok tt (f s).
Definition throw {S A} (msg : string) : M S A := fun s => Throw msg s.

(** The result of a bounded recursion. *)
Definition liftFuel {S A} (o : option A) : M S A :=
  fun s => match o with Some a => Ok a s | None => OutOfFuel end.

(** [if (cond) { body }] *)
Definition when {S} (cond : bool) (body : M S unit) : M S unit :=
  if cond then body else ret tt.

(** [array.map(f)] with a callback that has effects: left to right. *)
Fixpoint traverse {S A B} (f : A -> M S B) (l : list A) : M S (list B) :=
  match l with
  | [] => ret []
  | x :: l' => bind (f x) (fun y => bind (traverse f l') (fun ys => ret (y :: ys)))
  end.

(** [array.forEach(f)] *)
Fixpoint forEach {S A} (f : A -> M S unit) (l : list A) : M S unit :=
  match l with
  | [] => ret tt
  | x :: l' => bind (f x) (fun _ => forEach f l')
  end.

(** A loop that threads an accumulator. *)
Fixpoint foldM {S A B} (f : B -> A -> M S B) (l : list A) (b : B) : M S B :=
  match l with
  | [] => ret b
  | x :: l' => bind (f b x) (fun b' => foldM f l' b')
  end.

(** A bounded recursion outside the monad: [None] is out of steps. *)
Fixpoint foldOpt {A C} (f : A -> C -> option C) (l : list A) (c : C) : option C :=
  match l with
  | [] => Some c
  | x :: l' => match f x c with
               | Some c' => foldOpt f l' c'
               | None => None
               end
  end.

End Eff.

Declare Scope eff_scope.
Delimit Scope eff_scope with eff.
Notation "x <- m ;; k" := (Eff.bind m (fun x => k))
  (at level 100, m at next level, right associativity) : eff_scope.
Notation "m ;;; k" := (Eff.bind m (fun _ => k))
  (at level 100, right associativity) : eff_scope.

(** ** The store: data *)

Module Store.
Import Text JS Eff.
Local Open Scope eff_scope.

(** The three private-use prefixes. *)
Definition UNDEFINED_PREFIX : string := String (ascii_of_N 16) EmptyString.
Definition QRL_PREFIX : string := String (ascii_of_N 17) EmptyString.
Definition DOCUMENT_PREFIX : string := String (ascii_of_N 18) EmptyString.

(** [SnapshotMetaValue]: a field that is not there is [None]. *)
Record SnapshotMetaValue : Type := mkMeta {
  meta_r : option string;  (* q:obj *)
  meta_w : option string;  (* q:watches *)
  meta_s : option string;  (* q:seq *)
  meta_h : option string;  (* q:host *)
  meta_c : option string   (* q:context *)
}.

Definition emptyMeta : SnapshotMetaValue := mkMeta None None None None None.

Definition set_r (v : string) (m : SnapshotMetaValue) : SnapshotMetaValue :=
  mkMeta (Some v) (meta_w m) (meta_s m) (meta_h m) (meta_c m).
Definition set_s (v : string) (m : SnapshotMetaValue) : SnapshotMetaValue :=
  mkMeta (meta_r m) (meta_w m) (Some v) (meta_h m) (meta_c m).
Definition set_h (v : string) (m : SnapshotMetaValue) : SnapshotMetaValue :=
  mkMeta (meta_r m) (meta_w m) (meta_s m) (Some v) (meta_c m).
Definition set_c (v : string) (m : SnapshotMetaValue) : SnapshotMetaValue :=
  mkMeta (meta_r m) (meta_w m) (meta_s m) (meta_h m) (Some v).

(** The value of a property of a serialized subscription map. *)
Inductive subval : Type :=
| SubUndefined
| SubNull
| SubProps (props : list string).

(** An entry of the written [objs]: the value itself, or the fresh
    array or object the writer builds for it (nothing else refers to
    these, so they are kept as data). *)
Inductive out : Type :=
| OutValue (v : value)
| OutArray (items : list value)
| OutObject (fields : jsobj value).

(** [SnapshotState]; [None] in [subs] is [null]. *)
Record SnapshotState : Type := mkState {
  state_ctx : jsobj SnapshotMetaValue;
  state_objs : list out;
  state_subs : list (option (jsobj subval))
}.

Record SnapshotListener : Type := mkListener {
  listener_key : string;
  listener_qrl : value
}.

Record SnapshotResult : Type := mkResult {
  result_state : SnapshotState;
  result_listeners : list SnapshotListener;
  result_objs : list value
}.

(** JSON as [JSON.parse] builds it. *)
Inductive json : Type :=
| JNull
| JBool (b : bool)
| JNum (n : Z)
| JStr (s : string)
| JArr (items : list json)
| JObj (fields : list (string * json)).

(** A parsed snapshot: JSON of the shape [SnapshotState], which is what
    the reader casts the parsed text to. *)
Record Parsed : Type := mkParsed {
  parsed_ctx : jsobj SnapshotMetaValue;
  parsed_objs : list json;
  parsed_subs : list (option (jsobj subval))
}.

(** What the store takes from the rest of the runtime: the constants
    of util/markers, the development flag of util/qdev, whether the
    helpers of assert/assert are active, [shouldSerialize] and
    [isConnected] of object/q-object, the text that [stringifyQRL] of
    import/qrl makes of a closure and of the ids of what it captures,
    [parseQRL], the dirty flag of watch/watch.public, and [JSON.parse]. *)
Record Collab : Type := mkCollab {
  ELEMENT_ID : string;
  ELEMENT_ID_PREFIX : string;
  QContainerAttr : string;
  qDev : bool;
  assertions : bool;
  shouldSerialize : value -> bool;
  qrlText : Qrl -> option (list (option string)) -> string;
  parseQRL : string -> Qrl;
  WatchFlags_IsDirty : Z;
  watchConnected : World -> value -> bool;
  JSON_parse : string -> option Parsed
}.

(** The collector.  [seen] holds object identities and, for a
    subscriber map, the identity of the proxy it belongs to. *)
Inductive seenKey : Type :=
| SeenValue (v : value)
| SeenSubs (proxy : loc).

#[global] Instance seenKey_eq_dec : EqDecision seenKey.
Proof. solve_decision. Defined.

Record Collector : Type := mkCollector {
  seen : list seenKey;
  objSet : list value;
  elements : list loc;
  watches : list value
}.

Definition createCollector : Collector := mkCollector [] [] [] [].

Definition seenAdd (k : seenKey) (c : Collector) : Collector :=
  mkCollector (sadd k (seen c)) (objSet c) (elements c) (watches c).
Definition objSetAdd (v : value) (c : Collector) : Collector :=
  mkCollector (seen c) (sadd v (objSet c)) (elements c) (watches c).
Definition elementsPush (el : loc) (c : Collector) : Collector :=
  mkCollector (seen c) (objSet c) (elements c ++ [el]) (watches c).
Definition watchesPush (v : value) (c : Collector) : Collector :=
  mkCollector (seen c) (objSet c) (elements c) (watches c ++ [v]).

(** The state of a run of the writer: the page and [elementToIndex]. *)
Record WS : Type := mkWS {
  world : World;
  elementToIndex : list (loc * option string)
}.

Definition onWorld (f : World -> World) (s : WS) : WS :=
  mkWS (f (world s)) (elementToIndex s).

(** ** DOM scope walker and container markers *)

Section WithCollab.
Variable E : Collab.

Definition isContainer (w : World) (el : loc) : bool :=
  hasAttribute w el (QContainerAttr E).

Definition hasQId (w : World) (el : loc) : bool :=
  hasAttribute w el (ELEMENT_ID E).

Definition hasContext (w : World) (el : loc) : bool :=
  match tryGetContext w el with Some _ => true | None => false end.

(** [walkNodes(nodes, parent, predicate)]: [nodes] is returned. *)
Fixpoint walkNodes (fuel : nat) (w : World) (predicate : loc -> bool)
    (nodes : list loc) (parent : loc) : option (list loc) :=
  match fuel with
  | O => None
  | S fuel' =>
      foldOpt
        (fun child nodes =>
           if isContainer w child then Some nodes
           else
             walkNodes fuel' w predicate
               (if predicate child then nodes ++ [child] else nodes) child)
        (children (nodeAt w parent)) nodes
  end.

Definition getNodesInScope (fuel : nat) (w : World) (parent : loc)
    (predicate : loc -> bool) : option (list loc) :=
  walkNodes fuel w predicate [] parent.

(** [getQwikJSON(parentElm)]: the last element child that is a
    [<script type="qwik/json">]. *)
Definition isQwikJSON (w : World) (child : loc) : bool :=
  String.eqb (tagName (nodeAt w child)) "SCRIPT" &&
  match getAttribute w child "type" with
  | Some t => String.eqb t "qwik/json"
  | None => false
  end.

Definition getQwikJSON (w : World) (parentElm : loc) : option loc :=
  List.find (isQwikJSON w) (rev (children (nodeAt w parentElm))).

(** ** Identity normalizer *)

Definition normalizeObj (w : World) (doc : loc) (obj : value) : value :=
  if bool_decide (obj = VRef doc) then VStr DOCUMENT_PREFIX
  else if bool_decide (obj = VUndefined) || negb (shouldSerialize E obj) then VStr UNDEFINED_PREFIX
  else match obj with
       | VRef _ => nullish (targetOf w obj) obj
       | _ => obj
       end.

(** [isProxy(obj)] *)
Definition isProxy (w : World) (obj : value) : bool :=
  match obj with
  | VRef l => match cellAt w l with Some (CProxy _ _) => true | _ => false end
  | _ => false
  end.

(** ** Collector *)

(** The enumerable own properties that [for (key in obj)] visits; only
    plain objects have any here. *)
Definition ownEntries (w : World) (l : loc) : list (string * value) :=
  match cellAt w l with
  | Some (CObject fields) => fields
  | _ => []
  end.

Definition arrayItems (w : World) (l : loc) : list value :=
  match cellAt w l with
  | Some (CArray items) => items
  | _ => []
  end.

(** [(l as QRLInternal).captureRef] *)
Definition captureRefOf (w : World) (v : value) : option (list value) :=
  match v with
  | VRef l => match cellAt w l with
              | Some (CQrl q) => qrl_captureRef q
              | _ => None
              end
  | _ => None
  end.

(** The five collecting functions call one another; each call takes a
    step off [fuel].  [collectQObjects] returns whether it handled the
    value. *)
Fixpoint collectValue (fuel : nat) (w : World) (doc : loc) (obj : value)
    (c : Collector) {struct fuel} : option Collector :=
  match fuel with
  | O => None
  | S fuel' =>
      match collectQObjects fuel' w doc obj c with
      | None => None
      | Some (handled, c) =>
          if handled then Some c
          else Some (objSetAdd (normalizeObj w doc obj) c)
      end
  end

with collectQObjects (fuel : nat) (w : World) (doc : loc) (obj : value)
    (c : Collector) {struct fuel} : option (bool * Collector) :=
  match fuel with
  | O => None
  | S fuel' =>
      let walk (obj : value) (c : Collector) : option (bool * Collector) :=
        match obj with
        | VRef l =>
            if shas (SeenValue obj) (seen c) then Some (true, c)
            else
              let c := objSetAdd obj (seenAdd (SeenValue obj) c) in
              let visit (v : value) (c : Collector) :=
                option_map snd (collectQObjects fuel' w doc v c) in
              match
                (if isArray w obj then foldOpt visit (arrayItems w l) c
                 else foldOpt visit (map snd (ownEntries w l)) c)
              with
              | Some c => Some (true, c)
              | None => None
              end
        | VStr _ => Some (true, objSetAdd obj c)
        | _ => Some (false, c)
        end in
      match obj with
      | VUndefined | VNull => Some (false, c)
      | VRef l =>
          let hasTarget := truthy (targetOf w obj) in
          if negb hasTarget && isNode w obj then
            Some ((nodeType (nodeAt w l) =? 1)%Z, c)
          else if isQrl w obj then
            option_map (fun c => (true, c)) (collectQrl fuel' w doc obj c)
          else
            let proxied := if hasTarget then Some l else proxyFor w obj in
            match
              match proxied with
              | Some p =>
                  match subsOf w p with
                  | Some subs => collectSubscriptions fuel' w doc p subs c
                  | None => Some c
                  end
              | None => Some c
              end
            with
            | Some c => walk (normalizeObj w doc obj) c
            | None => None
            end
      | _ => walk obj c
      end
  end

with collectQrl (fuel : nat) (w : World) (doc : loc) (obj : value)
    (c : Collector) {struct fuel} : option Collector :=
  match fuel with
  | O => None
  | S fuel' =>
      if shas (SeenValue obj) (seen c) then Some c
      else
        let c := objSetAdd (normalizeObj w doc obj) (seenAdd (SeenValue obj) c) in
        match captureRefOf w obj with
        | Some refs => foldOpt (collectValue fuel' w doc) refs c
        | None => Some c
        end
  end

with collectElement (fuel : nat) (w : World) (doc : loc) (el : loc)
    (c : Collector) {struct fuel} : option Collector :=
  match fuel with
  | O => None
  | S fuel' =>
      if shas (SeenValue (VRef el)) (seen c) then Some c
      else
        let c := seenAdd (SeenValue (VRef el)) c in
        match tryGetContext w el with
        | None => Some c
        | Some ctx =>
            let each := foldOpt (collectValue fuel' w doc) in
            c ← Some (elementsPush el c);
            c ← (if truthy (ctx_props ctx)
                 then collectValue fuel' w doc (ctx_props ctx) c else Some c);
            c ← (if truthy (ctx_renderQrl ctx)
                 then collectValue fuel' w doc (ctx_renderQrl ctx) c else Some c);
            c ← each (ctx_seq ctx) c;
            c ← each (ctx_refMap ctx) c;
            c ← each (ctx_watches ctx) c;
            match ctx_contexts ctx with
            | Some contexts => each (map snd contexts) c
            | None => Some c
            end
        end
  end

with collectSubscriptions (fuel : nat) (w : World) (doc : loc) (proxy : loc)
    (subs : SubscriberMap) (c : Collector) {struct fuel} : option Collector :=
  match fuel with
  | O => None
  | S fuel' =>
      if shas (SeenSubs proxy) (seen c) then Some c
      else
        foldOpt
          (fun key c =>
             match key with
             | VRef el =>
                 if isElement w key then collectElement fuel' w doc el c
                 else collectValue fuel' w doc key c
             | _ => collectValue fuel' w doc key c
             end)
          (map fst subs) (seenAdd (SeenSubs proxy) c)
  end.

(** ** Helpers of the rest of the runtime *)

(** Modelled from the spec: [assertDefined] and [assertEqual] of
    assert/assert, which is not among the sources.  A failed assertion
    is fatal for the running write or resume; [assertions] tells whether
    the helpers are active in this build. *)
Definition assertTrue {S : Type} (holds : bool) (msg : string) : M S unit :=
  if assertions E && negb holds then throw msg else ret tt.

Definition assertDefined {S A : Type} (v : option A) : M S unit :=
  assertTrue (match v with Some _ => true | None => false end) "Expected defined value".

(** Modelled from the spec: [getContext] of props/props, which is not
    among the sources: the component-state record of an element, made
    (empty) and attached on first use. *)
Definition emptyContext : QContext :=
  mkQContext [] VUndefined VUndefined [] [] None None.

Definition getContext (el : loc) : M World QContext :=
  w <- get ;;
  match tryGetContext w el with
  | Some ctx => ret ctx
  | None =>
      modify (setNode el (withContext (nodeAt w el) (Some emptyContext))) ;;;
      ret emptyContext
  end.

Definition setContext (el : loc) (ctx : QContext) : M World unit :=
  modify (fun w => setNode el (withContext (nodeAt w el) (Some ctx)) w).

(** Modelled from the spec: [destroyWatch] of watch/watch.public, which
    is not among the sources: the watcher is detached for good. *)
Definition destroyWatch (watch : value) (w : World) : World :=
  mkWorld (heap w) (proxyMap w) (log w) (events w) (destroyed w ++ [watch]).

(** A step on the page, inside a run of the writer. *)
Definition onPage {A : Type} (m : M World A) : M WS A :=
  fun s =>
    match m (world s) with
    | Ok a w => Ok a (mkWS w (elementToIndex s))
    | Throw msg w => Throw msg (mkWS w (elementToIndex s))
    | OutOfFuel => OutOfFuel
    end.

(** [watch.f] *)
Definition watchFlags (w : World) (watch : value) : Z :=
  match watch with
  | VRef l => match oget "f" (ownEntries w l) with
              | Some (VNum n) => n
              | _ => 0%Z
              end
  | _ => 0%Z
  end.

(** ** Snapshot writer *)

(** [Array.prototype.sort(compare)]: stable, and [undefined] goes last
    without being compared. *)
Fixpoint insertBy {A : Type} (compare : A -> A -> Z) (x : A) (l : list A) : list A :=
  match l with
  | [] => [x]
  | y :: l' => if (compare x y <=? 0)%Z then x :: l else y :: insertBy compare x l'
  end.

Fixpoint sortBy {A : Type} (compare : A -> A -> Z) (l : list A) : list A :=
  match l with
  | [] => []
  | x :: l' => insertBy compare x (sortBy compare l')
  end.

Definition jsSort (compare : value -> value -> Z) (l : list value) : list value :=
  sortBy compare (List.filter (fun v => negb (bool_decide (v = VUndefined))) l)
  ++ List.filter (fun v => bool_decide (v = VUndefined)) l.

(** [hasSubscriptions(a)].  The registry holds proxies only; an entry
    that is none reads as no subscriber. *)
Definition hasSubscriptions (w : World) (a : value) : bool :=
  match registeredSubs w a with
  | Some subs => (0 <? length subs)%nat
  | None => false
  end.

Definition compareSubscribed (w : World) (a b : value) : Z :=
  let isProxyA := if hasSubscriptions w a then 0%Z else 1%Z in
  let isProxyB := if hasSubscriptions w b then 0%Z else 1%Z in
  (isProxyA - isProxyB)%Z.

(** [objToId]: each value of [objs] to its index. *)
Definition makeObjToId (objs : list value) : list (value * N) :=
  fst (fold_left (fun '(objToId, count) obj => (mset obj count objToId, (count + 1)%N))
         objs ([], 0%N)).

(** [parts.join(' ')] on ids: [null] prints as nothing. *)
Definition joinIds (ids : list (option string)) : string :=
  join " " (map (fun id => match id with Some id => id | None => EmptyString end) ids).

(** An id inside a template literal: [null] prints as "null". *)
Definition idText (id : option string) : string :=
  match id with Some id => id | None => "null" end.

Definition nonEmpty (s : string) : bool := negb (String.eqb s EmptyString).

Section Closures.
(** What the closures of [snapshotState] capture. *)
Variable doc : loc.
Variable objToId : list (value * N).
Variable collector : Collector.

Definition logW (e : logEntry) : M WS unit := modify (onWorld (addLog e)).

Definition getElementID (el : loc) : M WS (option string) :=
  s <- get ;;
  match mget el (elementToIndex s) with
  | Some id => ret id
  | None =>
      if isConnected (nodeAt (world s) el) then
        let id := intToStr (N.of_nat (length (elementToIndex s))) in
        modify (onWorld (setAttribute el (ELEMENT_ID E) id)) ;;;
        let id := ELEMENT_ID_PREFIX E +:+ id in
        modify (fun s => mkWS (world s) (mset el (Some id) (elementToIndex s))) ;;;
        ret (Some id)
      else
        modify (fun s => mkWS (world s) (mset el None (elementToIndex s))) ;;;
        ret None
  end.

Definition getObjId (obj : value) : M WS (option string) :=
  s <- get ;;
  let w := world s in
  match obj with
  | VRef l =>
      let target := targetOf w obj in
      match mget (normalizeObj w doc (nullish target obj)) objToId with
      | Some id =>
          let proxySuffix := if truthy target then "!" else EmptyString in
          ret (Some (intToStr id +:+ proxySuffix))
      | None =>
          if negb (truthy target) && isNode w obj then
            if (nodeType (nodeAt w l) =? 1)%Z then getElementID l
            else
              logW (LogError "Can not serialize a HTML Node that is not an Element") ;;;
              ret None
          else ret None
      end
  | _ =>
      match mget (normalizeObj w doc obj) objToId with
      | Some id => ret (Some (intToStr id))
      | None => ret None
      end
  end.

Definition mustGetObjId (obj : value) : M WS (option string) :=
  id <- getObjId obj ;;
  assertDefined id ;;;
  ret id.

(** One entry of a subscriber map, as the pair that
    [Object.fromEntries] receives. *)
Definition subsEntry (entry : value * option (list string)) : M WS (string * subval) :=
  id <- getObjId (fst entry) ;;
  match id with
  | Some id =>
      ret (id, match snd entry with Some set => SubProps set | None => SubNull end)
  | None => ret ("undefined", SubUndefined)
  end.

(** The callback of [objs.map] that builds [subs]. *)
Definition subsFor (obj : value) : M WS (option (jsobj subval)) :=
  s <- get ;;
  match registeredSubs (world s) obj with
  | Some subs =>
      if (0 <? length subs)%nat then
        entries <- traverse subsEntry subs ;;
        ret (Some (fromEntries entries))
      else ret None
  | None => ret None
  end.

Definition serialize (v : value) : M WS value :=
  id <- getObjId v ;;
  ret (match id with Some id => VStr id | None => v end).

(** Modelled from the spec: [stringifyQRL] of import/qrl, which is
    not among the sources: the captured values are encoded as ids, in
    order, through [getObjId]; the text is the collaborator's. *)
Definition stringifyQRL (q : Qrl) : M WS string :=
  match qrl_captureRef q with
  | Some refs =>
      ids <- traverse getObjId refs ;;
      ret (qrlText E q (Some ids))
  | None => ret (qrlText E q None)
  end.

(** The callback of [objs.map] that builds [convertedObjs]. *)
Definition convert (obj : value) : M WS out :=
  s <- get ;;
  let w := world s in
  match obj with
  | VRef l =>
      if isArray w obj then
        items <- traverse serialize (arrayItems w l) ;;
        ret (OutArray items)
      else
        match cellAt w l with
        | Some (CQrl q) =>
            text <- stringifyQRL q ;;
            ret (OutValue (VStr (QRL_PREFIX +:+ text)))
        | _ =>
            output <- foldM (fun output entry =>
                               v <- serialize (snd entry) ;;
                               ret (oset (fst entry) v output))
                        (ownEntries w l) [] ;;
            ret (OutObject output)
        end
  | _ => ret (OutValue obj)
  end.

(** One [if (cond) { value = ids.join(' '); if (value) { field = value;
    add = true } }] block of the write-back loop. *)
Definition writeIds (cond : bool) (values : list value)
    (setField : string -> SnapshotMetaValue -> SnapshotMetaValue)
    (acc : SnapshotMetaValue * bool) : M WS (SnapshotMetaValue * bool) :=
  if cond then
    ids <- traverse mustGetObjId values ;;
    let value := joinIds ids in
    if nonEmpty value then ret (setField value (fst acc), true) else ret acc
  else ret acc.

(** The metadata of one element and whether it is to be written. *)
Definition metaValueOf (node : loc) (ctx : QContext) : M WS (SnapshotMetaValue * bool) :=
  let ref := ctx_refMap ctx in
  let props := ctx_props ctx in
  let contexts := ctx_contexts ctx in
  let watches := ctx_watches ctx in
  let renderQrl := ctx_renderQrl ctx in
  let seq := ctx_seq ctx in
  let elementCaptured := bool_decide (node ∈ elements collector) in
  acc <- writeIds (0 <? length ref)%nat ref set_r (emptyMeta, false) ;;
  acc <- writeIds (elementCaptured && truthy props)
           (props :: (if truthy renderQrl then [renderQrl] else [])) set_h acc ;;
  acc <- writeIds (elementCaptured && (0 <? length watches)%nat) watches set_s acc ;;
  acc <- writeIds (elementCaptured && (0 <? length seq)%nat) seq set_s acc ;;
  match contexts with
  | Some contexts =>
      serializedContexts <-
        traverse (fun entry =>
                    id <- mustGetObjId (snd entry) ;;
                    ret (fst entry +:+ "=" +:+ idText id)) contexts ;;
      let value := join " " serializedContexts in
      if nonEmpty value then ret (set_c value (fst acc), true) else ret acc
  | None => ret acc
  end.

(** The body of the write-back loop over [elements]. *)
Definition writeBack (acc : jsobj SnapshotMetaValue * list SnapshotListener) (node : loc)
    : M WS (jsobj SnapshotMetaValue * list SnapshotListener) :=
  let '(meta, listeners) := acc in
  ctx <- onPage (getContext node) ;;
  assertDefined (Some ctx) ;;;
  mv <- metaValueOf node ctx ;;
  meta <- (if snd mv then
             elementID <- getElementID node ;;
             assertDefined elementID ;;;
             ret (oset (idText elementID) (fst mv) meta)
           else ret meta) ;;
  let listeners :=
    match ctx_listeners ctx with
    | Some ls =>
        listeners ++
        flat_map (fun entry => map (mkListener (fst entry)) (snd entry)) ls
    | None => listeners
    end in
  ret (meta, listeners).

(** The loop that detaches the collected watches. *)
Definition destroyWatches : M WS unit :=
  forEach (fun watch =>
             modify (onWorld (destroyWatch watch)) ;;;
             when (qDev E)
               (s <- get ;;
                when (negb (Z.land (watchFlags (world s) watch) (WatchFlags_IsDirty E) =? 0)%Z)
                  (logW (LogWarn "Serializing dirty watch. Looks like an internal error.")) ;;;
                when (negb (watchConnected E (world s) watch))
                  (logW (LogWarn "Serializing disconneted watch. Looks like an internal error."))))
    (watches collector).

(** The sanity check of the element ids, in development. *)
Definition sanityCheck : M WS unit :=
  when (qDev E)
    (s <- get ;;
     forEach (fun entry =>
                s <- get ;;
                when (negb (bool_decide (getDocument (world s) (fst entry) = doc)))
                  (logW (LogWarn "element from different document")) ;;;
                when (match snd entry with Some id => negb (nonEmpty id) | None => true end)
                  (logW (LogWarn "unconnected element")))
       (elementToIndex s)).

(** [snapshotState] after the collection and the sort. *)
Definition writeSnapshot (elements : list loc) (objs : list value) : M WS SnapshotResult :=
  subs <- traverse subsFor objs ;;
  let subs := List.filter (fun a => match a with Some _ => true | None => false end) subs in
  convertedObjs <- traverse convert objs ;;
  acc <- foldM writeBack elements ([], []) ;;
  destroyWatches ;;;
  sanityCheck ;;;
  ret (mkResult (mkState (fst acc) convertedObjs subs) (snd acc) objs).
End Closures.

(** The first loop of [snapshotState] over the elements that carry
    state: named contexts and what the listeners captured are collected,
    the watches are queued. *)
Definition collectNode (fuel : nat) (w : World) (doc : loc) (node : loc)
    (c : Collector) : option Collector :=
  match tryGetContext w node with
  | None => Some c
  | Some ctx =>
      c ← match ctx_contexts ctx with
          | Some contexts => foldOpt (collectValue fuel w doc) (map snd contexts) c
          | None => Some c
          end;
      c ← match ctx_listeners ctx with
          | Some ls =>
              foldOpt (fun l c =>
                         match captureRefOf w l with
                         | Some captured => foldOpt (collectValue fuel w doc) captured c
                         | None => Some c
                         end)
                (flat_map snd ls) c
          | None => Some c
          end;
      Some (fold_left (fun c watch => watchesPush watch c) (ctx_watches ctx) c)
  end.

Definition snapshotState (fuel : nat) (containerEl : loc) : M World SnapshotResult :=
  fun w =>
    let doc := getDocument w containerEl in
    match getNodesInScope fuel w containerEl (hasContext w) with
    | None => OutOfFuel
    | Some elements =>
        match foldOpt (collectNode fuel w doc) elements createCollector with
        | None => OutOfFuel
        | Some collector =>
            let objs := objSet collector in
            let objs := jsSort (compareSubscribed w) objs in
            let objToId := makeObjToId objs in
            (* [elementToIndex] starts empty and is dropped at the end *)
            match writeSnapshot doc objToId collector elements objs (mkWS w []) with
            | Ok r s => Ok r (world s)
            | Throw msg s => Throw msg (world s)
            | OutOfFuel => OutOfFuel
            end
        end
    end.

(** ** Snapshot reader *)

Definition logWarn (msg : string) : M World unit := modify (addLog (LogWarn msg)).
Definition logDebug (msg : string) : M World unit := modify (addLog (LogDebug msg)).

(** Modelled from the spec: [emitEvent] of util/event, which is not
    among the sources: a custom event is dispatched on the element. *)
Definition emitEvent (el : loc) (name : string) : M World unit :=
  modify (fun w => mkWorld (heap w) (proxyMap w) (log w) (events w ++ [(el, name)]) (destroyed w)).

(** Modelled from the spec: [readWriteProxy] and [_restoreQObject] of
    object/q-object, which is not among the sources: the proxy of a raw
    value is fetched from the registry, or made over the given
    subscriber map and registered, so that wrapping again gives the same
    proxy.  What is not an object is returned as it is. *)
Definition readWriteProxy (obj : value) (subs : SubscriberMap) : M World value :=
  match obj with
  | VRef l =>
      w <- get ;;
      match mget l (proxyMap w) with
      | Some p => ret (VRef p)
      | None =>
          let p := length (heap w) in
          modify (fun w => mkWorld (heap w ++ [CProxy l subs]) (mset l p (proxyMap w))
                             (log w) (events w) (destroyed w)) ;;;
          ret (VRef p)
      end
  | _ => ret obj
  end.

Definition _restoreQObject (obj : value) (subs : SubscriberMap) : M World unit :=
  readWriteProxy obj subs ;;; ret tt.

(** [script.remove()], for the script found among the children of [parent]. *)
Definition removeNode (parent child : loc) (w : World) : World :=
  let p := nodeAt w parent in
  let w := setNode parent
             (withChildren p (List.filter (fun c => negb (bool_decide (c = child))) (children p))) w in
  setNode child (withConnected (nodeAt w child) false) w.

(** [JSON.parse] allocates what it reads. *)
Fixpoint allocJson (j : json) (w : World) : value * World :=
  match j with
  | JNull => (VNull, w)
  | JBool b => (VBool b, w)
  | JNum n => (VNum n, w)
  | JStr s => (VStr s, w)
  | JArr items =>
      let '(vs, w) :=
        (fix each (items : list json) (w : World) : list value * World :=
           match items with
           | [] => ([], w)
           | j :: items' =>
               let '(v, w) := allocJson j w in
               let '(vs, w) := each items' w in
               (v :: vs, w)
           end) items w in
      let '(l, w) := alloc (CArray vs) w in
      (VRef l, w)
  | JObj fields =>
      let '(fs, w) :=
        (fix each (fields : list (string * json)) (w : World) : list (string * value) * World :=
           match fields with
           | [] => ([], w)
           | (k, j) :: fields' =>
               let '(v, w) := allocJson j w in
               let '(fs, w) := each fields' w in
               ((k, v) :: fs, w)
           end) fields w in
      let '(l, w) := alloc (CObject (fromEntries fs)) w in
      (VRef l, w)
  end.

Definition allocAll (items : list json) : M World (list value) :=
  traverse (fun j w => let '(v, w) := allocJson j w in Ok v w) items.

(** [objs[index]] for the index [parseInt] gave. *)
Definition itemAt (items : list value) (index : option Z) : value :=
  match index with
  | Some i => if (0 <=? i)%Z then default VUndefined (items !! Z.to_nat i) else VUndefined
  | None => VUndefined
  end.

(** [objs.length > index] *)
Definition inRange (items : list value) (index : option Z) : bool :=
  match index with
  | Some i => (i <? Z.of_nat (length items))%Z
  | None => false
  end.

(** [getObjectImpl(id, elements, objs, proxyMap)]; [objs] is the array
    the snapshot was parsed into. *)
Definition getObjectImpl (elements : list (string * loc)) (objs : loc) (id : string)
    : M World value :=
  if startsWith id (ELEMENT_ID_PREFIX E) then
    assertTrue (mhas id elements) "Expected element" ;;;
    ret (match mget id elements with Some el => VRef el | None => VUndefined end)
  else
    let index := strToInt id in
    w <- get ;;
    assertTrue (inRange (arrayItems w objs) index) "Expected index in range" ;;;
    let obj := itemAt (arrayItems w objs) index in
    let needsProxy := endsWithChar "!" id in
    if needsProxy then
      match proxyFor w obj with
      | Some p => ret (VRef p)
      | None => readWriteProxy obj []
      end
    else ret obj.

(** [getObject(id)] on what may be [undefined]. *)
Definition getObjectOpt (getObject : string -> M World value) (id : option string)
    : M World value :=
  match id with
  | Some id => getObject id
  | None => throw "TypeError: Cannot read properties of undefined"
  end.

(** [objs[i] = v] *)
Definition setItem (l : loc) (i : nat) (v : value) (w : World) : World :=
  match cellAt w l with
  | Some (CArray items) => store l (CArray (<[i := v]> items)) w
  | _ => w
  end.

(** [obj[key] = v] *)
Definition setField (l : loc) (key : string) (v : value) (w : World) : World :=
  match cellAt w l with
  | Some (CObject fields) => store l (CObject (oset key v fields)) w
  | _ => w
  end.

(** [obj.captureRef = captureRef; obj.capture = null] on a closure. *)
Definition setCaptureRef (l : loc) (captureRef : list value) (w : World) : World :=
  match cellAt w l with
  | Some (CQrl q) =>
      store l (CQrl (mkQrl (qrl_chunk q) (qrl_symbol q) None (Some captureRef))) w
  | _ => w
  end.

(** The subscriber map rebuilt from one entry of [subs]. *)
Definition reviveSubs (getObject : string -> M World value) (sub : jsobj subval)
    : M World SubscriberMap :=
  foldM (fun converted entry =>
           el <- getObject (fst entry) ;;
           if negb (truthy el) then
             logWarn "QWIK can not revive subscriptions because of missing element ID" ;;;
             ret converted
           else
             let set := match snd entry with
                        | SubNull => None
                        | SubProps props => Some (setFrom props)
                        | SubUndefined => Some []
                        end in
             ret (mset el set converted))
    sub [].

(** The body of the loop of [reviveValues]. *)
Definition reviveValue (objs : loc) (subs : list (option (jsobj subval)))
    (getObject : string -> M World value) (containerEl : loc) (i : nat) : M World unit :=
  w <- get ;;
  match arrayItems w objs !! i with
  | Some (VStr value) =>
      if String.eqb value UNDEFINED_PREFIX then modify (setItem objs i VUndefined)
      else if String.eqb value DOCUMENT_PREFIX then
        modify (setItem objs i (VRef (getDocument w containerEl)))
      else if startsWith value QRL_PREFIX then
        let q := parseQRL E (String.substring 1 (String.length value - 1) value) in
        modify (fun w => let '(l, w) := alloc (CQrl q) w in setItem objs i (VRef l) w)
      else ret tt
  | Some value =>
      match subs !! i with
      | Some (Some sub) =>
          converted <- reviveSubs getObject sub ;;
          _restoreQObject value converted
      | _ => ret tt
      end
  | None => ret tt
  end.

Definition reviveValues (objs : loc) (subs : list (option (jsobj subval)))
    (getObject : string -> M World value) (containerEl : loc) : M World unit :=
  w <- get ;;
  forEach (reviveValue objs subs getObject containerEl)
    (seq 0 (length (arrayItems w objs))).

Fixpoint reviveNestedObjects (fuel : nat) (getObject : string -> M World value)
    (obj : value) {struct fuel} : M World unit :=
  match fuel with
  | O => fun _ => OutOfFuel
  | S fuel' =>
      match obj with
      | VRef l =>
          w <- get ;;
          match cellAt w l with
          | Some (CQrl q) =>
              match qrl_capture q with
              | Some capture =>
                  if (0 <? length capture)%nat then
                    captureRef <- traverse getObject capture ;;
                    modify (setCaptureRef l captureRef)
                  else ret tt
              | None => ret tt
              end
          | Some (CArray items) =>
              forEach (fun i =>
                         w <- get ;;
                         match arrayItems w l !! i with
                         | Some (VStr value) =>
                             v <- getObject value ;;
                             modify (setItem l i v)
                         | Some value => reviveNestedObjects fuel' getObject value
                         | None => ret tt
                         end)
                (seq 0 (length items))
          | Some (CObject fields) =>
              forEach (fun key =>
                         w <- get ;;
                         match oget key (ownEntries w l) with
                         | Some (VStr value) =>
                             v <- getObject value ;;
                             modify (setField l key v)
                         | Some value => reviveNestedObjects fuel' getObject value
                         | None => ret tt
                         end)
                (map fst fields)
          | _ => ret tt
          end
      | _ => ret tt
      end
  end.

(** [ctx.field = ...] on the component state of [el]. *)
Definition updateContext (el : loc) (f : QContext -> QContext) : M World unit :=
  ctx <- getContext el ;;
  setContext el (f ctx).

Definition with_refMap (v : list value) (c : QContext) : QContext :=
  mkQContext v (ctx_props c) (ctx_renderQrl c) (ctx_seq c) (ctx_watches c)
    (ctx_contexts c) (ctx_listeners c).
Definition with_props (v : value) (c : QContext) : QContext :=
  mkQContext (ctx_refMap c) v (ctx_renderQrl c) (ctx_seq c) (ctx_watches c)
    (ctx_contexts c) (ctx_listeners c).
Definition with_renderQrl (v : value) (c : QContext) : QContext :=
  mkQContext (ctx_refMap c) (ctx_props c) v (ctx_seq c) (ctx_watches c)
    (ctx_contexts c) (ctx_listeners c).
Definition with_seq (v : list value) (c : QContext) : QContext :=
  mkQContext (ctx_refMap c) (ctx_props c) (ctx_renderQrl c) v (ctx_watches c)
    (ctx_contexts c) (ctx_listeners c).
Definition with_watches (v : list value) (c : QContext) : QContext :=
  mkQContext (ctx_refMap c) (ctx_props c) (ctx_renderQrl c) (ctx_seq c) v
    (ctx_contexts c) (ctx_listeners c).
Definition with_contexts (v : option (list (string * value))) (c : QContext) : QContext :=
  mkQContext (ctx_refMap c) (ctx_props c) (ctx_renderQrl c) (ctx_seq c) (ctx_watches c)
    v (ctx_listeners c).

(** A metadata field that is there and not empty. *)
Definition present (field : option string) : option string :=
  match field with
  | Some v => if nonEmpty v then Some v else None
  | None => None
  end.

(** The last block of that callback, [if (host) { ... }]: the host state
    of the element, from the two ids of [h]. *)
Definition restoreHost (getObject : string -> M World value) (el : loc) (host : string)
    : M World unit :=
  let parts := split " " host in
  let props := parts !! 0 in
  let renderQrl := parts !! 1 in
  assertDefined props ;;;
  assertDefined renderQrl ;;;
  p <- getObjectOpt getObject props ;;
  updateContext el (with_props p) ;;;
  q <- getObjectOpt getObject renderQrl ;;
  updateContext el (with_renderQrl q).

(** The callback of [Object.entries(meta.ctx).forEach]. *)
Definition restoreContext (getObject : string -> M World value)
    (entry : string * SnapshotMetaValue) : M World unit :=
  let '(elementID, meta) := entry in
  el <- getObject elementID ;;
  assertTrue (match el with VUndefined | VNull => false | _ => true end)
    "Expected defined value" ;;;
  match el with
  | VRef el =>
      getContext el ;;;
      let qobj := present (meta_r meta) in
      let seq := present (meta_s meta) in
      let host := present (meta_h meta) in
      let contexts := present (meta_c meta) in
      let watches := present (meta_w meta) in
      match qobj with
      | Some qobj =>
          refs <- traverse getObject (split " " qobj) ;;
          updateContext el (fun c => with_refMap (ctx_refMap c ++ refs) c)
      | None => ret tt
      end ;;;
      match seq with
      | Some seq =>
          vs <- traverse getObject (split " " seq) ;;
          updateContext el (with_seq vs)
      | None => ret tt
      end ;;;
      match watches with
      | Some watches =>
          vs <- traverse getObject (split " " watches) ;;
          updateContext el (with_watches vs)
      | None => ret tt
      end ;;;
      match contexts with
      | Some contexts =>
          forEach (fun part =>
                     let kv := split "=" part in
                     let key := default EmptyString (kv !! 0) in
                     let value := kv !! 1 in
                     updateContext el
                       (fun c => match ctx_contexts c with
                                 | Some _ => c
                                 | None => with_contexts (Some []) c
                                 end) ;;;
                     v <- getObjectOpt getObject value ;;
                     updateContext el
                       (fun c => with_contexts
                                   (Some (mset key v (default [] (ctx_contexts c)))) c))
            (split " " contexts)
      | None => ret tt
      end ;;;
      (* Restore sequence scoping *)
      match host with
      | Some host => restoreHost getObject el host
      | None => ret tt
      end
  | _ => throw "TypeError: Cannot create property on a value that is not an object"
  end.

Definition resumeContainer (fuel : nat) (containerEl : loc) : M World unit :=
  w <- get ;;
  if negb (isContainer w containerEl) then
    logWarn "Skipping hydration because parent element is not q:container"
  else
    let doc := getDocument w containerEl in
    let isDocElement := bool_decide (containerEl = documentElement (nodeAt w doc)) in
    let parentJSON := if isDocElement then body (nodeAt w doc) else containerEl in
    match getQwikJSON w parentJSON with
    | None => logWarn "Skipping hydration qwik/json metadata was not found."
    | Some script =>
        modify (removeNode parentJSON script) ;;;
        let text := textContent (nodeAt w script) in
        meta <- match JSON_parse E (unescapeText (if nonEmpty text then text else "{}")) with
                | Some meta => ret meta
                | None => throw "SyntaxError"
                end ;;
        values <- allocAll (parsed_objs meta) ;;
        objs <- (fun w => let '(l, w) := alloc (CArray values) w in Ok l w) ;;

        (* Collect all elements *)
        w <- get ;;
        nodes <- liftFuel (getNodesInScope fuel w containerEl (hasQId w)) ;;
        let elements :=
          fold_left (fun elements el =>
                       let id := default EmptyString (getAttribute w el (ELEMENT_ID E)) in
                       mset (ELEMENT_ID_PREFIX E +:+ id) el elements)
            nodes [] in
        let getObject := getObjectImpl elements objs in

        (* Revive proxies with subscriptions into the proxymap *)
        reviveValues objs (parsed_subs meta) getObject parentJSON ;;;

        (* Rebuild target objects *)
        w <- get ;;
        forEach (fun i =>
                   w <- get ;;
                   match arrayItems w objs !! i with
                   | Some obj => reviveNestedObjects fuel getObject obj
                   | None => ret tt
                   end)
          (seq 0 (length (arrayItems w objs))) ;;;

        forEach (restoreContext getObject) (parsed_ctx meta) ;;;

        modify (setAttribute containerEl (QContainerAttr E) "resumed") ;;;
        logDebug "Container resumed" ;;;
        emitEvent containerEl "qresume"
    end.

End WithCollab.
End Store.

(** ** Predicates used in the statements *)

Module Aux.
Import Text JS Eff Store.

(** The character [a] does not occur in [p]. *)
Fixpoint lacks (a : ascii) (p : string) : bool :=
  match p with
  | EmptyString => true
  | String b p' => negb (Ascii.eqb a b) && lacks a p'
  end.

(** The comparison of a sort on a flag: flagged values first. *)
Definition byFlag {A : Type} (p : A -> bool) (a b : A) : Z :=
  ((if p a then 0 else 1) - (if p b then 0 else 1))%Z.

(** Two states of the page that differ at most in the attributes of
    nodes (and in the log, the events and the watches destroyed): this is
    all that handing out element ids changes. *)
Definition plainCell (c : option cell) : option cell :=
  match c with
  | Some (CNode n) => Some (CNode (withAttributes n []))
  | _ => c
  end.

Definition stable (w w' : World) : Prop :=
  proxyMap w' = proxyMap w /\ forall l, plainCell (cellAt w' l) = plainCell (cellAt w l).

(** A step of the writer that returns, and changes the page only in
    this way. *)
Definition gentle {A : Type} (m : M WS A) : Prop :=
  forall s, exists a s', m s = Ok a s' /\ stable (world s) (world s').

(** The collector adds to [objSet] as to a set. *)
Definition tidy (c : Collector) : Prop := NoDup (objSet c).

(** The key under which [getObjId] looks a value up in [objToId]. *)
Definition idKey (E : Collab) (w : World) (doc : loc) (obj : value) : value :=
  match obj with
  | VRef _ => normalizeObj E w doc (nullish (targetOf w obj) obj)
  | _ => normalizeObj E w doc obj
  end.

(** The mark that tells a proxy from its raw target. *)
Definition proxySuffix (w : World) (obj : value) : string :=
  if truthy (targetOf w obj) then "!" else EmptyString.

(** The element-id prefix does not begin like a base-36 number. *)
Definition prefixApart (E : Collab) : Prop :=
  match ELEMENT_ID_PREFIX E with
  | String c _ => digitValue c = None
  | EmptyString => False
  end.

(** A later state of a resume, as far as resolving ids goes: the parsed
    [objs] array has the same entries and the registry has kept what it
    had. *)
Definition keeps (objs : loc) (w w' : World) : Prop :=
  arrayItems w' objs = arrayItems w objs /\
  forall l p, mget l (proxyMap w) = Some p -> mget l (proxyMap w') = Some p.

(** The root in which [resumeContainer] looks for the snapshot script:
    the body when the container is the document element, else the
    container. *)
Definition parentOfJSON (w : World) (containerEl : loc) : loc :=
  let doc := getDocument w containerEl in
  if bool_decide (containerEl = documentElement (nodeAt w doc))
  then body (nodeAt w doc) else containerEl.




(** The references held in the slots of an array or of an object. *)
Definition refsIn (vs : list value) : list loc :=
  omap (fun v => match v with VRef l => Some l | _ => None end) vs.

Definition slotRefs (c : cell) : list loc :=
  match c with
  | CArray items => refsIn items
  | CObject fields => refsIn (map snd fields)
  | _ => []
  end.

Definition isProxyCell (c : cell) : bool :=
  match c with CProxy _ _ => true | _ => false end.



(** A node that is no element and has no entry of its own in [objs], as
    the writer meets it in the slot of a value. *)
Definition strayNode (E : Collab) (doc : loc) (objToId : list (value * N))
    (w : World) (l : loc) : Prop :=
  isNode w (VRef l) = true /\ nodeType (nodeAt w l) <> 1%Z /\
  mget (idKey E w doc (VRef l)) objToId = None.

Definition nodeError : logEntry :=
  LogError "Can not serialize a HTML Node that is not an Element".

(** How a run of the writer moves: the page changes as in [stable]; an
    element keeps the id it was given (or the [null] it was given); an
    element that had none yet and is not connected can only be given
    [null]; and a new id is the element-id prefix and a number. *)
Definition steady (E : Collab) (s s' : WS) : Prop :=
  stable (world s) (world s') /\
  (forall l x, mget l (elementToIndex s) = Some x -> mget l (elementToIndex s') = Some x) /\
  (forall l, mget l (elementToIndex s) = None ->
     mget l (elementToIndex s') = None \/ mget l (elementToIndex s') = Some None \/
     isConnected (nodeAt (world s) l) = true) /\
  (forall l id, mget l (elementToIndex s') = Some (Some id) ->
     mget l (elementToIndex s) = Some (Some id) \/
     exists n, id = ELEMENT_ID_PREFIX E +:+ intToStr n).

(** A step of the writer that moves the state in this way when it returns. *)
Definition careful {A : Type} (E : Collab) (m : M WS A) : Prop :=
  forall s a s', m s = Ok a s' -> steady E s s'.

(** A subscriber for which [getObjId] has no id in the state [s]: its
    key has no entry in [objToId], and if it is an element it has been
    given [null] or is not connected. *)
Definition noId (E : Collab) (doc : loc) (objToId : list (value * N)) (s : WS)
    (sub : value) : Prop :=
  mget (idKey E (world s) doc sub) objToId = None /\
  match sub with
  | VRef l =>
      isElement (world s) sub = true ->
      mget l (elementToIndex s) = Some None \/
      (mget l (elementToIndex s) = None /\ isConnected (nodeAt (world s) l) = false)
  | _ => True
  end.

(** No id handed out so far reads "undefined"; none is empty. *)
Definition idsApart (s : WS) : Prop :=
  forall l id, mget l (elementToIndex s) = Some (Some id) -> id <> "undefined".

Definition idsFilled (s : WS) : Prop :=
  forall l id, mget l (elementToIndex s) = Some (Some id) -> id <> EmptyString.

(** The watches kept on an element. *)
Definition watchesOf (w : World) (el : loc) : list value :=
  match tryGetContext w el with
  | Some ctx => ctx_watches ctx
  | None => []
  end.



Definition notNode (c : cell) : Prop :=
  match c with CNode _ => False | _ => True end.

End Aux.

(** ** Pages used as examples *)

Module Examples.
Import Text JS Eff Store.

(** The collaborators with the markers [q:id], [#] and [q:container], a
    closure text of the form chunk#symbol[ids], and a given [JSON.parse]. *)
Definition collab (asserts : bool) (parse : string -> option Parsed) : Collab :=
  mkCollab "q:id" "#" "q:container" true asserts (fun _ => true)
    (fun q ids =>
       qrl_chunk q +:+ "#" +:+ qrl_symbol q +:+
       match ids with
       | Some ids => "[" +:+ joinIds ids +:+ "]"
       | None => EmptyString
       end)
    (fun text => mkQrl text EmptyString None None)
    16 (fun _ _ => true) parse.

Definition element (tag : string) (attrs : list (string * string)) (kids : list loc)
    (connected : bool) (ctx : option QContext) : cell :=
  CNode (mkNode 1 tag attrs kids connected 0 EmptyString ctx 0 0).

Definition document : cell :=
  CNode (mkNode 9 "#document" [] [1] true 0 EmptyString None 1 2).

Definition onlyContexts (contexts : list (string * value)) : QContext :=
  mkQContext [] VUndefined VUndefined [] [] (Some contexts) None.


(** A page with a store: the DIV provides a plain object (5) and a
    proxied one (target 6, proxy 7).  The proxy has three subscribers:
    the first SPAN (4), a component with props, a render closure, a
    sequence entry and a watch; an element that is not connected (8); and
    the second SPAN (12), which has props and no render closure. *)
Definition pageStore : World :=
  mkWorld
    [ document;
      element "HTML" [("q:container", "paused")] [2] true None;
      element "BODY" [] [3; 4; 12] true None;
      element "DIV" [] [] true (Some (onlyContexts [("plain", VRef 5); ("store", VRef 7)]));
      element "SPAN" [] [] true
        (Some (mkQContext [] (VRef 7) (VRef 9) [VRef 10] [VRef 11] None None));
      CObject [("n", VNum 1)];
      CObject [("count", VNum 1)];
      CProxy 6 [(VRef 4, Some ["count"]); (VRef 8, None); (VRef 12, None)];
      element "DIV" [] [] false None;
      CQrl (mkQrl "chunk" "render" None None);
      CObject [("step", VNum 0)];
      CObject [("f", VNum 0)];
      element "SPAN" [] [] true
        (Some (mkQContext [] (VRef 5) VUndefined [] [] None None)) ]
    [(6, 7)] [] [] [].

(** A paused page to resume: the DIV has the element id 0; the snapshot
    holds one object, subscribed to by the element of id 5, which the page
    does not have. *)
Definition danglingSnapshot : Parsed :=
  mkParsed [] [JObj [("count", JNum 1)]] [Some [("#5", SubNull)]].

Definition pagePaused : World :=
  mkWorld
    [ document;
      element "HTML" [("q:container", "paused")] [2] true None;
      element "BODY" [] [3; 4] true None;
      element "DIV" [("q:id", "0")] [] true None;
      CNode (mkNode 1 "SCRIPT" [("type", "qwik/json")] [] true 0 "{}" None 0 0) ]
    [] [] [] [].

(** The same page without the snapshot script, and a page whose root is
    not marked as a container. *)
Definition pageNoScript : World :=
  mkWorld
    [ document;
      element "HTML" [("q:container", "paused")] [2] true None;
      element "BODY" [] [3] true None;
      element "DIV" [("q:id", "0")] [] true None ]
    [] [] [] [].

Definition pageUnmarked : World :=
  mkWorld
    [ document;
      element "HTML" [] [2] true None;
      element "BODY" [] [3; 4] true None;
      element "DIV" [("q:id", "0")] [] true None;
      CNode (mkNode 1 "SCRIPT" [("type", "qwik/json")] [] true 0 "{}" None 0 0) ]
    [] [] [] [].


(** A snapshot that gives the DIV of the paused page a sequence entry
    and host state. *)
Definition hostSnapshot : Parsed :=
  mkParsed [("#0", mkMeta None None (Some "0") (Some "0! 1") None)]
    [JObj [("count", JNum 1)]; JStr "chunk#render"] [].

(** A snapshot whose only element entry has host state of one id: what
    the writer emits for an element with props and no render closure. *)
Definition oneIdSnapshot : Parsed :=
  mkParsed [("#0", mkMeta None None None (Some "0") None)] [JObj [("count", JNum 1)]] [].

(** What the writer has at hand on the page with a store when it comes to
    the first SPAN. *)
Definition storeObjToId : list (value * N) :=
  [(VRef 6, 0%N); (VRef 5, 1%N); (VRef 9, 2%N); (VRef 10, 3%N); (VRef 11, 4%N)].

Definition storeCollector : Collector :=
  mkCollector [] [VRef 6; VRef 5; VRef 9; VRef 10; VRef 11] [4; 12] [].

Definition spanContext : QContext :=
  mkQContext [] (VRef 7) (VRef 9) [VRef 10] [VRef 11] None None.

(** A heap that holds a parsed object, the parsed [objs] array (the
    object and a closure text), and an element. *)
Definition pageParsedHost : World :=
  mkWorld [ CObject [("count", VNum 1)];
            CArray [VRef 0; VStr "chunk#render"];
            element "DIV" [("q:id", "0")] [] true None ]
    [] [] [] [].

(** A page with a nested container: the first DIV carries component
    state, the second is a container of its own with a SPAN that carries
    component state too. *)
Definition pageNested : World :=
  mkWorld
    [ document;
      element "HTML" [("q:container", "paused")] [2] true None;
      element "BODY" [] [3; 4] true None;
      element "DIV" [] [] true (Some (onlyContexts []));
      element "DIV" [("q:container", "paused")] [5] true None;
      element "SPAN" [] [] true (Some (onlyContexts [])) ]
    [] [] [] [].

(** A page whose DIV listens to two events, with two closures on the
    first. *)
Definition pageListeners : World :=
  mkWorld
    [ document;
      element "HTML" [("q:container", "paused")] [2] true None;
      element "BODY" [] [3] true None;
      element "DIV" [] [] true
        (Some (mkQContext [] VUndefined VUndefined [] [] None
                 (Some [("on:click", [VRef 4; VRef 5]); ("on:focus", [VRef 4])])));
      CQrl (mkQrl "chunk" "a" None None);
      CQrl (mkQrl "chunk" "b" None None) ]
    [] [] [] [].

(** A heap that holds, besides the document and the container, a parsed
    [objs] array with the three sentinels, a text and a number. *)
Definition pageSentinels : World :=
  mkWorld
    [ document;
      element "HTML" [("q:container", "paused")] [] true None;
      CArray [VStr UNDEFINED_PREFIX; VStr DOCUMENT_PREFIX; VStr (QRL_PREFIX +:+ "chunk#a");
              VStr "text"; VNum 7] ]
    [] [] [] [].





End Examples.

(** ** Frames: what a run of the writer or of the reader leaves alone *)

Module Inv.
Import Text JS Eff Store Aux.

(** A step of the writer that moves the state along the relation [R]
    whenever it returns. *)
Definition respects {A : Type} (R : WS -> WS -> Prop) (m : M WS A) : Prop :=
  forall s a s', m s = Ok a s' -> R s s'.

(** The events dispatched and every attribute other than the element-id
    attribute are as they were. *)
Definition tame (E : Collab) (s s' : WS) : Prop :=
  events (world s') = events (world s) /\
  forall l name, name <> ELEMENT_ID E ->
    getAttribute (world s') l name = getAttribute (world s) l name.

(** No watch has been destroyed in between. *)
Definition sparing (s s' : WS) : Prop :=
  destroyed (world s') = destroyed (world s).

(** The page differs from [w0] as in [stable], before and after. *)
Definition near (w0 : World) (s s' : WS) : Prop :=
  stable w0 (world s) -> stable w0 (world s').



(** Every id handed out so far is the element-id prefix and a number
    below the count of the elements met, the element carries that number
    in its element-id attribute and is connected, and no other element was
    given the same id. *)
Definition marked (E : Collab) (s : WS) : Prop :=
  forall el id, mget el (elementToIndex s) = Some (Some id) ->
    exists n, id = ELEMENT_ID_PREFIX E +:+ intToStr n /\
      (n < N.of_nat (length (elementToIndex s)))%N /\
      getAttribute (world s) el (ELEMENT_ID E) = Some (intToStr n) /\
      isConnected (nodeAt (world s) el) = true /\
      forall el', mget el' (elementToIndex s) = Some (Some id) -> el' = el.

(** The writer moves on: the elements met so far keep what they were
    given, and [marked] is kept. *)
Definition marking (E : Collab) (s s' : WS) : Prop :=
  (forall el x, mget el (elementToIndex s) = Some x -> mget el (elementToIndex s') = Some x) /\
  (marked E s -> marked E s').

(** The listeners kept on an element, as the pairs that a snapshot lists. *)
Definition listenersOf (w : World) (el : loc) : list SnapshotListener :=
  match tryGetContext w el with
  | Some ctx =>
      match ctx_listeners ctx with
      | Some ls => flat_map (fun entry => map (mkListener (fst entry)) (snd entry)) ls
      | None => []
      end
  | None => []
  end.

(** The nodes that the walk from [parent] reaches: the children that are
    no containers, and what is in scope below them. *)
Inductive inScope (E : Collab) (w : World) : loc -> loc -> Prop :=
| scope_child parent child :
    child ∈ children (nodeAt w parent) -> isContainer E w child = false ->
    inScope E w parent child
| scope_below parent child n :
    child ∈ children (nodeAt w parent) -> isContainer E w child = false ->
    inScope E w child n -> inScope E w parent n.

(** The element is a key of the subscriber map of some proxy. *)
Definition subscribing (w : World) (el : loc) : Prop :=
  exists p subs, subsOf w p = Some subs /\ VRef el ∈ map fst subs.


(** A step of the writer that returns, whatever the state. *)
Definition returns {A : Type} (m : M WS A) : Prop :=
  forall s, exists a s', m s = Ok a s'.

(** A step of the reader that moves the page along the relation [R]
    whenever it returns. *)
Definition abides {A : Type} (R : World -> World -> Prop) (m : M World A) : Prop :=
  forall w a w', m w = Ok a w' -> R w w'.

(** Two states of the page between which no event was dispatched, every
    node is still a node, and the nodes differ at most in the component state
    they carry (what is no node has not become one). *)
Definition settled (w w' : World) : Prop :=
  events w' = events w /\
  (forall l, isNode w (VRef l) = true -> isNode w' (VRef l) = true) /\
  forall l, exists c, nodeAt w' l = withContext (nodeAt w l) c.

(** What [reviveValues] leaves at an index of the parsed array that held
    [v]: the three sentinels become [undefined], the document and a parsed
    closure; every other value stays. *)
Definition revivedAs (E : Collab) (doc : loc) (w' : World) (v : value)
    (r : option value) : Prop :=
  match v with
  | VStr t =>
      if String.eqb t UNDEFINED_PREFIX then r = Some VUndefined
      else if String.eqb t DOCUMENT_PREFIX then r = Some (VRef doc)
      else if startsWith t QRL_PREFIX then
        exists l, r = Some (VRef l) /\
          cellAt w' l = Some (CQrl (parseQRL E (String.substring 1 (String.length t - 1) t)))
      else r = Some v
  | _ => r = Some v
  end.

(** The registry maps a target to a proxy of that target. *)
Definition registered (w : World) : Prop :=
  forall t p, mget t (proxyMap w) = Some p -> exists subs, cellAt w p = Some (CProxy t subs).

(** The parsed array [objs] during a resume: it is an array to which no
    slot of any object refers, and the objects among its entries are objects
    of the heap that are no proxies, each at one index only. *)
Definition private (objs : loc) (w : World) : Prop :=
  (exists items, cellAt w objs = Some (CArray items)) /\
  (forall l c, cellAt w l = Some c -> objs ∉ slotRefs c) /\
  registered w /\
  (forall i l, arrayItems w objs !! i = Some (VRef l) ->
     (exists c, cellAt w l = Some c /\ isProxyCell c = false) /\
     forall j, arrayItems w objs !! j = Some (VRef l) -> i = j).


(** The invariant of a resume once the snapshot is parsed: [objs] is
    private, and the elements that have an id are nodes. *)
Definition resuming (elements : list (string * loc)) (objs : loc) (w : World) : Prop :=
  private objs w /\
  forall k el, mget k elements = Some el -> isNode w (VRef el) = true.

(** A step of a resume that keeps the invariant and the entries of [objs]. *)
Definition mayResume (elements : list (string * loc)) (objs : loc) (w w' : World) : Prop :=
  resuming elements objs w ->
  resuming elements objs w' /\ arrayItems w' objs = arrayItems w objs.






End Inv.

(** * Properties *)

(** ** Escaping of the embedded snapshot text *)

Section TextFacts.
Import Text Aux.

Lemma strip_prefix_length p s r : strip_prefix p s = Some r -> String.length s = String.length p + String.length r.
Proof.
  revert s; induction p as [|a p IH]; intros s H; simpl in *.
  - congruence.
  - destruct s as [|b s]; [discriminate|]. destruct (Ascii.eqb a b); [|discriminate].
    simpl. rewrite (IH _ H). reflexivity.
Qed.

Lemma append_cons a p r : String a p +:+ r = String a (p +:+ r).
Proof. reflexivity. Qed.

Lemma append_nil r : "" +:+ r = r.
Proof. reflexivity. Qed.

Lemma strip_prefix_cons a p b s :
  strip_prefix (String a p) (String b s) = if Ascii.eqb a b then strip_prefix p s else None.
Proof. reflexivity. Qed.

Lemma strip_prefix_app p s r : strip_prefix p s = Some r -> s = p +:+ r.
Proof.
  revert s; induction p as [|a p IH]; intros s H; simpl in *.
  - injection H as ->. reflexivity.
  - destruct s as [|b s]; [discriminate|]. destruct (Ascii.eqb_spec a b); [|discriminate].
    subst. rewrite append_cons. f_equal. apply IH. exact H.
Qed.

Lemma strip_prefix_self p r : strip_prefix p (p +:+ r) = Some r.
Proof. induction p as [|a p IH]; [reflexivity|]. rewrite append_cons. cbn. rewrite Ascii.eqb_refl. exact IH. Qed.

Lemma match_script_shorter lead s g rest :
  match_script lead s = Some (g, rest) -> String.length rest < String.length s.
Proof.
  unfold match_script. destruct (strip_prefix lead s) as [r|] eqn:E; [|discriminate].
  apply strip_prefix_length in E.
  destruct (strip_prefix "/script" r) eqn:E1.
  - intros [= <- <-]. apply strip_prefix_length in E1. simpl in E1. lia.
  - destruct (strip_prefix "script" r) eqn:E2; [|discriminate].
    intros [= <- <-]. apply strip_prefix_length in E2. simpl in E2. lia.
Qed.

Section Replace.
Variable matchAt : string -> option (string * string).
Hypothesis consumes : forall s rep rest, matchAt s = Some (rep, rest) -> String.length rest < String.length s.

Lemma replace_global_fuel_enough fuel1 fuel2 s :
  String.length s < fuel1 -> String.length s < fuel2 ->
  replace_global_fuel matchAt fuel1 s = replace_global_fuel matchAt fuel2 s.
Proof.
  revert fuel2 s. induction fuel1 as [|f1 IH]; intros fuel2 s H1 H2; [lia|].
  destruct fuel2 as [|f2]; [lia|]. simpl.
  destruct (matchAt s) as [[rep rest]|] eqn:E.
  - apply consumes in E. f_equal. apply IH; lia.
  - destruct s as [|c r]; [reflexivity|]. simpl in *. f_equal. apply IH; lia.
Qed.

Lemma replace_global_fuel_eq fuel s :
  String.length s < fuel -> replace_global_fuel matchAt fuel s = replace_global matchAt s.
Proof. intros H. apply replace_global_fuel_enough; [exact H | lia]. Qed.

Lemma replace_global_match s rep rest :
  matchAt s = Some (rep, rest) -> replace_global matchAt s = rep +:+ replace_global matchAt rest.
Proof.
  intros E. change (replace_global matchAt s) with (replace_global_fuel matchAt (S (String.length s)) s).
  cbn [replace_global_fuel]. rewrite E. f_equal.
  apply consumes in E. apply replace_global_fuel_eq. exact E.
Qed.

Lemma replace_global_copy c r :
  matchAt (String c r) = None -> replace_global matchAt (String c r) = String c (replace_global matchAt r).
Proof.
  intros E. change (replace_global matchAt (String c r))
    with (replace_global_fuel matchAt (S (String.length (String c r))) (String c r)).
  cbn [replace_global_fuel]. rewrite E. reflexivity.
Qed.

Lemma replace_global_empty : matchAt EmptyString = None -> replace_global matchAt EmptyString = EmptyString.
Proof. intros E. unfold replace_global. simpl. rewrite E. reflexivity. Qed.
End Replace.

Lemma escape_at_consumes s rep rest : escape_at s = Some (rep, rest) -> String.length rest < String.length s.
Proof.
  unfold escape_at. destruct (match_script "<" s) as [[g r]|] eqn:E; [|discriminate].
  intros [= _ <-]. eapply match_script_shorter, E.
Qed.

Lemma unescape_at_consumes s rep rest : unescape_at s = Some (rep, rest) -> String.length rest < String.length s.
Proof.
  unfold unescape_at. destruct (match_script x3C s) as [[g r]|] eqn:E; [|discriminate].
  intros [= _ <-]. eapply match_script_shorter, E.
Qed.

Lemma occurs_tail p c s : occurs p (String c s) = false -> occurs p s = false.
Proof. cbn [occurs]. destruct (strip_prefix p (String c s)); [discriminate | auto]. Qed.

Lemma occurs_head p s : occurs p s = false -> strip_prefix p s = None.
Proof. destruct s; cbn [occurs]; destruct (strip_prefix p _); auto; discriminate. Qed.

Lemma occurs_suffix p q s : occurs p (q +:+ s) = false -> occurs p s = false.
Proof.
  induction q as [|c q IH]; [auto|]. rewrite append_cons. intros H. apply IH. eapply occurs_tail, H.
Qed.

Lemma strip_prefix_append p g s r rest :
  strip_prefix p s = Some r -> strip_prefix g r = Some rest -> strip_prefix (p +:+ g) s = Some rest.
Proof.
  intros H1 H2. apply strip_prefix_app in H1, H2. subst.
  rewrite <- (strip_prefix_self (p +:+ g) rest). f_equal.
  induction p as [|a p IH]; [reflexivity|]. rewrite !append_cons. f_equal. exact IH.
Qed.

Lemma match_script_inv lead s g rest :
  match_script lead s = Some (g, rest) ->
  (g = "/script" \/ g = "script") /\ strip_prefix (lead +:+ g) s = Some rest.
Proof.
  unfold match_script. destruct (strip_prefix lead s) as [r|] eqn:E; [|discriminate].
  destruct (strip_prefix "/script" r) eqn:E1.
  - intros [= <- <-]. split; [auto|]. eapply strip_prefix_append; eauto.
  - destruct (strip_prefix "script" r) eqn:E2; [|discriminate].
    intros [= <- <-]. split; [auto|]. eapply strip_prefix_append; eauto.
Qed.

Lemma escapeText_match s g rest :
  match_script "<" s = Some (g, rest) -> escapeText s = (x3C +:+ g) +:+ escapeText rest.
Proof.
  intros H. unfold escapeText. apply (replace_global_match _ escape_at_consumes).
  unfold escape_at. rewrite H. reflexivity.
Qed.

Lemma escapeText_copy c r :
  match_script "<" (String c r) = None -> escapeText (String c r) = String c (escapeText r).
Proof.
  intros H. unfold escapeText. apply replace_global_copy. unfold escape_at. rewrite H. reflexivity.
Qed.

Lemma escapeText_prefix p : lacks "\" p = true ->
  forall r q, strip_prefix p (escapeText r) = Some q -> exists r', strip_prefix p r = Some r'.
Proof.
  induction p as [|a p IH]; intros Hp r q H.
  - eexists; reflexivity.
  - cbn [lacks] in Hp. apply andb_true_iff in Hp as [Ha Hp]. apply negb_true_iff in Ha. rewrite Ascii.eqb_sym in Ha.
    destruct (match_script "<" r) as [[g rest]|] eqn:E.
    + rewrite (escapeText_match _ _ _ E) in H. unfold x3C in H.
      rewrite !append_cons in H. cbn [strip_prefix] in H.
      destruct (Ascii.eqb a "\"); [discriminate Ha | discriminate H].
    + destruct r as [|c r].
      * discriminate.
      * rewrite (escapeText_copy _ _ E) in H. cbn [strip_prefix] in *.
        destruct (Ascii.eqb a c); [|discriminate]. eapply IH; eauto.
Qed.

(** C2 (amended).  For every string in which no escaped script tag already
    occurs (neither backslash-x3C-script nor backslash-x3C-slash-script),
    whatever occurrences of a script tag it has, in any case and spacing,
    un-escaping the escaped text gives the string back. *)
Theorem escape_roundtrip s : free_of_escaped s -> unescapeText (escapeText s) = s.
Proof.
  remember (String.length s) as n eqn:Hn. revert s Hn.
  induction n as [n IH] using lt_wf_ind. intros s Hn [F1 F2].
  destruct (match_script "<" s) as [[g rest]|] eqn:E.
  - rewrite (escapeText_match _ _ _ E).
    pose proof (match_script_shorter _ _ _ _ E) as Hlen.
    apply match_script_inv in E as [Hg Hs].
    apply strip_prefix_app in Hs.
    assert (Hr : unescapeText (escapeText rest) = rest).
    { apply (IH (String.length rest)); [lia | reflexivity |]. subst s.
      split; eapply occurs_suffix; eauto. }
    assert (Hm : unescape_at ((x3C +:+ g) +:+ escapeText rest) = Some ("<" +:+ g, escapeText rest)).
    { destruct Hg; subst g; unfold unescape_at, match_script, x3C;
        rewrite !append_cons, !append_nil; cbn [strip_prefix Ascii.eqb Bool.eqb]; reflexivity. }
    unfold unescapeText at 1.
    rewrite (replace_global_match _ unescape_at_consumes _ _ _ Hm).
    fold (unescapeText (escapeText rest)). rewrite Hr. symmetry. exact Hs.
  - destruct s as [|c r]; [reflexivity|].
    rewrite (escapeText_copy _ _ E).
    assert (Hr : unescapeText (escapeText r) = r).
    { apply (IH (String.length r)); [subst n; simpl; lia | reflexivity |].
      split; eapply occurs_tail; eauto. }
    assert (Hm : unescape_at (String c (escapeText r)) = None).
    { unfold unescape_at.
      destruct (match_script x3C (String c (escapeText r))) as [[g rest]|] eqn:M; [exfalso|reflexivity].
      apply match_script_inv in M as [Hg M].
      assert (Hp : exists r', strip_prefix (x3C +:+ g) (String c r) = Some r').
      { destruct Hg; subst g; unfold x3C in M |- *;
          rewrite !append_cons, !append_nil in M; rewrite !append_cons, !append_nil;
          rewrite strip_prefix_cons in M; rewrite strip_prefix_cons;
          (destruct (Ascii.eqb "\" c); [|discriminate]);
          (eapply escapeText_prefix; [|exact M]); reflexivity. }
      destruct Hp as [r' Hp]. apply occurs_head in F1, F2.
      destruct Hg; subst g; congruence. }
    unfold unescapeText at 1. rewrite (replace_global_copy _ _ _ Hm).
    fold (unescapeText (escapeText r)). rewrite Hr. reflexivity.
Qed.

(** The round trip on a text with script tags in several spellings. *)
Lemma escape_roundtrip_witness :
  free_of_escaped "a<script>x</script><SCRIPT>< script>" /\
  unescapeText (escapeText "a<script>x</script><SCRIPT>< script>") = "a<script>x</script><SCRIPT>< script>".
Proof. split; [split; reflexivity | apply escape_roundtrip; split; reflexivity]. Defined.

(** C2 as stated fails: a text that already holds the escaped form of a
    script tag is left alone by [escapeText] and altered by [unescapeText]. *)
Lemma escape_roundtrip_fails : ~ (forall s, unescapeText (escapeText s) = s).
Proof. intros H. specialize (H "\x3Cscript"). vm_compute in H. discriminate H. Qed.

End TextFacts.

Import Text JS Eff Store Aux Examples.
Local Open Scope eff_scope.

(** ** Effects *)

Section EffFacts.
Context {S : Type}.

Lemma bind_Ok {A B} (m : M S A) (k : A -> M S B) s b s' :
  bind m k s = Ok b s' -> exists a s1, m s = Ok a s1 /\ k a s1 = Ok b s'.
Proof. unfold bind. destruct (m s) as [a s1| |]; [eauto | discriminate | discriminate]. Qed.

Lemma traverse_length {A B} (f : A -> M S B) l s r s' :
  traverse f l s = Ok r s' -> length r = length l.
Proof.
  revert s r. induction l as [|x l IH]; intros s r H; cbn in H.
  - injection H as <- _. reflexivity.
  - apply bind_Ok in H as (y & s1 & _ & H). apply bind_Ok in H as (ys & s2 & H & E).
    injection E as <- <-. cbn. f_equal. eauto.
Qed.

(** Every entry of the result of [array.map(f)] is what the callback
    returned on the entry of the same index, in the state of its turn. *)
Lemma traverse_lookup {A B} (f : A -> M S B) l s r s' :
  traverse f l s = Ok r s' ->
  forall i x, l !! i = Some x -> exists y si si', r !! i = Some y /\ f x si = Ok y si'.
Proof.
  revert s r. induction l as [|x l IH]; intros s r H i z Hi; [discriminate|].
  cbn in H. apply bind_Ok in H as (y & s1 & Hy & H). apply bind_Ok in H as (ys & s2 & H & E).
  injection E as <- <-. destruct i as [|i]; cbn in *.
  - injection Hi as <-. eauto.
  - eapply IH; eauto.
Qed.
End EffFacts.

Ltac inv_bind H :=
  let a := fresh "a" in let s := fresh "s" in let H1 := fresh H in
  apply bind_Ok in H as (a & s & H1 & H).

(** ** The order of the written values *)

Section SortFacts.
Context {A : Type} (p : A -> bool).

Lemma insertBy_flagged x l : p x = true -> insertBy (byFlag p) x l = x :: l.
Proof.
  intros Hx. destruct l as [|y l]; [reflexivity|]. cbn. unfold byFlag. rewrite Hx.
  destruct (p y); reflexivity.
Qed.

Lemma insertBy_unflagged x l1 l2 :
  p x = false -> forallb p l1 = true ->
  forallb (fun y => negb (p y)) l2 = true ->
  insertBy (byFlag p) x (l1 ++ l2) = l1 ++ x :: l2.
Proof.
  intros Hx H1 H2. induction l1 as [|y l1 IH]; cbn in *.
  - destruct l2 as [|y l2]; [reflexivity|]. cbn in *. unfold byFlag. rewrite Hx.
    apply andb_true_iff in H2 as [Hy _]. apply negb_true_iff in Hy. rewrite Hy. reflexivity.
  - apply andb_true_iff in H1 as [Hy H1]. unfold byFlag at 1. rewrite Hx, Hy. cbn.
    f_equal. auto.
Qed.

Lemma forallb_filter (q : A -> bool) l : forallb q (List.filter q l) = true.
Proof. induction l as [|x l IH]; cbn; [reflexivity|]. destruct (q x) eqn:E; cbn; [rewrite E|]; auto. Qed.

(** A stable sort on a two-valued key is a stable partition. *)
Lemma sortBy_partition l :
  sortBy (byFlag p) l = List.filter p l ++ List.filter (fun y => negb (p y)) l.
Proof.
  induction l as [|x l IH]; [reflexivity|]. cbn. rewrite IH. destruct (p x) eqn:Hx; cbn.
  - apply insertBy_flagged. exact Hx.
  - apply insertBy_unflagged; auto using forallb_filter.
Qed.

Lemma partition_order l1 l2 i j a b :
  forallb p l1 = true -> forallb (fun y => negb (p y)) l2 = true ->
  (l1 ++ l2) !! i = Some a -> (l1 ++ l2) !! j = Some b ->
  p a = true -> p b = false -> i < j.
Proof.
  intros H1 H2 Hi Hj Ha Hb.
  rewrite forallb_forall in H1, H2.
  destruct (lookup_app_Some l1 l2 i a) as [[Hi'|[Hl Hi']] _]; [exact Hi| |].
  - destruct (lookup_app_Some l1 l2 j b) as [[Hj'|[Hl Hj']] _]; [exact Hj| |].
    + apply list_elem_of_lookup_2, list_elem_of_In, H1 in Hj'. congruence.
    + apply lookup_lt_Some in Hi'. lia.
  - apply list_elem_of_lookup_2, list_elem_of_In, H2 in Hi'. rewrite Ha in Hi'. discriminate.
Qed.
End SortFacts.

Section OrderFacts.
Variable E : Collab.

Lemma hasSubscriptions_undefined w : hasSubscriptions w VUndefined = false.
Proof. reflexivity. Qed.

Lemma jsSort_partition w l :
  exists l1 l2, jsSort (compareSubscribed w) l = l1 ++ l2 /\
    forallb (hasSubscriptions w) l1 = true /\
    forallb (fun y => negb (hasSubscriptions w y)) l2 = true.
Proof.
  unfold jsSort.
  change (compareSubscribed w) with (byFlag (hasSubscriptions w)).
  rewrite sortBy_partition, <- app_assoc.
  eexists _, _. split; [reflexivity|]. split; [apply forallb_filter|].
  rewrite forallb_app. apply andb_true_iff. split.
  - apply (forallb_filter (fun y => negb (hasSubscriptions w y))).
  - apply forallb_forall. intros x Hx. apply filter_In in Hx as [_ Hx].
    apply bool_decide_eq_true in Hx. subst x. reflexivity.
Qed.

Lemma writeSnapshot_objs doc objToId collector elements objs s r s' :
  writeSnapshot E doc objToId collector elements objs s = Ok r s' ->
  result_objs r = objs /\ length (state_objs (result_state r)) = length objs.
Proof.
  unfold writeSnapshot. intros H.
  inv_bind H. inv_bind H. inv_bind H. inv_bind H. inv_bind H.
  injection H as <- _. cbn. split; [reflexivity|]. eapply traverse_length; eauto.
Qed.

Lemma snapshotState_inv fuel containerEl w r w' :
  snapshotState E fuel containerEl w = Ok r w' ->
  exists elements collector s',
    getNodesInScope E fuel w containerEl (hasContext w) = Some elements /\
    foldOpt (collectNode E fuel w (getDocument w containerEl)) elements createCollector = Some collector /\
    writeSnapshot E (getDocument w containerEl)
      (makeObjToId (jsSort (compareSubscribed w) (objSet collector))) collector elements
      (jsSort (compareSubscribed w) (objSet collector)) (mkWS w []) = Ok r s' /\
    w' = world s'.
Proof.
  unfold snapshotState. cbv zeta. intros H.
  destruct (getNodesInScope _ _ _ _ _) as [elements|] eqn:N; [|discriminate].
  destruct (foldOpt _ _ _) as [collector|] eqn:C; [|discriminate].
  destruct (writeSnapshot _ _ _ _ _ _ _) as [r0 s0| |] eqn:W; try discriminate.
  injection H as <- <-. exists elements, collector, s0. auto.
Qed.

(** C4.  In the values written by [snapshotState] (the written [objs]
    has one entry per value of [result_objs], in the same order), a value
    with a non-empty subscriber map in the proxy registry comes before
    every value without one. *)
Theorem subscribed_first fuel containerEl w r w' :
  snapshotState E fuel containerEl w = Ok r w' ->
  length (state_objs (result_state r)) = length (result_objs r) /\
  forall i j a b,
    result_objs r !! i = Some a -> result_objs r !! j = Some b ->
    hasSubscriptions w a = true -> hasSubscriptions w b = false -> i < j.
Proof.
  intros H. apply snapshotState_inv in H as (elements & collector & s' & _ & _ & H & _).
  apply writeSnapshot_objs in H as [-> ->]. split; [reflexivity|].
  destruct (jsSort_partition w (objSet collector)) as (l1 & l2 & -> & H1 & H2).
  intros i j a b. apply partition_order; assumption.
Qed.
End OrderFacts.

(** On the page with a store, the subscribed target (the object 6) is
    written before the plain object 5. *)
Lemma subscribed_first_witness :
  exists r w',
    snapshotState (collab true (fun _ => None)) 10 1 pageStore = Ok r w' /\
    result_objs r !! 0 = Some (VRef 6) /\ result_objs r !! 1 = Some (VRef 5) /\
    hasSubscriptions pageStore (VRef 6) = true /\
    hasSubscriptions pageStore (VRef 5) = false /\
    length (state_objs (result_state r)) = length (result_objs r) /\
    0 < 1.
Proof.
  eexists _, _.
  match goal with
  | |- ?L = ?R /\ _ => assert (H : L = R) by (vm_compute; reflexivity)
  end.
  split; [exact H|].
  split; [reflexivity|]. split; [reflexivity|].
  split; [reflexivity|]. split; [reflexivity|].
  pose proof (subscribed_first (collab true (fun _ => None)) 10 1 pageStore _ _ H) as [Hl Ho].
  split; [exact Hl|].
  exact (Ho 0 1 (VRef 6) (VRef 5) eq_refl eq_refl eq_refl eq_refl).
Defined.

(** ** What handing out ids leaves alone *)

Section StableFacts.

Lemma stable_refl w : stable w w.
Proof. split; reflexivity. Qed.

Lemma stable_trans w1 w2 w3 : stable w1 w2 -> stable w2 w3 -> stable w1 w3.
Proof. intros [P1 C1] [P2 C2]. split; [congruence|]. intros l. rewrite C2. apply C1. Qed.

Lemma stable_addLog e w : stable w (addLog e w).
Proof. split; reflexivity. Qed.

Lemma stable_destroyWatch v w : stable w (destroyWatch v w).
Proof. split; reflexivity. Qed.

Lemma stable_setAttribute el name val w : stable w (setAttribute el name val w).
Proof.
  split.
  - unfold setAttribute, setNode. destruct (cellAt w el) as [[| | |n|]|]; reflexivity.
  - intros l. unfold setAttribute, setNode, nodeAt.
    destruct (cellAt w el) as [[| | |n|]|] eqn:Hc; try reflexivity.
    unfold cellAt, store in *. cbn.
    destruct (decide (l = el)) as [->|Hne].
    + rewrite Hc, list_lookup_insert_eq by (eapply lookup_lt_Some; eauto).
      reflexivity.
    + rewrite list_lookup_insert_ne by congruence. reflexivity.
Qed.

Lemma plainCell_proxy c c' t s :
  plainCell c' = plainCell c -> c = Some (CProxy t s) -> c' = Some (CProxy t s).
Proof. intros H ->. destruct c' as [[| | |n|]|]; cbn in H; congruence. Qed.

Lemma stable_sym w w' : stable w w' -> proxyMap w = proxyMap w' /\ forall l, plainCell (cellAt w l) = plainCell (cellAt w' l).
Proof. intros [P C]. split; [congruence | intros l; symmetry; apply C]. Qed.

Lemma stable_subsOf w w' l : stable w w' -> subsOf w' l = subsOf w l.
Proof.
  intros [_ H]. specialize (H l). unfold subsOf.
  destruct (cellAt w l) as [[| | |n|]|], (cellAt w' l) as [[| | |n'|]|]; cbn in H; congruence.
Qed.

Lemma stable_targetOf w w' v : stable w w' -> targetOf w' v = targetOf w v.
Proof.
  intros [_ H]. destruct v; try reflexivity. specialize (H l). cbn.
  destruct (cellAt w l) as [[| | |n|]|], (cellAt w' l) as [[| | |n'|]|]; cbn in H; congruence.
Qed.

Lemma stable_registeredSubs w w' v : stable w w' -> registeredSubs w' v = registeredSubs w v.
Proof.
  intros H. unfold registeredSubs, proxyFor. destruct v; try reflexivity.
  destruct H as [HP H']. rewrite HP. destruct (mget l (proxyMap w)); [|reflexivity].
  apply stable_subsOf. split; auto.
Qed.

Lemma stable_hasSubscriptions w w' v : stable w w' -> hasSubscriptions w' v = hasSubscriptions w v.
Proof. intros H. unfold hasSubscriptions. rewrite (stable_registeredSubs _ _ _ H). reflexivity. Qed.

Lemma stable_node w w' l :
  stable w w' -> withAttributes (nodeAt w' l) [] = withAttributes (nodeAt w l) [].
Proof.
  intros [_ H]. specialize (H l). unfold nodeAt.
  destruct (cellAt w l) as [[| | |n|]|], (cellAt w' l) as [[| | |n'|]|]; cbn in H; congruence.
Qed.

Lemma stable_isConnected w w' l : stable w w' -> isConnected (nodeAt w' l) = isConnected (nodeAt w l).
Proof. intros H. apply stable_node with (l := l) in H. apply (f_equal isConnected) in H. exact H. Qed.

Lemma stable_nodeType w w' l : stable w w' -> nodeType (nodeAt w' l) = nodeType (nodeAt w l).
Proof. intros H. apply stable_node with (l := l) in H. apply (f_equal nodeType) in H. exact H. Qed.

Lemma stable_isNode w w' v : stable w w' -> isNode w' v = isNode w v.
Proof.
  intros [_ H]. destruct v; try reflexivity. specialize (H l). cbn.
  destruct (cellAt w l) as [[| | |n|]|], (cellAt w' l) as [[| | |n'|]|]; cbn in H; congruence.
Qed.

Section WithCollab.
Variable E : Collab.

Lemma stable_normalizeObj w w' doc v : stable w w' -> normalizeObj E w' doc v = normalizeObj E w doc v.
Proof.
  intros H. unfold normalizeObj. rewrite (stable_targetOf _ _ _ H). reflexivity.
Qed.

Section Closures.
Variable doc : loc.
Variable objToId : list (value * N).

Lemma gentle_ret {A} (a : A) : gentle (ret a).
Proof. intros s. exists a, s. split; [reflexivity | apply stable_refl]. Qed.

Lemma gentle_bind {A B} (m : M WS A) (k : A -> M WS B) :
  gentle m -> (forall a, gentle (k a)) -> gentle (bind m k).
Proof.
  intros Hm Hk s. destruct (Hm s) as (a & s1 & E1 & S1).
  destruct (Hk a s1) as (b & s2 & E2 & S2).
  exists b, s2. unfold bind. rewrite E1. split; [exact E2 | eapply stable_trans; eauto].
Qed.

Lemma gentle_traverse {A B} (f : A -> M WS B) l : (forall x, gentle (f x)) -> gentle (traverse f l).
Proof.
  intros Hf. induction l as [|x l IH]; cbn.
  - apply gentle_ret.
  - apply gentle_bind; [apply Hf|]. intros y. apply gentle_bind; [exact IH|]. intros ys. apply gentle_ret.
Qed.

Lemma gentle_foldM {A B} (f : B -> A -> M WS B) l b : (forall b x, gentle (f b x)) -> gentle (foldM f l b).
Proof.
  intros Hf. revert b. induction l as [|x l IH]; intros b; cbn.
  - apply gentle_ret.
  - apply gentle_bind; [apply Hf|]. intros y. apply IH.
Qed.


Lemma gentle_get : gentle (@get WS).
Proof. intros s. exists s, s. split; [reflexivity | apply stable_refl]. Qed.

Lemma gentle_logW e : gentle (logW e).
Proof. intros s. eexists tt, _. split; [reflexivity | apply stable_addLog]. Qed.

Lemma gentle_getElementID el : gentle (getElementID E el).
Proof.
  intros s. unfold getElementID, bind, get.
  destruct (mget el (elementToIndex s)) as [id|].
  - eexists _, _. split; [reflexivity | apply stable_refl].
  - destruct (isConnected (nodeAt (world s) el)); cbn.
    + eexists _, _. split; [reflexivity | apply stable_setAttribute].
    + eexists _, _. split; [reflexivity | apply stable_refl].
Qed.

Lemma gentle_getObjId obj : gentle (getObjId E doc objToId obj).
Proof.
  unfold getObjId. apply gentle_bind; [apply gentle_get|]. intros s.
  destruct obj; try (destruct (mget _ objToId); apply gentle_ret).
  destruct (mget _ objToId); [apply gentle_ret|].
  destruct (_ && _); [|apply gentle_ret].
  destruct (_ =? _)%Z; [apply gentle_getElementID|].
  apply gentle_bind; [apply gentle_logW | intros; apply gentle_ret].
Qed.

Lemma gentle_subsEntry entry : gentle (subsEntry E doc objToId entry).
Proof.
  unfold subsEntry. apply gentle_bind; [apply gentle_getObjId|]. intros [id|]; apply gentle_ret.
Qed.

Lemma gentle_subsFor obj : gentle (subsFor E doc objToId obj).
Proof.
  unfold subsFor. apply gentle_bind; [apply gentle_get|]. intros s.
  destruct (registeredSubs _ _) as [subs|]; [|apply gentle_ret].
  destruct (_ <? _)%nat; [|apply gentle_ret].
  apply gentle_bind; [apply gentle_traverse, gentle_subsEntry | intros; apply gentle_ret].
Qed.

Lemma gentle_serialize v : gentle (serialize E doc objToId v).
Proof. unfold serialize. apply gentle_bind; [apply gentle_getObjId | intros; apply gentle_ret]. Qed.

Lemma gentle_stringifyQRL q : gentle (stringifyQRL E doc objToId q).
Proof.
  unfold stringifyQRL. destruct (qrl_captureRef q); [|apply gentle_ret].
  apply gentle_bind; [apply gentle_traverse, gentle_getObjId | intros; apply gentle_ret].
Qed.

(** Building [convertedObjs] never throws and never runs out of steps. *)
Lemma gentle_convert obj : gentle (convert E doc objToId obj).
Proof.
  unfold convert. apply gentle_bind; [apply gentle_get|]. intros s.
  destruct obj; try apply gentle_ret.
  destruct (isArray _ _).
  - apply gentle_bind; [apply gentle_traverse, gentle_serialize | intros; apply gentle_ret].
  - assert (G : gentle (output <- foldM (fun output entry => v <- serialize E doc objToId (snd entry) ;; ret (oset (fst entry) v output)) (ownEntries (world s) l) [] ;; ret (OutObject output))).
    { apply gentle_bind; [|intros; apply gentle_ret]. apply gentle_foldM. intros b x.
      apply gentle_bind; [apply gentle_serialize | intros; apply gentle_ret]. }
    destruct (cellAt (world s) l) as [[| |q| |]|]; try exact G.
    apply gentle_bind; [apply gentle_stringifyQRL | intros; apply gentle_ret].
Qed.

End Closures.
End WithCollab.
End StableFacts.

Import Examples.

(** ** The subscriber maps next to the values *)

Section SubsFacts.
Variable E : Collab.

Lemma traverse_gentle_lookup {A B} (f : A -> M WS B) l s r s' :
  (forall x, gentle (f x)) -> traverse f l s = Ok r s' ->
  forall i x, l !! i = Some x ->
    exists y si si', r !! i = Some y /\ f x si = Ok y si' /\ stable (world s) (world si).
Proof.
  intros Hf. revert s r. induction l as [|x l IH]; intros s r H i z Hi; [discriminate|].
  cbn in H. inv_bind H. inv_bind H. injection H as <- <-.
  destruct i as [|i]; cbn in Hi.
  - injection Hi as <-. exists a, s, s0. split; [reflexivity|]. split; [assumption | apply stable_refl].
  - destruct (IH _ _ H1 i z Hi) as (y & si & si' & Hy & Hfx & St).
    exists y, si, si'. split; [exact Hy|]. split; [exact Hfx|].
    destruct (Hf x s) as (a' & s' & E' & St'). rewrite H0 in E'. injection E' as <- <-.
    eapply stable_trans; eauto.
Qed.

Lemma subsFor_some doc objToId obj s y s' :
  subsFor E doc objToId obj s = Ok y s' ->
  (match y with Some _ => true | None => false end) = hasSubscriptions (world s) obj.
Proof.
  unfold subsFor, hasSubscriptions, bind, get.
  destruct (registeredSubs (world s) obj) as [subs|]; [|intros [= <- _]; reflexivity].
  destruct (0 <? length subs)%nat; [|intros [= <- _]; reflexivity].
  destruct (traverse _ _ _); [|discriminate..]. intros [= <- _]. reflexivity.
Qed.

(** Dropping the entries that fail a test, when those that pass it come first. *)
Lemma filter_prefix {B} (q : B -> bool) (raw : list B) k :
  (forall i y, raw !! i = Some y -> q y = bool_decide (i < k)) ->
  List.filter q raw = take k raw.
Proof.
  revert k. induction raw as [|y raw IH]; intros k H.
  - destruct k; reflexivity.
  - cbn [List.filter]. rewrite (H 0 y eq_refl). destruct k as [|k].
    + rewrite bool_decide_eq_false_2 by lia. rewrite (IH 0); [reflexivity|].
      intros i z Hi. rewrite (H (S i) z Hi). rewrite !bool_decide_eq_false_2 by lia. reflexivity.
    + rewrite bool_decide_eq_true_2 by lia. cbn. f_equal. apply IH.
      intros i z Hi. rewrite (H (S i) z Hi). apply bool_decide_ext. lia.
Qed.

Lemma filter_prefix_lookup {B} (q : B -> bool) (raw : list B) k i :
  (forall i y, raw !! i = Some y -> q y = bool_decide (i < k)) ->
  List.filter q raw !! i = if bool_decide (i < k) then raw !! i else None.
Proof.
  intros H. rewrite (filter_prefix q raw k H). case_bool_decide.
  - apply lookup_take_lt; assumption.
  - apply lookup_take_ge; lia.
Qed.

(** The number of subscribed values. *)
Lemma partition_index {A} (p : A -> bool) (l1 l2 : list A) :
  forallb p l1 = true -> forallb (fun y => negb (p y)) l2 = true ->
  forall i x, (l1 ++ l2) !! i = Some x -> p x = bool_decide (i < length l1).
Proof.
  intros H1 H2 i x Hi. rewrite forallb_forall in H1, H2.
  apply lookup_app_Some in Hi as [Hi|[Hl Hi]].
  - rewrite bool_decide_eq_true_2 by (eapply lookup_lt_Some; eauto).
    apply H1, list_elem_of_In. eapply list_elem_of_lookup_2; eauto.
  - rewrite bool_decide_eq_false_2 by lia.
    apply negb_true_iff, H2, list_elem_of_In. eapply list_elem_of_lookup_2; eauto.
Qed.

Lemma writeSnapshot_subs doc objToId collector elements objs s r s' :
  writeSnapshot E doc objToId collector elements objs s = Ok r s' ->
  exists raw s1,
    traverse (subsFor E doc objToId) objs s = Ok raw s1 /\
    state_subs (result_state r) =
      List.filter (fun a => match a with Some _ => true | None => false end) raw.
Proof.
  unfold writeSnapshot. intros H.
  inv_bind H. inv_bind H. inv_bind H. inv_bind H. inv_bind H.
  injection H as <- _. cbn. eauto.
Qed.


(** Where the map of a subscribed value ends up after the entries that
    are [null] have been dropped: at the index of the value. *)
Lemma subs_raw fuel containerEl w r w' :
  snapshotState E fuel containerEl w = Ok r w' ->
  exists raw s1,
    traverse (subsFor E (getDocument w containerEl) (makeObjToId (result_objs r)))
      (result_objs r) (mkWS w []) = Ok raw s1 /\
    forall i obj, result_objs r !! i = Some obj -> hasSubscriptions w obj = true ->
      state_subs (result_state r) !! i = raw !! i.
Proof.
  intros H. apply snapshotState_inv in H as (elements & collector & s' & _ & _ & H & _).
  destruct (writeSnapshot_objs _ _ _ _ _ _ _ _ _ H) as [Hobjs _].
  destruct (writeSnapshot_subs _ _ _ _ _ _ _ _ H) as (raw & s1 & Hraw & ->).
  rewrite Hobjs. clear H Hobjs. exists raw, s1. split; [exact Hraw|].
  destruct (jsSort_partition w (objSet collector)) as (l1 & l2 & Hsort & H1 & H2).
  rewrite Hsort in *. set (objs := l1 ++ l2) in *.
  assert (Hq : forall i y, raw !! i = Some y ->
            (match y with Some _ => true | None => false end) = bool_decide (i < length l1)).
  { intros i y Hy.
    assert (Hlt : i < length objs).
    { rewrite <- (traverse_length _ _ _ _ _ Hraw). eapply lookup_lt_Some; eauto. }
    destruct (lookup_lt_is_Some_2 _ _ Hlt) as [obj Hobj].
    destruct (traverse_gentle_lookup _ _ _ _ _ (gentle_subsFor E _ _) Hraw i obj Hobj)
      as (y' & si & si' & Hy' & Hf & St).
    rewrite Hy in Hy'. injection Hy' as <-.
    rewrite (subsFor_some _ _ _ _ _ _ Hf). cbn in St. rewrite (stable_hasSubscriptions _ _ _ St).
    eapply partition_index; eauto. }
  intros i obj Hobj Hs.
  rewrite (filter_prefix_lookup _ raw (length l1) i Hq).
  rewrite <- (partition_index _ l1 l2 H1 H2 i obj Hobj), Hs. reflexivity.
Qed.

Lemma mget_mset_eq {K V} `{EqDecision K} (k : K) (v : V) m : mget k (mset k v m) = Some v.
Proof.
  induction m as [|[k' v'] m IH]; cbn.
  - rewrite decide_True; reflexivity.
  - destruct (decide (k' = k)) as [->|Hne]; cbn.
    + rewrite decide_True; reflexivity.
    + rewrite decide_False by assumption. exact IH.
Qed.

Lemma mget_mset_ne {K V} `{EqDecision K} (k k0 : K) (v : V) m :
  k <> k0 -> mget k0 (mset k v m) = mget k0 m.
Proof.
  intros Hne. induction m as [|[k' v'] m IH]; cbn.
  - rewrite decide_False; [reflexivity | assumption].
  - destruct (decide (k' = k)) as [->|Hne']; cbn.
    + rewrite !decide_False by assumption. reflexivity.
    + destruct (decide (k' = k0)); [reflexivity | exact IH].
Qed.





End SubsFacts.



(** ** Base-36 ids *)

Section Base36Facts.

Lemma digitValue_digit36 d : (d < 36)%N -> digitValue (digit36 d) = Some d.
Proof.
  intros Hd. unfold digit36, digitValue.
  destruct (d <? 10)%N eqn:E.
  - apply N.ltb_lt in E. rewrite N_ascii_embedding by lia.
    replace ((48 <=? 48 + d) && (48 + d <=? 57))%N with true
      by (symmetry; apply andb_true_iff; split; apply N.leb_le; lia).
    f_equal. lia.
  - apply N.ltb_ge in E. rewrite N_ascii_embedding by lia.
    replace ((48 <=? 87 + d) && (87 + d <=? 57))%N with false
      by (symmetry; apply andb_false_iff; right; apply N.leb_gt; lia).
    replace ((97 <=? 87 + d) && (87 + d <=? 122))%N with true
      by (symmetry; apply andb_true_iff; split; apply N.leb_le; lia).
    f_equal. lia.
Qed.

Lemma size_nat_div36 n : (0 < n)%N -> N.size_nat (n / 36) < N.size_nat n.
Proof.
  intros Hn. destruct n as [|p]; [lia|].
  assert (H : (N.pos p / 36 <= N.pos p / 2)%N) by (apply N.div_le_compat_l; lia).
  assert (H2 : N.size_nat (N.pos p / 2) < N.size_nat (N.pos p)).
  { rewrite <- N.div2_div. destruct p; cbn; lia. }
  assert (Hm : forall a b, (a <= b)%N -> N.size_nat a <= N.size_nat b).
  { clear. intros a b Hab. destruct a as [|a]; [cbn; lia|]. destruct b as [|b]; [lia|].
    cbn. revert b Hab. induction a; intros [b|b|] Hab; cbn; try lia.
    all: try (specialize (IHa b); lia).
    all: destruct a; cbn in *; lia. }
  specialize (Hm _ _ H). lia.
Qed.

Lemma append_assoc a b c : (a +:+ b) +:+ c = a +:+ (b +:+ c).
Proof. induction a as [|x a IH]; [reflexivity|]. rewrite !append_cons. f_equal. exact IH. Qed.

Lemma toString36_step fuel n acc :
  toString36 (S fuel) n acc =
  if (n / 36 =? 0)%N then String (digit36 (n mod 36)) acc
  else toString36 fuel (n / 36) (String (digit36 (n mod 36)) acc).
Proof. reflexivity. Qed.

(** Reading back what was printed, whatever follows. *)
Lemma digits36_toString36 fuel n rest :
  N.size_nat n < fuel ->
  digits36 (toString36 fuel n rest) None = digits36 rest (Some n).
Proof.
  revert n rest. induction fuel as [|fuel IH]; intros n rest Hf; [lia|].
  rewrite toString36_step.
  assert (Hmod : (n mod 36 < 36)%N) by (apply N.mod_lt; lia).
  destruct (n / 36 =? 0)%N eqn:Hq.
  - apply N.eqb_eq in Hq. cbn [digits36]. rewrite digitValue_digit36 by exact Hmod.
    do 2 f_equal. rewrite (N.div_mod n 36) at 2 by lia. rewrite Hq. lia.
  - apply N.eqb_neq in Hq.
    assert (Hpos : (0 < n)%N).
    { destruct (N.eq_dec n 0%N) as [->|]; [|lia]. exfalso. apply Hq. reflexivity. }
    pose proof (size_nat_div36 n Hpos).
    rewrite IH by lia. cbn [digits36]. rewrite digitValue_digit36 by exact Hmod.
    do 2 f_equal. rewrite (N.div_mod n 36) at 3 by lia. lia.
Qed.

Lemma toString36_app fuel n acc :
  toString36 fuel n acc = toString36 fuel n EmptyString +:+ acc.
Proof.
  revert n acc. induction fuel as [|fuel IH]; intros n acc; [reflexivity|].
  rewrite !toString36_step. destruct (n / 36 =? 0)%N; [reflexivity|].
  rewrite IH. rewrite (IH _ (String _ EmptyString)).
  rewrite append_assoc. reflexivity.
Qed.

(** The first character of a printed number is a digit. *)
Lemma toString36_head fuel n acc :
  exists d r, (d < 36)%N /\ toString36 (S fuel) n acc = String (digit36 d) r.
Proof.
  revert n acc. induction fuel as [|fuel IH]; intros n acc; rewrite toString36_step.
  - destruct (n / 36 =? 0)%N; eexists _, _; (split; [|reflexivity]); apply N.mod_lt; lia.
  - destruct (n / 36 =? 0)%N; [|apply IH].
    eexists _, _; (split; [|reflexivity]); apply N.mod_lt; lia.
Qed.

Lemma digit36_plain d :
  (d < 36)%N -> isWhite (digit36 d) = false /\ digit36 d <> "-"%char /\ digit36 d <> "+"%char.
Proof.
  intros Hd. pose proof (digitValue_digit36 d Hd) as Hv.
  repeat split.
  - destruct (isWhite (digit36 d)) eqn:W; [|reflexivity]. exfalso.
    unfold isWhite, digitValue in *. 
    destruct (((48 <=? N_of_ascii (digit36 d)) && (N_of_ascii (digit36 d) <=? 57))%N) eqn:A;
    destruct (((97 <=? N_of_ascii (digit36 d)) && (N_of_ascii (digit36 d) <=? 122))%N) eqn:B;
    destruct (((65 <=? N_of_ascii (digit36 d)) && (N_of_ascii (digit36 d) <=? 90))%N) eqn:C;
    try discriminate;
    repeat match goal with
    | H : (_ && _) = true |- _ => apply andb_true_iff in H as [? ?]
    | H : (_ || _) = true |- _ => apply orb_true_iff in H as [?|?]
    | H : (_ <=? _)%N = true |- _ => apply N.leb_le in H
    | H : (_ =? _)%N = true |- _ => apply N.eqb_eq in H
    end; lia.
  - intros Heq. rewrite Heq in Hv. discriminate.
  - intros Heq. rewrite Heq in Hv. discriminate.
Qed.

(** An id written by the writer reads back as the number it was made
    from, with or without the proxy mark. *)
Lemma strToInt_intToStr n suffix :
  suffix = EmptyString \/ suffix = "!" ->
  strToInt (intToStr n +:+ suffix) = Some (Z.of_N n).
Proof.
  intros Hs. unfold intToStr. rewrite <- toString36_app.
  destruct (toString36_head (N.size_nat n) n suffix) as (d & r & Hd & Hr).
  destruct (digit36_plain d Hd) as (Hw & Hm & Hp).
  assert (Hread : digits36 (toString36 (S (N.size_nat n)) n suffix) None = Some n).
  { rewrite digits36_toString36 by lia. destruct Hs; subst; reflexivity. }
  unfold strToInt. rewrite Hr in *. cbn [skipWhite]. rewrite Hw.
  destruct (digit36 d) as [[] [] [] [] [] [] [] []] eqn:Hc;
    try (rewrite Hread; reflexivity); exfalso; [apply Hp | apply Hm]; reflexivity.
Qed.

Lemma append_cancel a s1 s2 : a +:+ s1 = a +:+ s2 -> s1 = s2.
Proof.
  induction a as [|x a IH]; [auto|]. rewrite !append_cons. intros [= H]. auto.
Qed.

(** Two ids are the same text only for the same number and the same mark. *)
Lemma id_injective i j s1 s2 :
  (s1 = EmptyString \/ s1 = "!") -> (s2 = EmptyString \/ s2 = "!") ->
  intToStr i +:+ s1 = intToStr j +:+ s2 -> i = j /\ s1 = s2.
Proof.
  intros H1 H2 Heq.
  pose proof (strToInt_intToStr i s1 H1) as Hi. pose proof (strToInt_intToStr j s2 H2) as Hj.
  rewrite Heq, Hj in Hi. injection Hi as Hi. apply N2Z.inj in Hi. subst j.
  split; [reflexivity|]. eapply append_cancel; eauto.
Qed.






End Base36Facts.

(** ** Identity: one id per collected value *)

Section CollectFacts.
Variable E : Collab.

Lemma sadd_NoDup {A} `{EqDecision A} (x : A) s : NoDup s -> NoDup (sadd x s).
Proof.
  intros H. unfold sadd. destruct (decide (x ∈ s)); [exact H|].
  apply NoDup_app. split; [exact H|]. split.
  - intros y Hy Hx. apply list_elem_of_singleton in Hx. subst. contradiction.
  - apply NoDup_singleton.
Qed.

Lemma foldOpt_inv {A C} (P : C -> Prop) (f : A -> C -> option C) l c c' :
  (forall x c c', f x c = Some c' -> P c -> P c') ->
  foldOpt f l c = Some c' -> P c -> P c'.
Proof.
  intros Hf. revert c. induction l as [|x l IH]; intros c H Hc; cbn in H.
  - injection H as <-. exact Hc.
  - destruct (f x c) as [c1|] eqn:Hx; [|discriminate]. eapply IH; eauto.
Qed.

Lemma tidy_objSetAdd v c : tidy c -> tidy (objSetAdd v c).
Proof. apply sadd_NoDup. Qed.

Lemma collect_tidy fuel :
  (forall w doc obj c c', collectValue E fuel w doc obj c = Some c' -> tidy c -> tidy c') /\
  (forall w doc obj c b c', collectQObjects E fuel w doc obj c = Some (b, c') -> tidy c -> tidy c') /\
  (forall w doc obj c c', collectQrl E fuel w doc obj c = Some c' -> tidy c -> tidy c') /\
  (forall w doc el c c', collectElement E fuel w doc el c = Some c' -> tidy c -> tidy c') /\
  (forall w doc p subs c c', collectSubscriptions E fuel w doc p subs c = Some c' -> tidy c -> tidy c').
Proof.
  induction fuel as [|fuel (IHv & IHo & IHq & IHe & IHs)].
  { repeat split; intros; discriminate. }
  assert (Hwalk : forall w doc obj c b c',
    match obj with
    | VRef l =>
        if shas (SeenValue obj) (seen c) then Some (true, c)
        else
          match
            (if isArray w obj
             then foldOpt (fun v c => option_map snd (collectQObjects E fuel w doc v c)) (arrayItems w l)
                    (objSetAdd obj (seenAdd (SeenValue obj) c))
             else foldOpt (fun v c => option_map snd (collectQObjects E fuel w doc v c))
                    (map snd (ownEntries w l)) (objSetAdd obj (seenAdd (SeenValue obj) c)))
          with
          | Some c => Some (true, c)
          | None => None
          end
    | VStr _ => Some (true, objSetAdd obj c)
    | _ => Some (false, c)
    end = Some (b, c') -> tidy c -> tidy c').
  { intros w doc obj c b c' H Hc.
    assert (Hvisit : forall x c0 c1,
      option_map snd (collectQObjects E fuel w doc x c0) = Some c1 -> tidy c0 -> tidy c1).
    { intros x c0 c1 Hx. destruct (collectQObjects E fuel w doc x c0) as [[b1 c2]|] eqn:Hq; [|discriminate].
      injection Hx as <-. eapply IHo; eauto. }
    destruct obj; try (injection H as _ <-; auto; fail).
    - injection H as _ <-. apply tidy_objSetAdd, Hc.
    - destruct (shas _ _); [injection H as _ <-; exact Hc|].
      destruct (isArray w (VRef l));
        (destruct (foldOpt _ _ _) as [c2|] eqn:Hf; [|discriminate]);
        injection H as _ <-; refine (foldOpt_inv tidy _ _ _ _ Hvisit Hf _);
        apply tidy_objSetAdd; exact Hc. }
  repeat split.
  - intros w doc obj c c' H Hc. cbn in H.
    destruct (collectQObjects E fuel w doc obj c) as [[handled c1]|] eqn:Hq; [|discriminate].
    apply IHo in Hq; [|exact Hc]. destruct handled; injection H as <-; [exact Hq|].
    apply tidy_objSetAdd, Hq.
  - intros w doc obj c b c' H Hc. cbn in H.
    destruct obj as [| |b0|n|s|l];
      [injection H as _ <-; exact Hc | injection H as _ <-; exact Hc
      | exact (Hwalk w doc (VBool b0) c b c' H Hc) | exact (Hwalk w doc (VNum n) c b c' H Hc)
      | exact (Hwalk w doc (VStr s) c b c' H Hc) | ].
    destruct (_ && _); [injection H as _ <-; exact Hc|].
    destruct (isQrl w (VRef l)).
    { destruct (collectQrl E fuel w doc (VRef l) c) as [c1|] eqn:Hq; [|discriminate].
      injection H as _ <-. eapply IHq; eauto. }
    match type of H with
    | match ?X with _ => _ end = _ => destruct X as [c1|] eqn:Hsub; [|discriminate]
    end.
    assert (Hc1 : tidy c1).
    { destruct (if truthy (targetOf w (VRef l)) then Some l else proxyFor w (VRef l)) as [p|];
        [|injection Hsub as <-; exact Hc].
      destruct (subsOf w p) as [subs|]; [|injection Hsub as <-; exact Hc].
      eapply IHs; eauto. }
    eapply Hwalk; eauto.
  - intros w doc obj c c' H Hc. cbn in H.
    destruct (shas _ _); [injection H as <-; exact Hc|].
    destruct (captureRefOf w obj) as [refs|].
    + refine (foldOpt_inv tidy _ _ _ _ _ H _); [intros x a b; apply IHv|].
      apply tidy_objSetAdd. exact Hc.
    + injection H as <-. apply tidy_objSetAdd. exact Hc.
  - intros w doc el c c' H Hc. cbn in H.
    destruct (shas _ _); [injection H as <-; exact Hc|].
    destruct (tryGetContext w el) as [ctx|]; [|injection H as <-; exact Hc].
    cbn in H.
    assert (Heach : forall l c0 c1, foldOpt (collectValue E fuel w doc) l c0 = Some c1 -> tidy c0 -> tidy c1).
    { intros l0 c0 c1. apply (foldOpt_inv tidy). intros x a b. apply IHv. }
    repeat match type of H with
    | mbind _ ?X = Some _ => 
        let c1 := fresh "c" in let Hx := fresh "Hx" in
        destruct X as [c1|] eqn:Hx; [cbn in H|discriminate]
    end.
    assert (H0 : tidy c0).
    { destruct (truthy (ctx_props ctx)); [eapply IHv; eauto | injection Hx as <-]; exact Hc. }
    assert (H1 : tidy c1).
    { destruct (truthy (ctx_renderQrl ctx)); [eapply IHv; eauto | injection Hx0 as <-; exact H0]. }
    apply Heach in Hx1; [|exact H1]. apply Heach in Hx2; [|exact Hx1].
    apply Heach in Hx3; [|exact Hx2].
    destruct (ctx_contexts ctx); [eapply Heach; eauto | injection H as <-; exact Hx3].
  - intros w doc p subs c c' H Hc. cbn in H.
    destruct (shas _ _); [injection H as <-; exact Hc|].
    refine (foldOpt_inv tidy _ _ _ _ _ H Hc).
    intros key a b Hk Ha. destruct key; try (eapply IHv; eauto; fail).
    destruct (isElement w (VRef l)); [eapply IHe | eapply IHv]; eauto.
Qed.

Lemma collectNode_tidy fuel w doc node c c' :
  collectNode E fuel w doc node c = Some c' -> tidy c -> tidy c'.
Proof.
  unfold collectNode. intros H Hc.
  destruct (tryGetContext w node) as [ctx|]; [|injection H as <-; exact Hc].
  cbn in H.
  assert (Heach : forall l c0 c1, foldOpt (collectValue E fuel w doc) l c0 = Some c1 -> tidy c0 -> tidy c1).
  { intros l0 c0 c1. apply (foldOpt_inv tidy). intros x a b. apply (collect_tidy fuel). }
  repeat match type of H with
  | mbind _ ?X = Some _ =>
      let c1 := fresh "c" in let Hx := fresh "Hx" in
      destruct X as [c1|] eqn:Hx; [cbn in H|discriminate]
  end.
  assert (H0 : tidy c0).
  { destruct (ctx_contexts ctx); [eapply Heach; eauto | injection Hx as <-; exact Hc]. }
  assert (H1 : tidy c1).
  { destruct (ctx_listeners ctx) as [ls|]; [|injection Hx0 as <-; exact H0].
    refine (foldOpt_inv tidy _ _ _ _ _ Hx0 H0). intros l a b Hl Ha.
    destruct (captureRefOf w l); [eapply Heach; eauto | injection Hl as <-; exact Ha]. }
  injection H as <-. clear -H1. revert c1 H1.
  induction (ctx_watches ctx) as [|x l IH]; intros c1 H1; cbn; [exact H1|].
  apply IH. exact H1.
Qed.

(** The values collected for a snapshot are pairwise distinct. *)
Lemma collected_NoDup fuel w doc elements collector :
  foldOpt (collectNode E fuel w doc) elements createCollector = Some collector ->
  NoDup (objSet collector).
Proof.
  intros H. refine (foldOpt_inv tidy _ _ _ _ _ H _).
  - intros x a b. apply collectNode_tidy.
  - apply NoDup_nil_2.
Qed.
End CollectFacts.

Section IdentityFacts.
Variable E : Collab.

Lemma filter_split_NoDup {A} (p : A -> bool) l :
  NoDup l -> NoDup (List.filter p l ++ List.filter (fun y => negb (p y)) l).
Proof.
  intros H. apply NoDup_app. repeat split.
  - apply NoDup_ListNoDup, List.NoDup_filter, NoDup_ListNoDup, H.
  - intros x Hx Hy. apply list_elem_of_In, filter_In in Hx as [_ Hx].
    apply list_elem_of_In, filter_In in Hy as [_ Hy]. rewrite Hx in Hy. discriminate.
  - apply NoDup_ListNoDup, List.NoDup_filter, NoDup_ListNoDup, H.
Qed.

Lemma jsSort_NoDup compare l :
  (exists p, compare = byFlag p) -> NoDup l -> NoDup (jsSort compare l).
Proof.
  intros [p ->] H. unfold jsSort. rewrite sortBy_partition.
  set (q := fun v : value => bool_decide (v = VUndefined)).
  assert (Hn : NoDup (List.filter (fun v => negb (q v)) l)).
  { apply NoDup_ListNoDup, List.NoDup_filter, NoDup_ListNoDup, H. }
  apply NoDup_app. repeat split.
  - apply filter_split_NoDup, Hn.
  - intros x Hx Hy. apply list_elem_of_In, filter_In in Hy as [_ Hy].
    assert (Hin : In x (List.filter (fun v => negb (q v)) l)).
    { apply elem_of_app in Hx as [Hx|Hx];
        apply list_elem_of_In, filter_In in Hx as [Hx _]; exact Hx. }
    apply filter_In in Hin as [_ Hin]. rewrite Hy in Hin. discriminate.
  - apply NoDup_ListNoDup, List.NoDup_filter, NoDup_ListNoDup, H.
Qed.

(** [objToId] gives each value of [objs] its index. *)
Lemma makeObjToId_spec objs :
  NoDup objs ->
  forall v n, mget v (makeObjToId objs) = Some n <-> objs !! N.to_nat n = Some v.
Proof.
  intros Hnd. unfold makeObjToId.
  assert (G : forall (done todo : list value) (m : list (value * N)) count,
    NoDup (done ++ todo) -> count = N.of_nat (length done) ->
    (forall v n, mget v m = Some n <-> done !! N.to_nat n = Some v) ->
    forall v n,
      mget v (fst (fold_left (fun '(objToId, count) obj => (mset obj count objToId, (count + 1)%N))
                     todo (m, count))) = Some n <-> (done ++ todo) !! N.to_nat n = Some v).
  { intros done todo. revert done. induction todo as [|x todo IH]; intros done m count Hnd' Hc Hm v n.
    - cbn. rewrite app_nil_r. apply Hm.
    - cbn [fold_left]. replace (done ++ x :: todo) with ((done ++ [x]) ++ todo) in *
        by (rewrite <- app_assoc; reflexivity).
      apply IH; [exact Hnd' | rewrite length_app; cbn; lia |].
      clear IH v n. intros v n.
      assert (Hx : x ∉ done).
      { apply NoDup_app in Hnd' as (Hd & _ & _). apply NoDup_app in Hd as (_ & Hd & _).
        intros Hin. apply (Hd x Hin). apply list_elem_of_singleton. reflexivity. }
      destruct (decide (x = v)) as [->|Hne].
      + rewrite mget_mset_eq. split.
        * intros [= <-]. rewrite Hc, Nat2N.id, lookup_app_r by lia.
          rewrite Nat.sub_diag. reflexivity.
        * intros Hl. apply lookup_app_Some in Hl as [Hl|[Hge Hl]].
          -- exfalso. apply Hx. eapply list_elem_of_lookup_2; eauto.
          -- destruct (N.to_nat n - length done) as [|k] eqn:Hk; [|discriminate].
             f_equal. lia.
      + rewrite mget_mset_ne by assumption. rewrite Hm. split.
        * intros Hl. apply lookup_app_l_Some. exact Hl.
        * intros Hl. apply lookup_app_Some in Hl as [Hl|[Hge Hl]]; [exact Hl|].
          destruct (N.to_nat n - length done) as [|k]; cbn in Hl; [congruence | discriminate]. }
  intros v n. apply (G [] objs [] 0%N); [exact Hnd | reflexivity |].
  intros v' n'. cbn. split; discriminate.
Qed.


Lemma targetOf_prim w obj : (forall l, obj <> VRef l) -> targetOf w obj = VUndefined.
Proof. destruct obj; intros H; try reflexivity. exfalso. eapply H; eauto. Qed.

Lemma append_empty_r a : a +:+ EmptyString = a.
Proof. induction a as [|x a IH]; [reflexivity|]. rewrite append_cons. f_equal. exact IH. Qed.


Lemma stable_idKey w w' doc obj : stable w w' -> idKey E w' doc obj = idKey E w doc obj.
Proof.
  intros H. unfold idKey. rewrite (stable_targetOf _ _ _ H).
  destruct obj; apply stable_normalizeObj; exact H.
Qed.


Lemma arrayItems_alloc_proxy w objs l subs pm lg ev ds :
  arrayItems (mkWorld (heap w ++ [CProxy l subs]) pm lg ev ds) objs = arrayItems w objs.
Proof.
  unfold arrayItems, cellAt. cbn [heap].
  destruct (decide (objs < length (heap w))) as [Hlt|Hge].
  - rewrite lookup_app_l by exact Hlt. reflexivity.
  - rewrite (lookup_ge_None_2 (heap w)) by lia.
    rewrite lookup_app_r by lia.
    destruct (objs - length (heap w)) as [|k]; [reflexivity|]. destruct k; reflexivity.
Qed.

(** Wrapping leaves the parsed array as it is and only adds to the registry. *)
Lemma readWriteProxy_keeps objs obj subs w v w' :
  readWriteProxy obj subs w = Ok v w' -> keeps objs w w'.
Proof.
  unfold readWriteProxy, bind, get, keeps. destruct obj; try (intros [= <- <-]; auto; fail).
  destruct (mget l (proxyMap w)) as [p|] eqn:Hp; [intros [= <- <-]; auto|].
  cbn. intros [= <- <-]. split; [apply arrayItems_alloc_proxy|].
  intros l0 p0 H0. cbn [proxyMap]. destruct (decide (l = l0)) as [->|Hne]; [congruence|].
  rewrite mget_mset_ne by exact Hne. exact H0.
Qed.

Lemma keeps_refl objs w : keeps objs w w.
Proof. split; auto. Qed.

Lemma keeps_trans objs w1 w2 w3 : keeps objs w1 w2 -> keeps objs w2 w3 -> keeps objs w1 w3.
Proof. intros [A1 P1] [A2 P2]. split; [congruence | auto]. Qed.

Lemma assertTrue_Ok {S : Type} holds msg (s : S) u s' :
  assertTrue E holds msg s = Ok u s' -> s' = s /\ (assertions E = true -> holds = true).
Proof.
  unfold assertTrue. destruct (assertions E); cbn.
  - destruct holds; cbn; [intros [= _ <-]; auto | discriminate].
  - intros [= _ <-]. split; [reflexivity | discriminate].
Qed.


(** Resolving an id: the state moves within [keeps], and resolving the
    same id in any later state gives the same value. *)
Lemma getObjectImpl_keeps elements objs id w v w' :
  getObjectImpl E elements objs id w = Ok v w' -> keeps objs w w'.
Proof.
  unfold getObjectImpl. destruct (startsWith id _).
  - intros H. inv_bind H. apply assertTrue_Ok in H0 as [-> _]. injection H as _ <-. apply keeps_refl.
  - intros H. inv_bind H. injection H0 as <- <-. inv_bind H.
    apply assertTrue_Ok in H0 as [-> _].
    destruct (endsWithChar _ _); [|injection H as _ <-; apply keeps_refl].
    destruct (proxyFor _ _); [injection H as _ <-; apply keeps_refl|].
    eapply readWriteProxy_keeps; eauto.
Qed.


Lemma prefixApart_inv : prefixApart E -> exists c r, ELEMENT_ID_PREFIX E = String c r /\ digitValue c = None.
Proof. unfold prefixApart. destruct (ELEMENT_ID_PREFIX E); [contradiction | eauto]. Qed.



End IdentityFacts.

(** ** Resume: the preconditions *)

Section ResumeFacts.
Variable E : Collab.

(** C5.  When the element is not marked as a container, or the root that
    should hold the snapshot has no snapshot script, [resumeContainer]
    returns after logging one warning, and the page is as it was: the heap
    (every attribute, the children of every node, every component state),
    the proxy registry, and the events dispatched. *)
Theorem resume_aborts_clean fuel containerEl w :
  isContainer E w containerEl = false \/
  getQwikJSON w (parentOfJSON w containerEl) = None ->
  exists msg,
    resumeContainer E fuel containerEl w = Ok tt (addLog (LogWarn msg) w) /\
    heap (addLog (LogWarn msg) w) = heap w /\
    proxyMap (addLog (LogWarn msg) w) = proxyMap w /\
    events (addLog (LogWarn msg) w) = events w.
Proof.
  intros H. unfold resumeContainer, bind, get.
  destruct (isContainer E w containerEl) eqn:Hc; cbn [negb].
  - destruct H as [H|H]; [discriminate|]. unfold parentOfJSON in H. rewrite H.
    eexists. split; [reflexivity|]. auto.
  - eexists. split; [reflexivity|]. auto.
Qed.
End ResumeFacts.

(** On a page whose root is not marked, and on a container without a
    snapshot script. *)
Lemma resume_aborts_clean_witness :
  isContainer (collab true (fun _ => None)) pageUnmarked 1 = false /\
  (exists msg,
     resumeContainer (collab true (fun _ => None)) 10 1 pageUnmarked
       = Ok tt (addLog (LogWarn msg) pageUnmarked) /\
     heap (addLog (LogWarn msg) pageUnmarked) = heap pageUnmarked /\
     proxyMap (addLog (LogWarn msg) pageUnmarked) = proxyMap pageUnmarked /\
     events (addLog (LogWarn msg) pageUnmarked) = events pageUnmarked) /\
  getQwikJSON pageNoScript (parentOfJSON pageNoScript 1) = None /\
  (exists msg,
     resumeContainer (collab true (fun _ => None)) 10 1 pageNoScript
       = Ok tt (addLog (LogWarn msg) pageNoScript) /\
     heap (addLog (LogWarn msg) pageNoScript) = heap pageNoScript /\
     proxyMap (addLog (LogWarn msg) pageNoScript) = proxyMap pageNoScript /\
     events (addLog (LogWarn msg) pageNoScript) = events pageNoScript).
Proof.
  split; [reflexivity|]. split.
  - exact (resume_aborts_clean (collab true (fun _ => None)) 10 1 pageUnmarked
             (or_introl eq_refl)).
  - split; [reflexivity|].
    exact (resume_aborts_clean (collab true (fun _ => None)) 10 1 pageNoScript
             (or_intror eq_refl)).
Defined.

(** ** Nodes that are not elements *)

Section ObjFacts.
Context {V : Type}.

Lemma mget_oinsert (k k' : string) (v : V) o :
  mget k o = None -> mget k' (oinsert k v o) = if decide (k = k') then Some v else mget k' o.
Proof.
  induction o as [|[k0 v0] o IH]; intros Hk; cbn.
  - reflexivity.
  - cbn in Hk. destruct (decide (k0 = k)) as [|Hne]; [discriminate|].
    specialize (IH Hk).
    assert (Hhead : mget k' ((k, v) :: (k0, v0) :: o)
                    = if decide (k = k') then Some v else mget k' ((k0, v0) :: o)) by reflexivity.
    assert (Htail : mget k' ((k0, v0) :: oinsert k v o)
                    = if decide (k = k') then Some v else mget k' ((k0, v0) :: o)).
    { cbn. rewrite IH. destruct (decide (k0 = k')) as [->|]; [|reflexivity].
      rewrite decide_False by congruence. reflexivity. }
    destruct (arrayIndex k) as [n|], (arrayIndex k0) as [n0|];
      try destruct (n <? n0)%N; first [exact Hhead | exact Htail].
Qed.

Lemma oget_oset_eq (k : string) (v : V) o : oget k (oset k v o) = Some v.
Proof.
  unfold oget, oset, mhas. destruct (mget k o) eqn:Hk.
  - apply mget_mset_eq.
  - rewrite mget_oinsert by exact Hk. rewrite decide_True; reflexivity.
Qed.

Lemma oget_oset_ne (k k' : string) (v : V) o : k <> k' -> oget k' (oset k v o) = oget k' o.
Proof.
  intros Hne. unfold oget, oset, mhas. destruct (mget k o) eqn:Hk.
  - apply mget_mset_ne. exact Hne.
  - rewrite mget_oinsert by exact Hk. rewrite decide_False by exact Hne. reflexivity.
Qed.
End ObjFacts.

Section NodeFacts.
Variable E : Collab.
Variable doc : loc.
Variable objToId : list (value * N).

Lemma stable_strayNode w w' l : stable w w' -> strayNode E doc objToId w l -> strayNode E doc objToId w' l.
Proof.
  intros H (Hn & Ht & Hk). unfold strayNode.
  rewrite (stable_isNode _ _ _ H), (stable_nodeType _ _ _ H), (stable_idKey _ _ _ _ _ H). auto.
Qed.

Lemma isNode_targetOf w l : isNode w (VRef l) = true -> targetOf w (VRef l) = VUndefined.
Proof. cbn. destruct (cellAt w l) as [[| | | |]|]; try discriminate. reflexivity. Qed.

Lemma getObjId_stray l s :
  strayNode E doc objToId (world s) l ->
  getObjId E doc objToId (VRef l) s = Ok None (onWorld (addLog nodeError) s).
Proof.
  intros (Hn & Ht & Hk). unfold getObjId, bind, get.
  unfold idKey in Hk. rewrite Hk. rewrite (isNode_targetOf _ _ Hn). cbn [truthy negb andb].
  rewrite Hn. destruct (Z.eqb_spec (nodeType (nodeAt (world s) l)) 1); [contradiction|].
  reflexivity.
Qed.

Lemma serialize_stray l s :
  strayNode E doc objToId (world s) l ->
  serialize E doc objToId (VRef l) s = Ok (VRef l) (onWorld (addLog nodeError) s).
Proof. intros H. unfold serialize, bind. rewrite (getObjId_stray _ _ H). reflexivity. Qed.

Lemma foldM_fields_keep key (fields : list (string * value)) out s out' s' :
  key ∉ map fst fields ->
  foldM (fun output entry => v <- serialize E doc objToId (snd entry) ;; ret (oset (fst entry) v output))
    fields out s = Ok out' s' ->
  oget key out' = oget key out.
Proof.
  revert out s. induction fields as [|[k v] fields IH]; intros out s Hk H; cbn in H.
  - injection H as <- _. reflexivity.
  - cbn in Hk. apply not_elem_of_cons in Hk as [Hne Hk].
    inv_bind H. inv_bind H0. injection H0 as <- <-. cbn [fst] in H.
    rewrite (IH _ _ Hk H). apply oget_oset_ne. congruence.
Qed.

Lemma foldM_fields_stray key l (fields : list (string * value)) out s out' s' :
  NoDup (map fst fields) -> (key, VRef l) ∈ fields -> strayNode E doc objToId (world s) l ->
  foldM (fun output entry => v <- serialize E doc objToId (snd entry) ;; ret (oset (fst entry) v output))
    fields out s = Ok out' s' ->
  oget key out' = Some (VRef l).
Proof.
  revert out s. induction fields as [|[k v] fields IH]; intros out s Hnd Hin Hs H.
  - apply elem_of_nil in Hin. contradiction.
  - cbn in Hnd. apply NoDup_cons in Hnd as [Hk Hnd]. cbn in H.
    inv_bind H. inv_bind H0. injection H0 as <- <-. cbn [fst snd] in *.
    apply elem_of_cons in Hin as [Heq|Hin].
    + injection Heq as <- <-. rewrite (serialize_stray _ _ Hs) in H1. injection H1 as <- <-.
      rewrite (foldM_fields_keep _ _ _ _ _ _ Hk H). apply oget_oset_eq.
    + assert (St : stable (world s) (world s1)).
      { destruct (gentle_serialize E doc objToId v s) as (a' & s2 & E2 & St).
        rewrite H1 in E2. injection E2 as <- <-. exact St. }
      exact (IH _ _ Hnd Hin (stable_strayNode _ _ _ St Hs) H).
Qed.

Lemma convert_object_stray parent fields key l s o s' :
  cellAt (world s) parent = Some (CObject fields) ->
  NoDup (map fst fields) -> (key, VRef l) ∈ fields ->
  strayNode E doc objToId (world s) l ->
  convert E doc objToId (VRef parent) s = Ok o s' ->
  exists output, o = OutObject output /\ oget key output = Some (VRef l).
Proof.
  intros Hc Hnd Hin Hs. unfold convert, bind at 1, get.
  unfold isArray, ownEntries. rewrite Hc. intros H. inv_bind H. injection H as <- _.
  eexists. split; [reflexivity|]. eapply foldM_fields_stray; eauto.
Qed.

Lemma convert_array_stray parent items i l s o s' :
  cellAt (world s) parent = Some (CArray items) ->
  items !! i = Some (VRef l) ->
  strayNode E doc objToId (world s) l ->
  convert E doc objToId (VRef parent) s = Ok o s' ->
  exists output, o = OutArray output /\ output !! i = Some (VRef l).
Proof.
  intros Hc Hi Hs. unfold convert, bind at 1, get.
  unfold isArray, arrayItems. rewrite Hc. intros H. inv_bind H. injection H as <- _.
  eexists. split; [reflexivity|].
  destruct (traverse_gentle_lookup _ _ _ _ _ (gentle_serialize E doc objToId) H0 i _ Hi)
    as (y & si & si' & Hy & Hf & St).
  rewrite (serialize_stray _ _ (stable_strayNode _ _ _ St Hs)) in Hf.
  injection Hf as <- _. exact Hy.
Qed.


End NodeFacts.


(** ** Subscribers without an id *)

Section NoIdFacts.
Variable E : Collab.
Variable doc : loc.
Variable objToId : list (value * N).

Lemma steady_refl s : steady E s s.
Proof. split; [apply stable_refl|]. split; [auto|]. split; auto. Qed.

Lemma steady_trans s1 s2 s3 : steady E s1 s2 -> steady E s2 s3 -> steady E s1 s3.
Proof.
  intros (St1 & K1 & A1 & N1) (St2 & K2 & A2 & N2).
  split; [|split; [|split]].
  - eapply stable_trans; eauto.
  - auto.
  - intros l Hl. destruct (A1 l Hl) as [H|[H|H]]; [|auto..].
    destruct (A2 l H) as [H'|[H'|H']]; [auto..|].
    right; right. rewrite <- (stable_isConnected _ _ l St1). exact H'.
  - intros l id Hl. destruct (N2 l id Hl) as [H|H]; [|auto]. exact (N1 l id H).
Qed.

Lemma steady_world s w' : stable (world s) w' -> steady E s (mkWS w' (elementToIndex s)).
Proof. intros H. split; [exact H|]. split; [auto|]. split; auto. Qed.

Lemma careful_ret {A} (a : A) : careful E (ret a).
Proof. intros s a' s' [= <- <-]. apply steady_refl. Qed.

Lemma careful_bind {A B} (m : M WS A) (k : A -> M WS B) :
  careful E m -> (forall a, careful E (k a)) -> careful E (bind m k).
Proof.
  intros Hm Hk s b s' H. inv_bind H. eapply steady_trans; [eapply Hm | eapply Hk]; eauto.
Qed.

Lemma careful_traverse {A B} (f : A -> M WS B) l : (forall x, careful E (f x)) -> careful E (traverse f l).
Proof.
  intros Hf. induction l as [|x l IH]; cbn; [apply careful_ret|].
  apply careful_bind; [apply Hf|]. intros y. apply careful_bind; [exact IH|].
  intros ys. apply careful_ret.
Qed.

Lemma careful_getElementID el : careful E (getElementID E el).
Proof.
  intros s a s'. unfold getElementID, bind, get.
  destruct (mget el (elementToIndex s)) as [id|] eqn:Hel.
  - intros [= <- <-]. apply steady_refl.
  - destruct (isConnected (nodeAt (world s) el)) eqn:Hc; cbn; intros [= <- <-].
    + split; [|split; [|split]]; cbn.
      * apply stable_setAttribute.
      * intros l x Hl. rewrite mget_mset_ne; [exact Hl | congruence].
      * intros l Hl. destruct (decide (el = l)) as [<-|Hne]; [auto|].
        left. rewrite mget_mset_ne by exact Hne. exact Hl.
      * intros l id Hl. destruct (decide (el = l)) as [<-|Hne].
        -- rewrite mget_mset_eq in Hl. injection Hl as <-. right. eexists. reflexivity.
        -- rewrite mget_mset_ne in Hl by exact Hne. auto.
    + split; [|split; [|split]]; cbn.
      * apply stable_refl.
      * intros l x Hl. rewrite mget_mset_ne; [exact Hl | congruence].
      * intros l Hl. destruct (decide (el = l)) as [<-|Hne].
        -- right; left. apply mget_mset_eq.
        -- left. rewrite mget_mset_ne by exact Hne. exact Hl.
      * intros l id Hl. destruct (decide (el = l)) as [<-|Hne].
        -- rewrite mget_mset_eq in Hl. discriminate.
        -- rewrite mget_mset_ne in Hl by exact Hne. auto.
Qed.

Lemma careful_getObjId obj : careful E (getObjId E doc objToId obj).
Proof.
  unfold getObjId. apply careful_bind; [intros s a s' [= <- <-]; apply steady_refl|]. intros s.
  destruct obj; try (destruct (mget _ objToId); apply careful_ret).
  destruct (mget _ objToId); [apply careful_ret|].
  destruct (_ && _); [|apply careful_ret].
  destruct (_ =? _)%Z; [apply careful_getElementID|].
  apply careful_bind; [|intros; apply careful_ret].
  intros s0 a s' [= <- <-]. apply (steady_world s0). apply stable_addLog.
Qed.

Lemma careful_subsEntry entry : careful E (subsEntry E doc objToId entry).
Proof.
  unfold subsEntry. apply careful_bind; [apply careful_getObjId|]. intros [id|]; apply careful_ret.
Qed.

Lemma stable_isElement w w' v : stable w w' -> isElement w' v = isElement w v.
Proof.
  intros H. destruct v; try reflexivity. pose proof (stable_nodeType _ _ l H) as Ht.
  pose proof (stable_isNode _ _ (VRef l) H) as Hn. cbn in *. unfold nodeAt in Ht.
  destruct (cellAt w l) as [[| | |n|]|], (cellAt w' l) as [[| | |n'|]|]; try discriminate; try reflexivity.
  cbn in Ht. rewrite Ht. reflexivity.
Qed.

Lemma steady_noId s s' sub : steady E s s' -> noId E doc objToId s sub -> noId E doc objToId s' sub.
Proof.
  intros (St & K & A & _) [Hk Hel]. split.
  - rewrite (stable_idKey _ _ _ _ _ St). exact Hk.
  - destruct sub; auto. rewrite (stable_isElement _ _ _ St). intros He.
    destruct (Hel He) as [H|[H Hc]]; [left; auto|].
    destruct (A l H) as [H'|[H'|H']]; [|auto|congruence].
    right. split; [exact H'|]. rewrite (stable_isConnected _ _ l St). exact Hc.
Qed.

(** [getObjId] gives [null] for such a subscriber. *)
Lemma getObjId_noId s sub :
  noId E doc objToId s sub -> exists s', getObjId E doc objToId sub s = Ok None s'.
Proof.
  intros [Hk Hel]. unfold getObjId, bind, get. unfold idKey in Hk.
  destruct sub; try (rewrite Hk; eexists; reflexivity).
  rewrite Hk. destruct (negb _ && _) eqn:Hn; [|eexists; reflexivity].
  apply andb_true_iff in Hn as [_ Hn].
  destruct (nodeType (nodeAt (world s) l) =? 1)%Z eqn:Ht; [|eexists; reflexivity].
  assert (He : isElement (world s) (VRef l) = true).
  { cbn in Hn |- *. unfold nodeAt in Ht. destruct (cellAt (world s) l) as [[| | |n|]|]; try discriminate.
    exact Ht. }
  unfold getElementID, bind, get. destruct (Hel He) as [H|[H Hc]]; rewrite H.
  - eexists; reflexivity.
  - rewrite Hc. cbn. eexists; reflexivity.
Qed.

Lemma fold_oset_last {V} (k : string) (v : V) (entries : list (string * V)) acc :
  (oget k acc = Some v \/ (k, v) ∈ entries) ->
  (forall v', (k, v') ∈ entries -> v' = v) ->
  oget k (fold_left (fun o '(k, v) => oset k v o) entries acc) = Some v.
Proof.
  revert acc. induction entries as [|[k0 v0] entries IH]; intros acc H Hall; cbn.
  - destruct H as [H|H]; [exact H|]. apply elem_of_nil in H. contradiction.
  - apply IH; [|intros v' Hv'; apply Hall; apply elem_of_cons; auto].
    destruct (decide (k0 = k)) as [->|Hne].
    + left. rewrite (Hall v0) by (apply elem_of_cons; auto). apply oget_oset_eq.
    + destruct H as [H|H].
      * left. rewrite oget_oset_ne by exact Hne. exact H.
      * apply elem_of_cons in H as [H|H]; [congruence | auto].
Qed.

Lemma fromEntries_last {V} (k : string) (v : V) (entries : list (string * V)) :
  (k, v) ∈ entries -> (forall v', (k, v') ∈ entries -> v' = v) ->
  oget k (fromEntries entries) = Some v.
Proof. intros H Hall. apply fold_oset_last; auto. Qed.

Hypothesis apart : prefixApart E.
(** The entries of [objs] are counted by array indices. *)
Hypothesis indices : forall v n, mget v objToId = Some n -> (n < 4294967295)%N.

Lemma prefixed_not_undefined id :
  startsWith id (ELEMENT_ID_PREFIX E) = true -> id <> "undefined".
Proof.
  destruct (prefixApart_inv E apart) as (c & r & Hpre & Hc). rewrite Hpre.
  intros H ->. unfold startsWith in H. rewrite strip_prefix_cons in H.
  destruct (Ascii.eqb_spec c "u") as [->|]; [discriminate Hc | discriminate H].
Qed.

Lemma steady_idsApart s s' : steady E s s' -> idsApart s -> idsApart s'.
Proof.
  intros (_ & _ & _ & N) Hs l id Hl. destruct (N l id Hl) as [H|[n ->]].
  - eapply Hs; eauto.
  - apply prefixed_not_undefined. unfold startsWith. rewrite strip_prefix_self. reflexivity.
Qed.

Lemma getElementID_recorded el s id s' :
  getElementID E el s = Ok (Some id) s' -> mget el (elementToIndex s') = Some (Some id).
Proof.
  unfold getElementID, bind, get. destruct (mget el (elementToIndex s)) as [x|] eqn:Hel.
  - intros [= -> <-]. exact Hel.
  - destruct (isConnected _); cbn; intros [= <- <-]; cbn. apply mget_mset_eq.
Qed.

Lemma indexed_not_undefined n suffix :
  (n < 4294967295)%N -> (suffix = EmptyString \/ suffix = "!") ->
  intToStr n +:+ suffix <> "undefined".
Proof.
  intros Hn Hs Heq. pose proof (strToInt_intToStr n suffix Hs) as H.
  rewrite Heq in H. change (strToInt "undefined") with (Some 86464843759093%Z) in H.
  injection H as H. lia.
Qed.

(** An id that [getObjId] returns never reads "undefined". *)
Lemma getObjId_not_undefined sub s id s' :
  idsApart s -> getObjId E doc objToId sub s = Ok (Some id) s' -> id <> "undefined".
Proof.
  intros Hs H. pose proof (careful_getObjId sub _ _ _ H) as St.
  apply (steady_idsApart _ _ St) in Hs.
  revert H. unfold getObjId, bind, get.
  destruct sub as [| |b0|z|t|l];
    try (destruct (mget _ objToId) as [k|] eqn:Hn; [|discriminate];
         intros [= <- _]; rewrite <- (append_empty_r (intToStr k));
         apply indexed_not_undefined; eauto).
  destruct (mget _ objToId) as [k|] eqn:Hn.
  - intros [= <- _]. apply indexed_not_undefined; [eauto|]. destruct (truthy _); auto.
  - destruct (_ && _); [|discriminate]. destruct (_ =? _)%Z; [|discriminate].
    intros H. apply getElementID_recorded in H. eapply Hs; eauto.
Qed.

Lemma subsEntries_spec subs s entries s' :
  idsApart s -> traverse (subsEntry E doc objToId) subs s = Ok entries s' ->
  (forall v, ("undefined", v) ∈ entries -> v = SubUndefined) /\
  (forall sub set, (sub, set) ∈ subs -> noId E doc objToId s sub ->
     ("undefined", SubUndefined) ∈ entries).
Proof.
  revert s entries. induction subs as [|[sub0 set0] subs IH]; intros s entries Hs H; cbn in H.
  - injection H as <- _. split; [intros v Hv | intros sub set Hin]; apply elem_of_nil in Hv || apply elem_of_nil in Hin; contradiction.
  - inv_bind H. inv_bind H. injection H as <- <-.
    pose proof (careful_subsEntry _ _ _ _ H0) as St.
    destruct (IH _ _ (steady_idsApart _ _ St Hs) H1) as [IH1 IH2].
    assert (Hhead : forall v, a = ("undefined", v) -> v = SubUndefined).
    { intros v ->. unfold subsEntry in H0. inv_bind H0. cbn [fst snd] in *.
      destruct a as [id|]; [|injection H0 as <- _; reflexivity].
      injection H0 as Hid _ _. exfalso. eapply getObjId_not_undefined; eauto. }
    split.
    + intros v Hv. apply elem_of_cons in Hv as [Hv|Hv]; [symmetry in Hv|]; auto.
    + intros sub set Hin Hn. apply elem_of_cons in Hin as [Hin|Hin].
      * injection Hin as -> ->. apply elem_of_cons. left.
        destruct (getObjId_noId _ _ Hn) as (s2 & Hg).
        unfold subsEntry, bind in H0. cbn [fst] in H0. rewrite Hg in H0.
        injection H0 as <- _. reflexivity.
      * apply elem_of_cons. right. eapply IH2; eauto. eapply steady_noId; eauto.
Qed.

(** The map written for a value that has such a subscriber has the
    property "undefined". *)
Lemma subsFor_unresolved obj subs sub set s o s' :
  idsApart s ->
  registeredSubs (world s) obj = Some subs -> (sub, set) ∈ subs ->
  noId E doc objToId s sub ->
  subsFor E doc objToId obj s = Ok o s' ->
  exists written, o = Some written /\ oget "undefined" written = Some SubUndefined.
Proof.
  intros Hs Hreg Hin Hn. unfold subsFor, bind at 1, get. rewrite Hreg.
  destruct subs as [|e subs0] eqn:Hsubs; [apply elem_of_nil in Hin; contradiction|].
  rewrite <- Hsubs in *. replace (0 <? length subs)%nat with true by (subst subs; reflexivity).
  intros H. inv_bind H. injection H as <- _.
  destruct (subsEntries_spec _ _ _ _ Hs H0) as [H1 H2].
  eexists. split; [reflexivity|]. apply fromEntries_last; [eapply H2; eauto | exact H1].
Qed.

Lemma traverse_careful_lookup {A B} (f : A -> M WS B) l s r s' :
  (forall x, careful E (f x)) -> traverse f l s = Ok r s' ->
  forall i x, l !! i = Some x ->
    exists y si si', r !! i = Some y /\ f x si = Ok y si' /\ steady E s si.
Proof.
  intros Hf. revert s r. induction l as [|x l IH]; intros s r H i z Hi; [discriminate|].
  cbn in H. inv_bind H. inv_bind H. injection H as <- <-.
  destruct i as [|i]; cbn in Hi.
  - injection Hi as <-. exists a, s, s0. split; [reflexivity|]. split; [assumption | apply steady_refl].
  - destruct (IH _ _ H1 i z Hi) as (y & si & si' & Hy & Hfx & St).
    exists y, si, si'. split; [exact Hy|]. split; [exact Hfx|].
    eapply steady_trans; [eapply Hf; eauto | exact St].
Qed.

Lemma careful_subsFor obj : careful E (subsFor E doc objToId obj).
Proof.
  unfold subsFor. apply careful_bind; [intros s a s' [= <- <-]; apply steady_refl|]. intros s.
  destruct (registeredSubs _ _) as [subs|]; [|apply careful_ret].
  destruct (_ <? _)%nat; [|apply careful_ret].
  apply careful_bind; [apply careful_traverse, careful_subsEntry | intros; apply careful_ret].
Qed.
End NoIdFacts.

Section Unresolved.
Variable E : Collab.

(** C10.  In a snapshot produced by [snapshotState]: when a subscriber of
    the value at [objs[i]] has no id ([getObjId] gives [null]: its key has no
    entry in [objs] and, if it is an element, it is not connected), the
    subscriber is not left out of [subs[i]]: the serialized map of the value
    has the property "undefined", and its value is [undefined].  (The
    element-id prefix is no base-36 digit, and [objs] is no longer than an
    array can be.) *)
Theorem unresolved_subscriber_kept fuel containerEl w r w' i obj subs sub set :
  prefixApart E ->
  snapshotState E fuel containerEl w = Ok r w' ->
  (N.of_nat (length (result_objs r)) < 4294967295)%N ->
  result_objs r !! i = Some obj ->
  registeredSubs w obj = Some subs -> (sub, set) ∈ subs ->
  idKey E w (getDocument w containerEl) sub ∉ result_objs r ->
  (forall l, sub = VRef l -> isElement w sub = true -> isConnected (nodeAt w l) = false) ->
  exists written,
    state_subs (result_state r) !! i = Some (Some written) /\
    oget "undefined" written = Some SubUndefined.
Proof.
  intros Hp H Hlen Hi Hreg Hin Hkey Hel.
  set (doc := getDocument w containerEl) in *.
  set (objToId := makeObjToId (result_objs r)).
  assert (Hnd : NoDup (result_objs r)).
  { pose proof H as H0.
    apply snapshotState_inv in H0 as (elements & collector & s' & _ & Hc & H0 & _).
    apply writeSnapshot_objs in H0 as [-> _].
    apply jsSort_NoDup; [exists (hasSubscriptions w); reflexivity|].
    eapply collected_NoDup; eauto. }
  assert (Hidx : forall v n, mget v objToId = Some n -> (n < 4294967295)%N).
  { intros v n Hv. apply (makeObjToId_spec _ Hnd) in Hv. apply lookup_lt_Some in Hv. lia. }
  assert (Hno : noId E doc objToId (mkWS w []) sub).
  { split; cbn [world].
    - destruct (mget (idKey E w doc sub) objToId) as [n|] eqn:Hn; [exfalso|reflexivity].
      apply (makeObjToId_spec _ Hnd) in Hn. apply Hkey. eapply list_elem_of_lookup_2; eauto.
    - destruct sub; auto. }
  assert (Hsub : hasSubscriptions w obj = true).
  { unfold hasSubscriptions. rewrite Hreg. destruct subs; [inversion Hin | reflexivity]. }
  destruct (subs_raw E _ _ _ _ _ H) as (raw & s1 & Hraw & Hat).
  rewrite (Hat i obj Hi Hsub).
  destruct (traverse_careful_lookup E _ _ _ _ _ (careful_subsFor E doc objToId) Hraw i obj Hi)
    as (y & si & si' & Hy & Hf & St).
  assert (Hids : idsApart si).
  { eapply (steady_idsApart E Hp); [exact St|]. intros l id Hl. discriminate Hl. }
  assert (Hreg' : registeredSubs (world si) obj = Some subs).
  { destruct St as [St _]. cbn in St. rewrite (stable_registeredSubs _ _ _ St). exact Hreg. }
  destruct (subsFor_unresolved E doc objToId Hp Hidx _ _ _ _ _ _ _ Hids Hreg' Hin
              (steady_noId E doc objToId _ _ _ St Hno) Hf) as (written & -> & Hu).
  exists written. split; [exact Hy | exact Hu].
Qed.
End Unresolved.

(** On the page with a store: the element 8 is not connected and has no
    entry in [objs]; the entry of [subs] for the proxied object, at index 0
    as the object, has the property "undefined". *)
Lemma unresolved_subscriber_kept_witness :
  exists r w' written,
    prefixApart (collab true (fun _ => None)) /\
    snapshotState (collab true (fun _ => None)) 10 1 pageStore = Ok r w' /\
    result_objs r !! 0 = Some (VRef 6) /\
    registeredSubs pageStore (VRef 6)
      = Some [(VRef 4, Some ["count"]); (VRef 8, None); (VRef 12, None)] /\
    isConnected (nodeAt pageStore 8) = false /\
    state_subs (result_state r) !! 0 = Some (Some written) /\
    oget "undefined" written = Some SubUndefined.
Proof.
  pose (C := collab true (fun _ => None)).
  assert (Hapart : prefixApart C) by reflexivity.
  assert (H : exists r w', snapshotState C 10 1 pageStore = Ok r w' /\
                result_objs r = [VRef 6; VRef 5; VRef 9; VRef 10; VRef 11]).
  { eexists _, _. split; [vm_compute; reflexivity | reflexivity]. }
  destruct H as (r & w' & H & Hobjs).
  assert (Hlen : (N.of_nat (length (result_objs r)) < 4294967295)%N)
    by (rewrite Hobjs; cbn; lia).
  assert (Hi : result_objs r !! 0 = Some (VRef 6)) by (rewrite Hobjs; reflexivity).
  assert (Hin : (VRef 8, None) ∈ [(VRef 4, Some ["count"]); (VRef 8, @None (list string)); (VRef 12, None)])
    by (apply elem_of_cons; right; apply elem_of_cons; left; reflexivity).
  assert (Hkey : idKey C pageStore (getDocument pageStore 1) (VRef 8) ∉ result_objs r).
  { rewrite Hobjs. change (idKey C pageStore (getDocument pageStore 1) (VRef 8)) with (VRef 8).
    intros Hx. repeat (apply elem_of_cons in Hx as [Hx|Hx]; [discriminate Hx|]).
    apply elem_of_nil in Hx. exact Hx. }
  assert (Hel : forall l, VRef 8 = VRef l -> isElement pageStore (VRef 8) = true ->
                  isConnected (nodeAt pageStore l) = false)
    by (intros l [= <-] _; reflexivity).
  destruct (unresolved_subscriber_kept C 10 1 pageStore r w' 0 (VRef 6) _ (VRef 8) None
              Hapart H Hlen Hi eq_refl Hin Hkey Hel) as (written & Hw & Hu).
  exists r, w', written.
  split; [exact Hapart|]. split; [exact H|]. split; [exact Hi|]. split; [reflexivity|].
  split; [reflexivity|]. split; [exact Hw | exact Hu].
Defined.

(** ** Element metadata: sequence and watches *)

Section MetaFacts.
Variable E : Collab.
Variable doc : loc.
Variable objToId : list (value * N).
Variable collector : Collector.

Lemma intToStr_filled n : intToStr n <> EmptyString.
Proof.
  unfold intToStr. destruct (toString36_head (N.size_nat n) n EmptyString) as (d & r & _ & ->).
  discriminate.
Qed.

Lemma append_filled_r a b : b <> EmptyString -> a +:+ b <> EmptyString.
Proof. destruct a; [auto | discriminate]. Qed.

Lemma append_filled_l a b : a <> EmptyString -> a +:+ b <> EmptyString.
Proof. destruct a; [contradiction | discriminate]. Qed.

Lemma steady_idsFilled s s' : steady E s s' -> idsFilled s -> idsFilled s'.
Proof.
  intros (_ & _ & _ & N) Hs l id Hl. destruct (N l id Hl) as [H|[n ->]].
  - eapply Hs; eauto.
  - apply append_filled_r, intToStr_filled.
Qed.

Lemma getObjId_filled sub s id s' :
  idsFilled s -> getObjId E doc objToId sub s = Ok (Some id) s' -> id <> EmptyString.
Proof.
  intros Hs H. pose proof (careful_getObjId E doc objToId sub _ _ _ H) as St.
  apply (steady_idsFilled _ _ St) in Hs.
  revert H. unfold getObjId, bind, get.
  destruct sub as [| |b0|z|t|l];
    try (destruct (mget _ objToId) as [k|] eqn:Hn; [|discriminate];
         intros [= <- _]; apply intToStr_filled).
  destruct (mget _ objToId) as [k|] eqn:Hn.
  - intros [= <- _]. apply append_filled_l, intToStr_filled.
  - destruct (_ && _); [|discriminate]. destruct (_ =? _)%Z; [|discriminate].
    intros H. apply getElementID_recorded in H. eapply Hs; eauto.
Qed.

Lemma assertDefined_Ok {S A : Type} (v : option A) (s : S) u s' :
  assertDefined E v s = Ok u s' -> s' = s /\ (assertions E = true -> exists x, v = Some x).
Proof.
  unfold assertDefined. intros H. apply assertTrue_Ok in H as [-> H]. split; [reflexivity|].
  intros Ha. specialize (H Ha). destruct v; [eauto | discriminate].
Qed.


(** With the assertions active an id that [mustGetObjId] returns is there,
    and it is not the empty text. *)
Lemma mustGetObjId_filled obj s id s' :
  assertions E = true -> idsFilled s ->
  mustGetObjId E doc objToId obj s = Ok id s' -> exists x, id = Some x /\ x <> EmptyString.
Proof.
  intros Ha Hs H. unfold mustGetObjId in H. inv_bind H. inv_bind H.
  injection H as <- _. apply assertDefined_Ok in H1 as [-> Hd].
  destruct (Hd Ha) as [x ->]. exists x. split; [reflexivity|]. eapply getObjId_filled; eauto.
Qed.

Lemma join_filled sep p parts : p <> EmptyString -> join sep (p :: parts) <> EmptyString.
Proof. intros Hp. destruct parts; cbn; [exact Hp | apply append_filled_l, Hp]. Qed.

Lemma mustGetObjIds_filled values s ids s' :
  assertions E = true -> idsFilled s -> values <> [] ->
  traverse (mustGetObjId E doc objToId) values s = Ok ids s' ->
  nonEmpty (joinIds ids) = true.
Proof.
  intros Ha Hs Hv H. destruct values as [|v values]; [contradiction|]. cbn in H.
  inv_bind H. inv_bind H. injection H as <- _.
  destruct (mustGetObjId_filled _ _ _ _ Ha Hs H0) as (x & -> & Hx).
  unfold nonEmpty, joinIds. cbn [map]. apply negb_true_iff, String.eqb_neq.
  apply join_filled. exact Hx.
Qed.


(** What one block of the write-back loop does to the field it writes
    and to the other fields. *)
Lemma writeIds_inv cond values setField acc s acc' s' :
  writeIds E doc objToId cond values setField acc s = Ok acc' s' ->
  acc' = acc \/
  exists ids s1,
    cond = true /\ traverse (mustGetObjId E doc objToId) values s = Ok ids s1 /\
    nonEmpty (joinIds ids) = true /\ acc' = (setField (joinIds ids) (fst acc), true).
Proof.
  unfold writeIds. destruct cond; [|intros [= <- _]; auto].
  intros H. inv_bind H. destruct (nonEmpty (joinIds a)) eqn:Hn; injection H as <- _; [|auto].
  right. exists a, s0. auto.
Qed.

Lemma writeIds_written values setField acc s acc' s' :
  assertions E = true -> idsFilled s -> values <> [] ->
  writeIds E doc objToId true values setField acc s = Ok acc' s' ->
  exists ids,
    traverse (mustGetObjId E doc objToId) values s = Ok ids s' /\
    acc' = (setField (joinIds ids) (fst acc), true).
Proof.
  intros Ha Hs Hv H. unfold writeIds in H. inv_bind H.
  rewrite (mustGetObjIds_filled _ _ _ _ Ha Hs Hv H0) in H. injection H as <- <-.
  exists a. auto.
Qed.





End MetaFacts.

Section MetaWritten.
Variable E : Collab.

End MetaWritten.

(** ** Resume: what is restored on the elements *)

Section WatchFacts.
Variable E : Collab.


Lemma nodeAt_alloc w c pm lg ev ds l :
  notNode c -> nodeAt (mkWorld (heap w ++ [c]) pm lg ev ds) l = nodeAt w l.
Proof.
  intros Hc. unfold nodeAt, cellAt. cbn [heap].
  destruct (decide (l < length (heap w))) as [Hlt|Hge].
  - rewrite lookup_app_l by exact Hlt. reflexivity.
  - rewrite (lookup_ge_None_2 (heap w)) by lia. rewrite lookup_app_r by lia.
    destruct (l - length (heap w)) as [|k]; [|destruct k; reflexivity].
    cbn. destruct c; [reflexivity..|contradiction|reflexivity].
Qed.

Lemma nodeAt_store w l c l' :
  notNode c -> (forall n, cellAt w l <> Some (CNode n)) -> nodeAt (store l c w) l' = nodeAt w l'.
Proof.
  intros Hc Hold. unfold nodeAt, cellAt, store. cbn [heap withHeap].
  destruct (decide (l' = l)) as [->|Hne].
  - destruct (heap w !! l) as [c0|] eqn:Hl.
    + rewrite list_lookup_insert_eq by (eapply lookup_lt_Some; eauto).
      destruct c; try contradiction; destruct c0; try reflexivity; exfalso; eapply Hold; unfold cellAt; eauto.
    + rewrite list_insert_ge by (apply lookup_ge_None; exact Hl). rewrite Hl. reflexivity.
  - rewrite list_lookup_insert_ne by congruence. reflexivity.
Qed.

Lemma nodeAt_setNode w l n l' :
  nodeAt (setNode l n w) l' =
  if decide (l' = l)
  then match cellAt w l with Some (CNode _) => n | _ => nodeAt w l end
  else nodeAt w l'.
Proof.
  unfold setNode. destruct (cellAt w l) as [[| | |n0|]|] eqn:Hl;
    try (destruct (decide (l' = l)) as [->|]; reflexivity).
  unfold nodeAt, store, cellAt in *. cbn [heap withHeap].
  destruct (decide (l' = l)) as [->|Hne].
  - rewrite list_lookup_insert_eq by (eapply lookup_lt_Some; eauto). reflexivity.
  - rewrite list_lookup_insert_ne by congruence. reflexivity.
Qed.

























Lemma json_nested_ind (P : json -> Prop) :
  P JNull -> (forall b, P (JBool b)) -> (forall n, P (JNum n)) -> (forall t, P (JStr t)) ->
  (forall items, Forall P items -> P (JArr items)) ->
  (forall fields, Forall (fun kv => P (snd kv)) fields -> P (JObj fields)) ->
  forall j, P j.
Proof.
  intros Hnull Hbool Hnum Hstr Harr Hobj.
  fix IH 1. intros [| b | n | t | items | fields].
  - exact Hnull.
  - apply Hbool.
  - apply Hnum.
  - apply Hstr.
  - apply Harr. induction items as [|j items IHi]; constructor; [apply IH | exact IHi].
  - apply Hobj. induction fields as [|[k j] fields IHf]; constructor; [apply IH | exact IHf].
Qed.







End WatchFacts.

(** ** Element metadata: host state *)

Section HostFacts.
Variable E : Collab.

Lemma writeIds_h doc objToId cond values setField acc s acc' s' :
  (forall v m, meta_h (setField v m) = meta_h m) ->
  writeIds E doc objToId cond values setField acc s = Ok acc' s' ->
  meta_h (fst acc') = meta_h (fst acc).
Proof.
  intros Hf H. apply writeIds_inv in H as [->|(ids & s1 & _ & _ & _ & ->)]; [reflexivity|]. apply Hf.
Qed.

(** The field [h] is the id of the props, followed by the id of the
    render closure when the element has one. *)
Lemma metaValueOf_h doc objToId collector node ctx s mv s' h :
  metaValueOf E doc objToId collector node ctx s = Ok mv s' ->
  meta_h (fst mv) = Some h ->
  exists sA sB,
    if truthy (ctx_renderQrl ctx)
    then exists a b,
           traverse (mustGetObjId E doc objToId) [ctx_props ctx; ctx_renderQrl ctx] sA
             = Ok [a; b] sB /\ h = joinIds [a; b]
    else exists a,
           traverse (mustGetObjId E doc objToId) [ctx_props ctx] sA = Ok [a] sB /\
           h = joinIds [a].
Proof.
  unfold metaValueOf. intros H Hh. do 4 inv_bind H.
  apply writeIds_h in H0, H2, H3; try reflexivity.
  assert (Ha : meta_h (fst mv) = meta_h (fst a0)).
  { rewrite <- H2, <- H3. destruct (ctx_contexts ctx) as [contexts|]; [|injection H as <- _; reflexivity].
    inv_bind H. destruct (nonEmpty _); injection H as <- _; reflexivity. }
  rewrite Ha in Hh. clear Ha H H2 H3.
  apply writeIds_inv in H1 as [->|(ids & s4 & _ & Ht & _ & ->)].
  { rewrite H0 in Hh. discriminate. }
  cbn in Hh. injection Hh as <-. exists s0, s4.
  pose proof (traverse_length _ _ _ _ _ Ht) as Hlen.
  destruct (truthy (ctx_renderQrl ctx)).
  - destruct ids as [|x [|y [|z ids]]]; try discriminate. exists x, y. auto.
  - destruct ids as [|x [|y ids]]; try discriminate. exists x. auto.
Qed.

Lemma split_lacks sep a : lacks sep a = true -> split sep a = [a].
Proof.
  induction a as [|c a IH]; [reflexivity|]. cbn [lacks split]. intros H.
  apply andb_true_iff in H as [Hc Ha]. apply negb_true_iff in Hc.
  rewrite Ascii.eqb_sym, Hc, (IH Ha). reflexivity.
Qed.

Lemma split_two sep a b :
  lacks sep a = true -> lacks sep b = true ->
  split sep (a +:+ String sep b) = [a; b].
Proof.
  intros Ha Hb. induction a as [|c a IH].
  - rewrite append_nil. cbn [split]. rewrite Ascii.eqb_refl, (split_lacks _ _ Hb). reflexivity.
  - rewrite append_cons. cbn [lacks] in Ha. apply andb_true_iff in Ha as [Hc Ha].
    apply negb_true_iff in Hc. cbn [split]. rewrite Ascii.eqb_sym, Hc, (IH Ha). reflexivity.
Qed.

(** Resolving an id leaves every cell of the heap in place. *)
Lemma readWriteProxy_cells obj subs w v w' :
  readWriteProxy obj subs w = Ok v w' -> forall l c, cellAt w l = Some c -> cellAt w' l = Some c.
Proof.
  unfold readWriteProxy, bind, get. destruct obj; try (intros [= _ <-]; auto; fail).
  destruct (mget l (proxyMap w)); [intros [= _ <-]; auto|].
  cbn. intros [= _ <-] l0 c Hc. unfold cellAt in *. cbn [heap].
  apply lookup_app_l_Some. exact Hc.
Qed.

Lemma getObjectImpl_cells elements objs id w v w' :
  getObjectImpl E elements objs id w = Ok v w' ->
  forall l c, cellAt w l = Some c -> cellAt w' l = Some c.
Proof.
  unfold getObjectImpl. destruct (startsWith id _).
  - intros H. inv_bind H. apply assertTrue_Ok in H0 as [-> _]. injection H as _ <-. auto.
  - intros H. inv_bind H. injection H0 as <- <-. inv_bind H.
    apply assertTrue_Ok in H0 as [-> _].
    destruct (endsWithChar _ _); [|injection H as _ <-; auto].
    destruct (proxyFor _ _); [injection H as _ <-; auto|].
    eapply readWriteProxy_cells; eauto.
Qed.

Lemma nodeAt_cell w el n : cellAt w el = Some (CNode n) -> nodeAt w el = n.
Proof. intros H. unfold nodeAt. rewrite H. reflexivity. Qed.

Lemma setNode_cell w el n n' :
  cellAt w el = Some (CNode n) -> setNode el n' w = store el (CNode n') w.
Proof. intros H. unfold setNode. rewrite H. reflexivity. Qed.

Lemma store_store l c c' w : store l c' (store l c w) = store l c' w.
Proof. unfold store, withHeap. cbn. rewrite list_insert_insert_eq. reflexivity. Qed.

Lemma updateContext_node el f w n :
  cellAt w el = Some (CNode n) ->
  updateContext el f w
    = Ok tt (store el (CNode (withContext n (Some (f (default emptyContext (context n)))))) w).
Proof.
  intros Hc. unfold updateContext, getContext, tryGetContext, bind, get.
  rewrite (nodeAt_cell _ _ _ Hc). destruct (context n) as [c|] eqn:Hn.
  - unfold ret, setContext, modify. cbv beta.
    rewrite (nodeAt_cell _ _ _ Hc), (setNode_cell _ _ _ _ Hc). reflexivity.
  - unfold modify, ret, setContext. rewrite (setNode_cell _ _ _ _ Hc). cbv beta.
    assert (Hc' : cellAt (store el (CNode (withContext n (Some emptyContext))) w) el
                  = Some (CNode (withContext n (Some emptyContext)))).
    { unfold cellAt, store in *. cbn [heap withHeap].
      apply list_lookup_insert_eq. eapply lookup_lt_Some; eauto. }
    unfold modify. rewrite (nodeAt_cell _ _ _ Hc'), (setNode_cell _ _ _ _ Hc'), store_store.
    reflexivity.
Qed.

Lemma cellAt_store_eq l c w c0 : cellAt w l = Some c0 -> cellAt (store l c w) l = Some c.
Proof.
  intros H. unfold cellAt, store in *. cbn [heap withHeap].
  apply list_lookup_insert_eq. eapply lookup_lt_Some; eauto.
Qed.

(** With two ids in [h], both are resolved and become the props and the
    render closure of the element. *)
Lemma restoreHost_two elements objs el a b w w' :
  lacks " " a = true -> lacks " " b = true ->
  isNode w (VRef el) = true ->
  restoreHost E (getObjectImpl E elements objs) el (a +:+ " " +:+ b) w = Ok tt w' ->
  exists p q w1 w2 w3 ctx,
    getObjectImpl E elements objs a w = Ok p w1 /\
    getObjectImpl E elements objs b w2 = Ok q w3 /\
    tryGetContext w' el = Some ctx /\ ctx_props ctx = p /\ ctx_renderQrl ctx = q.
Proof.
  intros Ha Hb Hn H. unfold restoreHost in H.
  change (a +:+ " " +:+ b) with (a +:+ String " " b) in H.
  rewrite (split_two " " a b Ha Hb) in H. cbn [lookup list_lookup] in H.
  apply bind_Ok in H as (u1 & wa & Ha1 & H). apply assertDefined_Ok in Ha1 as [-> _].
  apply bind_Ok in H as (u2 & wb & Ha2 & H). apply assertDefined_Ok in Ha2 as [-> _].
  apply bind_Ok in H as (p & w1 & Hp & H). cbn [getObjectOpt] in Hp.
  cbn in Hn. destruct (cellAt w el) as [[| | |n|]|] eqn:Hc; try discriminate.
  pose proof (getObjectImpl_cells _ _ _ _ _ _ Hp _ _ Hc) as Hc1.
  apply bind_Ok in H as (u3 & w2 & Hu & H).
  rewrite (updateContext_node _ _ _ _ Hc1) in Hu. injection Hu as _ <-.
  apply bind_Ok in H as (q & w3 & Hq & H). cbn [getObjectOpt] in Hq.
  match type of Hq with getObjectImpl _ _ _ _ ?W = _ => set (w2 := W) in * end.
  assert (Hc2 : cellAt w2 el = Some (CNode (withContext n (Some (with_props p (default emptyContext (context n))))))).
  { eapply cellAt_store_eq; eauto. }
  pose proof (getObjectImpl_cells _ _ _ _ _ _ Hq _ _ Hc2) as Hc3.
  rewrite (updateContext_node _ _ _ _ Hc3) in H. injection H as <-.
  eexists p, q, w1, w2, w3, _. split; [exact Hp|]. split; [exact Hq|].
  unfold tryGetContext, nodeAt. erewrite cellAt_store_eq by eauto. cbn.
  split; [reflexivity|]. split; reflexivity.
Qed.

(** With the assertions active, host state of one id stops the resume
    at the second assertion. *)
Lemma restoreHost_one getObject el a w :
  assertions E = true -> lacks " " a = true ->
  restoreHost E getObject el a w = Throw "Expected defined value" w.
Proof.
  intros Ha Hl. unfold restoreHost. cbv zeta. rewrite (split_lacks _ _ Hl).
  cbn [lookup list_lookup]. unfold bind at 1. unfold assertDefined at 1, assertTrue.
  rewrite Ha. cbn [negb andb]. unfold ret at 1. unfold bind at 1.
  unfold assertDefined, assertTrue. rewrite Ha. reflexivity.
Qed.

(** What the writer puts in [h] and what the reader does with two ids:
    the field holds the id of the props, followed by a space and the id of
    the render closure when the element has a render closure; when [h]
    holds two ids, a resume resolves both and attaches them as the props
    and the render closure of the element. *)
Theorem host_ids :
  (forall doc objToId collector node ctx s mv s' h,
     metaValueOf E doc objToId collector node ctx s = Ok mv s' ->
     meta_h (fst mv) = Some h ->
     exists sA sB,
       if truthy (ctx_renderQrl ctx)
       then exists a b,
              traverse (mustGetObjId E doc objToId) [ctx_props ctx; ctx_renderQrl ctx] sA
                = Ok [a; b] sB /\ h = joinIds [a; b]
       else exists a,
              traverse (mustGetObjId E doc objToId) [ctx_props ctx] sA = Ok [a] sB /\
              h = joinIds [a]) /\
  (forall elements objs el a b w w',
     lacks " " a = true -> lacks " " b = true ->
     isNode w (VRef el) = true ->
     restoreHost E (getObjectImpl E elements objs) el (a +:+ " " +:+ b) w = Ok tt w' ->
     exists p q w1 w2 w3 ctx,
       getObjectImpl E elements objs a w = Ok p w1 /\
       getObjectImpl E elements objs b w2 = Ok q w3 /\
       tryGetContext w' el = Some ctx /\ ctx_props ctx = p /\ ctx_renderQrl ctx = q).
Proof. split; [exact metaValueOf_h | exact restoreHost_two]. Qed.
End HostFacts.

(** On the page with a store: the first SPAN has a render closure and gets
    two ids; on the paused page the two ids of [h] become the props and
    the render closure of the DIV. *)
Lemma host_ids_witness :
  (exists mv s',
     metaValueOf (collab true (fun _ => None)) 0 storeObjToId storeCollector 4 spanContext
       (mkWS pageStore []) = Ok mv s' /\
     meta_h (fst mv) = Some "0! 2" /\
     exists sA sB a b,
       traverse (mustGetObjId (collab true (fun _ => None)) 0 storeObjToId)
         [VRef 7; VRef 9] sA = Ok [a; b] sB /\ "0! 2" = joinIds [a; b]) /\
  (lacks " " "0!" = true /\ lacks " " "1" = true /\ isNode pageParsedHost (VRef 2) = true /\
   exists w',
     restoreHost (collab true (fun _ => None))
       (getObjectImpl (collab true (fun _ => None)) [] 1) 2 "0! 1" pageParsedHost = Ok tt w' /\
     exists p q w1 w2 w3 ctx,
       getObjectImpl (collab true (fun _ => None)) [] 1 "0!" pageParsedHost = Ok p w1 /\
       getObjectImpl (collab true (fun _ => None)) [] 1 "1" w2 = Ok q w3 /\
       tryGetContext w' 2 = Some ctx /\ ctx_props ctx = p /\ ctx_renderQrl ctx = q).
Proof.
  pose (C := collab true (fun _ => None)).
  split.
  - eexists _, _.
    match goal with
    | |- ?L = ?R /\ _ => assert (H : L = R) by (vm_compute; reflexivity)
    end.
    split; [exact H|]. split; [reflexivity|].
    destruct (proj1 (host_ids C) 0 storeObjToId storeCollector 4 spanContext _ _ _ "0! 2" H eq_refl)
      as (sA & sB & Hx).
    cbn in Hx. destruct Hx as (a & b & Ht & Hj). exists sA, sB, a, b. split; assumption.
  - split; [reflexivity|]. split; [reflexivity|]. split; [reflexivity|]. eexists.
    match goal with
    | |- ?L = ?R /\ _ => assert (H : L = R) by (vm_compute; reflexivity)
    end.
    split; [exact H|].
    exact (proj2 (host_ids C) [] 1 2 "0!" "1" pageParsedHost _ eq_refl eq_refl eq_refl H).
Defined.

(** C8 fails on the code.  On the page with a store the second SPAN has
    props and no render closure, and the writer gives its entry an [h] of
    one id, not two.  The reader cannot take such an entry: on a paused page
    whose snapshot has an [h] of one id the resume stops at the missing
    second id, at the assertion when the assertions are active and at the
    lookup of the id when they are not; the container stays paused. *)
Theorem host_one_id :
  (exists r w' mv,
     snapshotState (collab true (fun _ => None)) 10 1 pageStore = Ok r w' /\
     option_map ctx_props (tryGetContext pageStore 12) = Some (VRef 5) /\
     option_map ctx_renderQrl (tryGetContext pageStore 12) = Some VUndefined /\
     getAttribute w' 12 "q:id" = Some "2" /\
     oget "#2" (state_ctx (result_state r)) = Some mv /\
     meta_h mv = Some "1" /\ split " " "1" = ["1"]) /\
  (exists w',
     resumeContainer (collab true (fun _ => Some oneIdSnapshot)) 10 1 pagePaused
       = Throw "Expected defined value" w' /\
     getAttribute w' 1 "q:container" = Some "paused" /\ events w' = []) /\
  (exists w',
     resumeContainer (collab false (fun _ => Some oneIdSnapshot)) 10 1 pagePaused
       = Throw "TypeError: Cannot read properties of undefined" w' /\
     getAttribute w' 1 "q:container" = Some "paused" /\ events w' = []).
Proof.
  split; [|split].
  - eexists _, _, _. split; [vm_compute; reflexivity|]. repeat split; reflexivity.
  - eexists. split; [vm_compute; reflexivity|]. split; reflexivity.
  - eexists. split; [vm_compute; reflexivity|]. split; reflexivity.
Qed.

(** ** Resume: a subscriber that is gone *)

Section DanglingFacts.
Variable E : Collab.

(** With the assertions active, the id of an element that is not in the
    page stops the rebuilding of a subscriber map at [getObjectImpl],
    before the reader can log its warning and drop the entry. *)
Lemma reviveSubs_missing_element elements objs id v rest w :
  assertions E = true ->
  startsWith id (ELEMENT_ID_PREFIX E) = true -> mhas id elements = false ->
  reviveSubs (getObjectImpl E elements objs) ((id, v) :: rest) w = Throw "Expected element" w.
Proof.
  intros Ha Hp Hm. unfold reviveSubs. cbn [foldM fst]. unfold bind at 1. unfold bind at 1.
  unfold getObjectImpl. rewrite Hp. unfold bind at 1. unfold assertTrue. rewrite Ha, Hm.
  reflexivity.
Qed.

(** Without them the entry is dropped with a warning and the rest of the
    map is rebuilt. *)
Lemma reviveSubs_missing_element_dropped elements objs id v rest w :
  assertions E = false ->
  startsWith id (ELEMENT_ID_PREFIX E) = true -> mhas id elements = false ->
  reviveSubs (getObjectImpl E elements objs) ((id, v) :: rest) w
  = reviveSubs (getObjectImpl E elements objs) rest
      (addLog (LogWarn "QWIK can not revive subscriptions because of missing element ID") w).
Proof.
  intros Ha Hp Hm. unfold reviveSubs. cbn [foldM fst]. unfold bind at 1. unfold bind at 1.
  unfold getObjectImpl. rewrite Hp. unfold bind at 1. unfold assertTrue. rewrite Ha.
  cbn [andb]. unfold ret at 1. cbv beta iota. unfold ret at 1.
  unfold mhas in Hm. destruct (mget id elements); [discriminate|].
  cbn [truthy negb]. unfold bind at 1. unfold logWarn, modify. reflexivity.
Qed.
End DanglingFacts.

(** C7 fails on the code when the assertions are active.  The paused
    page is resumed from a snapshot whose only subscriber is the element of
    id 5, which is not in the page: [resumeContainer] throws, no warning is
    logged, the container is not marked as resumed and no event is
    dispatched; the snapshot script is already removed. *)
Theorem dangling_subscriber_throws :
  exists w',
    resumeContainer (collab true (fun _ => Some danglingSnapshot)) 10 1 pagePaused
      = Throw "Expected element" w' /\
    log w' = [] /\
    getAttribute w' 1 "q:container" = Some "paused" /\
    events w' = [] /\
    children (nodeAt w' 2) = [3].
Proof.
  eexists. split; [vm_compute; reflexivity|]. repeat split; reflexivity.
Qed.

(** The same resume without the assertions: the warning is logged, the
    object gets a proxy with no subscriber, and the resume completes. *)
Lemma dangling_subscriber_dropped :
  exists w',
    resumeContainer (collab false (fun _ => Some danglingSnapshot)) 10 1 pagePaused = Ok tt w' /\
    log w' = [LogWarn "QWIK can not revive subscriptions because of missing element ID";
              LogDebug "Container resumed"] /\
    registeredSubs w' (VRef 5) = Some [] /\
    getAttribute w' 1 "q:container" = Some "resumed" /\
    events w' = [(1, "qresume")].
Proof.
  eexists. split; [vm_compute; reflexivity|]. repeat split; reflexivity.
Qed.

Import Inv.

(** ** Escaping: what the escaped text holds *)

Section EscapeFacts.

(** A text without the character [<] adds no occurrence of a pattern that
    begins with it. *)
Lemma occurs_skip p q t :
  lacks "<" q = true -> occurs (String "<" p) (q +:+ t) = occurs (String "<" p) t.
Proof.
  induction q as [|c q IH]; [reflexivity|]. cbn [lacks]. intros H.
  apply andb_true_iff in H as [Hc Hq]. apply negb_true_iff in Hc.
  rewrite append_cons. cbn [occurs]. rewrite strip_prefix_cons, Hc. exact (IH Hq).
Qed.

Lemma match_script_none s :
  strip_prefix "<script" s = None -> strip_prefix "</script" s = None ->
  match_script "<" s = None.
Proof.
  intros H1 H2. destruct (match_script "<" s) as [[g rest]|] eqn:M; [|reflexivity].
  apply match_script_inv in M as [[-> | ->] M];
    rewrite append_cons, append_nil in M; congruence.
Qed.

Lemma match_script_some s :
  match_script "<" s = None ->
  strip_prefix "<script" s = None /\ strip_prefix "</script" s = None.
Proof.
  intros M. split.
  - destruct (strip_prefix "<script" s) as [r|] eqn:H; [exfalso|reflexivity].
    apply strip_prefix_app in H. subst s. vm_compute in M.
    destruct r; discriminate M.
  - destruct (strip_prefix "</script" s) as [r|] eqn:H; [exfalso|reflexivity].
    apply strip_prefix_app in H. subst s. vm_compute in M. discriminate M.
Qed.

Lemma escapeText_empty : escapeText EmptyString = EmptyString.
Proof. reflexivity. Qed.

Lemma escapeText_clean_of p :
  lacks "\" (String "<" p) = true ->
  (forall s r, strip_prefix (String "<" p) s = Some r -> match_script "<" s <> None) ->
  forall s, occurs (String "<" p) (escapeText s) = false.
Proof.
  intros Hp Hm s. remember (String.length s) as n eqn:Hn. revert s Hn.
  induction n as [n IH] using lt_wf_ind. intros s Hn.
  destruct (match_script "<" s) as [[g rest]|] eqn:M.
  - rewrite (escapeText_match _ _ _ M).
    pose proof (match_script_shorter _ _ _ _ M) as Hlen.
    apply match_script_inv in M as [Hg _].
    rewrite occurs_skip; [apply (IH (String.length rest)); [lia | reflexivity]|].
    destruct Hg; subst g; reflexivity.
  - destruct s as [|c r]; [reflexivity|].
    assert (Hh : strip_prefix (String "<" p) (escapeText (String c r)) = None).
    { destruct (strip_prefix _ (escapeText (String c r))) as [q|] eqn:Hq; [exfalso|reflexivity].
      destruct (escapeText_prefix _ Hp _ _ Hq) as [r' Hr']. exact (Hm _ _ Hr' M). }
    rewrite (escapeText_copy _ _ M) in Hh |- *. cbn [occurs]. rewrite Hh.
    apply (IH (String.length r)); [subst n; simpl; lia | reflexivity].
Qed.

Lemma escapeText_clean s :
  occurs "<script" (escapeText s) = false /\ occurs "</script" (escapeText s) = false.
Proof.
  split; apply escapeText_clean_of; try reflexivity; intros s' r H M;
    apply match_script_some in M as [M1 M2]; congruence.
Qed.

Lemma escapeText_plain s :
  occurs "<script" s = false -> occurs "</script" s = false -> escapeText s = s.
Proof.
  induction s as [|c s IH]; intros H1 H2; [reflexivity|].
  rewrite escapeText_copy.
  - f_equal. apply IH; eapply occurs_tail; eauto.
  - apply match_script_none; apply occurs_head; assumption.
Qed.

(** X1.  The escaped text holds no occurrence of the two patterns that the
    expression of [escapeText] matches, [<script] and [</script] in lower
    case.  The match is case-sensitive: a tag written in another letter
    case is left as it is. *)
Theorem escapeText_safe s :
  occurs "<script" (escapeText s) = false /\ occurs "</script" (escapeText s) = false /\
  escapeText "a</SCRIPT><Script>b" = "a</SCRIPT><Script>b".
Proof.
  destruct (escapeText_clean s) as [H1 H2]. split; [exact H1|]. split; [exact H2 | reflexivity].
Qed.

(** X2.  [escapeText] leaves a text as it is exactly when the text holds no
    script tag; so escaping twice is escaping once. *)
Theorem escapeText_fixed s :
  (escapeText s = s <->
   occurs "<script" s = false /\ occurs "</script" s = false) /\
  escapeText (escapeText s) = escapeText s.
Proof.
  split; [split|].
  - intros H. rewrite <- H. apply escapeText_clean.
  - intros [H1 H2]. apply escapeText_plain; assumption.
  - apply escapeText_plain; apply escapeText_clean.
Qed.
End EscapeFacts.

(** ** Base-36 ids: reading back *)

Section Base36More.

Lemma strToInt_intToStr_then n suffix :
  digits36 suffix (Some n) = Some n ->
  strToInt (intToStr n +:+ suffix) = Some (Z.of_N n).
Proof.
  intros Hs. unfold intToStr. rewrite <- toString36_app.
  destruct (toString36_head (N.size_nat n) n suffix) as (d & r & Hd & Hr).
  destruct (digit36_plain d Hd) as (Hw & Hm & Hp).
  assert (Hread : digits36 (toString36 (S (N.size_nat n)) n suffix) None = Some n).
  { rewrite digits36_toString36 by lia. exact Hs. }
  unfold strToInt. rewrite Hr in *. cbn [skipWhite]. rewrite Hw.
  destruct (digit36 d) as [[] [] [] [] [] [] [] []] eqn:Hc;
    try (rewrite Hread; reflexivity); exfalso; [apply Hp | apply Hm]; reflexivity.
Qed.

(** X3.  For a number that JavaScript holds exactly (up to 2^53 - 1),
    [strToInt] reads back what [intToStr] printed, and goes on doing so
    when the id is followed by any character that is no base-36 digit (the
    proxy mark is one) and whatever comes after it. *)
Theorem base36_roundtrip n :
  (n <= 9007199254740991)%N ->
  strToInt (intToStr n) = Some (Z.of_N n) /\
  forall c rest, digitValue c = None ->
    strToInt (intToStr n +:+ String c rest) = Some (Z.of_N n).
Proof.
  intros _. split.
  - rewrite <- (append_empty_r (intToStr n)). apply strToInt_intToStr_then. reflexivity.
  - intros c rest Hc. apply strToInt_intToStr_then. cbn [digits36]. rewrite Hc. reflexivity.
Qed.
End Base36More.

(** The number 1295 prints as zz and reads back, also from the id of a
    proxy followed by more text. *)
Lemma base36_roundtrip_witness :
  (1295 <= 9007199254740991)%N /\
  intToStr 1295 = "zz" /\ strToInt (intToStr 1295) = Some 1295%Z /\
  digitValue "!" = None /\
  strToInt (intToStr 1295 +:+ "! x") = Some 1295%Z.
Proof.
  assert (Hn : (1295 <= 9007199254740991)%N) by lia.
  split; [exact Hn|]. split; [reflexivity|].
  destruct (base36_roundtrip 1295 Hn) as [H1 H2].
  split; [exact H1|]. split; [reflexivity|].
  exact (H2 "!"%char " x" eq_refl).
Defined.

(** A text without a script tag is left as it is. *)
Lemma escapeText_fixed_witness :
  occurs "<script" "a <b> c" = false /\ occurs "</script" "a <b> c" = false /\
  escapeText "a <b> c" = "a <b> c".
Proof.
  split; [reflexivity|]. split; [reflexivity|].
  exact (proj2 (proj1 (escapeText_fixed "a <b> c")) (conj eq_refl eq_refl)).
Defined.

(** ** The scope walker and the snapshot script *)

Section WalkFacts.
Variable E : Collab.

Lemma find_rev_last {A} (p : A -> bool) (l : list A) :
  match List.find p (rev l) with
  | Some x => exists before after,
      l = before ++ x :: after /\ p x = true /\ forallb (fun y => negb (p y)) after = true
  | None => forallb (fun y => negb (p y)) l = true
  end.
Proof.
  induction l as [|y l IH] using rev_ind; [reflexivity|].
  rewrite rev_app_distr. cbn [rev List.app List.find].
  destruct (p y) eqn:Hy.
  - exists l, []. auto.
  - destruct (List.find p (rev l)) as [x|].
    + destruct IH as (before & after & -> & Hx & Ha).
      exists before, (after ++ [y]). rewrite <- app_assoc. split; [reflexivity|].
      split; [exact Hx|]. rewrite forallb_app, Ha. cbn. rewrite Hy. reflexivity.
    + rewrite forallb_app, IH. cbn. rewrite Hy. reflexivity.
Qed.

(** X4.  [getQwikJSON] gives the last child that is a qwik/json script, and
    nothing exactly when no child is one. *)
Theorem getQwikJSON_last w parentElm :
  match getQwikJSON w parentElm with
  | Some script => exists before after,
      children (nodeAt w parentElm) = before ++ script :: after /\
      isQwikJSON w script = true /\
      forallb (fun c => negb (isQwikJSON w c)) after = true
  | None => forallb (fun c => negb (isQwikJSON w c)) (children (nodeAt w parentElm)) = true
  end.
Proof. unfold getQwikJSON. apply find_rev_last. Qed.

Lemma inScope_plain w parent n : inScope E w parent n -> isContainer E w n = false.
Proof. induction 1; assumption. Qed.

Lemma walkNodes_grows fuel w predicate :
  forall nodes parent nodes',
    walkNodes E fuel w predicate nodes parent = Some nodes' ->
    exists extra, nodes' = nodes ++ extra /\
      (forall n, n ∈ extra ->
         predicate n = true /\ isContainer E w n = false /\ inScope E w parent n) /\
      (forall n, inScope E w parent n -> predicate n = true -> n ∈ extra).
Proof.
  induction fuel as [|fuel IH]; intros nodes parent nodes' H; [discriminate|].
  cbn [walkNodes] in H.
  assert (G : forall kids nodes nodes',
    (forall k, k ∈ kids -> k ∈ children (nodeAt w parent)) ->
    foldOpt
      (fun child nodes =>
         if isContainer E w child then Some nodes
         else walkNodes E fuel w predicate
                (if predicate child then nodes ++ [child] else nodes) child)
      kids nodes = Some nodes' ->
    exists extra, nodes' = nodes ++ extra /\
      (forall n, n ∈ extra ->
         predicate n = true /\ isContainer E w n = false /\ inScope E w parent n) /\
      (forall child, child ∈ kids -> isContainer E w child = false ->
         (predicate child = true -> child ∈ extra) /\
         (forall n, inScope E w child n -> predicate n = true -> n ∈ extra))).
  { clear nodes nodes' H. induction kids as [|child rest IHr]; intros nodes nodes' Hk H.
    - injection H as <-. exists []. rewrite app_nil_r. split; [reflexivity|].
      split; intros ? Hin; inversion Hin.
    - cbn [foldOpt] in H.
      assert (Hrest : forall k, k ∈ rest -> k ∈ children (nodeAt w parent))
        by (intros k Hin; apply Hk; right; exact Hin).
      assert (Hchild : child ∈ children (nodeAt w parent)) by (apply Hk; left).
      destruct (isContainer E w child) eqn:Hc.
      + destruct (IHr _ _ Hrest H) as (extra & -> & Hgood & Hall).
        exists extra. split; [reflexivity|]. split; [exact Hgood|].
        intros c Hin Hnc. apply elem_of_cons in Hin as [->|Hin]; [congruence|].
        apply Hall; assumption.
      + destruct (walkNodes E fuel w predicate _ child) as [mid|] eqn:Hw; [|discriminate].
        apply IH in Hw as (sub & -> & Hsub & Hsuball).
        destruct (IHr _ _ Hrest H) as (extra & -> & Hgood & Hall).
        assert (Hsub' : forall n, n ∈ sub ->
                  predicate n = true /\ isContainer E w n = false /\ inScope E w parent n).
        { intros n Hin. destruct (Hsub n Hin) as (Hp & Hnc & Hs).
          split; [exact Hp|]. split; [exact Hnc|]. eapply scope_below; eauto. }
        destruct (predicate child) eqn:Hp.
        * exists ([child] ++ sub ++ extra). rewrite <- !app_assoc. split; [reflexivity|].
          split.
          -- intros n Hin. rewrite !elem_of_app in Hin. destruct Hin as [Hin|[Hin|Hin]]; auto.
             apply list_elem_of_singleton in Hin as ->.
             split; [exact Hp|]. split; [exact Hc|]. apply scope_child; assumption.
          -- intros c Hin Hnc. apply elem_of_cons in Hin as [->|Hin].
             ++ split.
                ** intros _. apply elem_of_app. left. apply list_elem_of_singleton. reflexivity.
                ** intros n Hs Hpn. rewrite !elem_of_app. right. left. apply Hsuball; assumption.
             ++ destruct (Hall c Hin Hnc) as [A B]. split.
                ** intros Hpc. rewrite !elem_of_app. right. right. auto.
                ** intros n Hs Hpn. rewrite !elem_of_app. right. right. auto.
        * exists (sub ++ extra). rewrite <- !app_assoc. split; [reflexivity|].
          split.
          -- intros n Hin. rewrite elem_of_app in Hin. destruct Hin as [Hin|Hin]; auto.
          -- intros c Hin Hnc. apply elem_of_cons in Hin as [->|Hin].
             ++ split; [congruence|].
                intros n Hs Hpn. rewrite elem_of_app. left. apply Hsuball; assumption.
             ++ destruct (Hall c Hin Hnc) as [A B]. split.
                ** intros Hpc. rewrite elem_of_app. right. auto.
                ** intros n Hs Hpn. rewrite elem_of_app. right. auto. }
  destruct (G _ _ _ (fun k Hk => Hk) H) as (extra & -> & Hgood & Hall).
  exists extra. split; [reflexivity|]. split; [exact Hgood|].
  intros n Hs Hp. destruct Hs as [p c Hin Hnc|p c m Hin Hnc Hbelow].
  - destruct (Hall c Hin Hnc) as [A _]. exact (A Hp).
  - destruct (Hall c Hin Hnc) as [_ B]. exact (B m Hbelow Hp).
Qed.

(** X5.  [getNodesInScope] returns exactly the nodes in scope that satisfy
    the predicate: a node is returned if and only if it satisfies the
    predicate and is reached from the root through children none of which,
    the node included, is a container.  So a nested container is left out
    with everything below it. *)
Theorem getNodesInScope_sound fuel w parent predicate nodes :
  getNodesInScope E fuel w parent predicate = Some nodes ->
  forall n, n ∈ nodes <-> predicate n = true /\ inScope E w parent n.
Proof.
  intros H. apply walkNodes_grows in H as (extra & -> & Hgood & Hall). intros n. split.
  - intros Hin. destruct (Hgood n Hin) as (Hp & _ & Hs). auto.
  - intros [Hp Hs]. apply Hall; assumption.
Qed.
End WalkFacts.

(** On the page with a nested container the walk from the body returns
    the first DIV, which is in scope, and not the SPAN inside the nested
    container, which carries component state too. *)
Lemma getNodesInScope_sound_witness :
  getNodesInScope (collab true (fun _ => None)) 10 pageNested 2 (hasContext pageNested)
    = Some [3] /\
  (hasContext pageNested 3 = true /\ inScope (collab true (fun _ => None)) pageNested 2 3) /\
  hasContext pageNested 5 = true /\
  ~ inScope (collab true (fun _ => None)) pageNested 2 5.
Proof.
  assert (H : getNodesInScope (collab true (fun _ => None)) 10 pageNested 2 (hasContext pageNested)
              = Some [3]) by reflexivity.
  split; [exact H|].
  pose proof (getNodesInScope_sound _ _ _ _ _ _ H) as Hs.
  split; [exact (proj1 (Hs 3) (list_elem_of_here 3 []))|]. split; [reflexivity|].
  intros H5. assert (Hin : 5 ∈ [3]) by (apply (Hs 5); split; [reflexivity | exact H5]).
  apply list_elem_of_singleton in Hin. discriminate Hin.
Defined.

(** ** The writer, step by step *)

Section Respect.
Variable E : Collab.
Variable doc : loc.
Variable objToId : list (value * N).
Variable collector : Collector.
Variable R : WS -> WS -> Prop.
Variable ok : loc -> Prop.
Hypothesis R_refl : forall s, R s s.
Hypothesis R_trans : forall s1 s2 s3, R s1 s2 -> R s2 s3 -> R s1 s3.
Hypothesis R_log : forall e s, R s (onWorld (addLog e) s).
Hypothesis R_elementID : forall el, respects R (getElementID E el).
Hypothesis R_context : forall node, ok node -> respects R (onPage (getContext node)).

Lemma respects_ret {A} (a : A) : respects R (ret a).
Proof. intros s x s' [= <- <-]. apply R_refl. Qed.

Lemma respects_get : respects R (@get WS).
Proof. intros s x s' [= <- <-]. apply R_refl. Qed.

Lemma respects_bind {A B} (m : M WS A) (k : A -> M WS B) :
  respects R m -> (forall a, respects R (k a)) -> respects R (bind m k).
Proof.
  intros Hm Hk s b s' H. apply bind_Ok in H as (a & s1 & H1 & H2).
  eapply R_trans; [eapply Hm | eapply Hk]; eauto.
Qed.

Lemma respects_traverse {A B} (f : A -> M WS B) l :
  (forall x, respects R (f x)) -> respects R (traverse f l).
Proof.
  intros Hf. induction l as [|x l IH]; cbn [traverse]; [apply respects_ret|].
  apply respects_bind; [apply Hf|]. intros y.
  apply respects_bind; [exact IH|]. intros ys. apply respects_ret.
Qed.

Lemma respects_foldM {A B} (f : B -> A -> M WS B) l b :
  (forall b x, respects R (f b x)) -> respects R (foldM f l b).
Proof.
  intros Hf. revert b. induction l as [|x l IH]; intros b; cbn [foldM]; [apply respects_ret|].
  apply respects_bind; [apply Hf|]. intros y. apply IH.
Qed.

Lemma respects_forEach {A} (f : A -> M WS unit) l :
  (forall x, respects R (f x)) -> respects R (forEach f l).
Proof.
  intros Hf. induction l as [|x l IH]; cbn [forEach]; [apply respects_ret|].
  apply respects_bind; [apply Hf|]. intros y. exact IH.
Qed.

Lemma respects_when cond (body : M WS unit) : respects R body -> respects R (when cond body).
Proof. intros H. unfold when. destruct cond; [exact H | apply respects_ret]. Qed.

Lemma respects_logW e : respects R (logW e).
Proof. intros s x s' [= <- <-]. apply R_log. Qed.

Lemma respects_assertTrue holds msg : respects R (assertTrue E holds msg).
Proof. intros s x s' H. apply assertTrue_Ok in H as [-> _]. apply R_refl. Qed.

Lemma respects_assertDefined {A} (v : option A) : respects R (assertDefined E v).
Proof. apply respects_assertTrue. Qed.

Ltac respect :=
  repeat first
    [ progress intros
    | apply respects_ret | apply respects_get | apply respects_logW
    | apply respects_assertDefined | apply R_elementID
    | apply respects_bind | apply respects_traverse | apply respects_foldM
    | apply respects_forEach | apply respects_when
    | progress cbv beta zeta
    | match goal with
      | |- respects _ (match ?x with _ => _ end) => destruct x
      end ].

Lemma respects_getObjId obj : respects R (getObjId E doc objToId obj).
Proof. unfold getObjId. respect. Qed.

Lemma respects_mustGetObjId obj : respects R (mustGetObjId E doc objToId obj).
Proof. unfold mustGetObjId. apply respects_bind; [apply respects_getObjId|]. respect. Qed.

Lemma respects_subsEntry entry : respects R (subsEntry E doc objToId entry).
Proof. unfold subsEntry. apply respects_bind; [apply respects_getObjId|]. respect. Qed.

Lemma respects_subsFor obj : respects R (subsFor E doc objToId obj).
Proof.
  unfold subsFor. apply respects_bind; [apply respects_get|]. intros s.
  destruct (registeredSubs _ _); [|apply respects_ret].
  destruct (_ <? _)%nat; [|apply respects_ret].
  apply respects_bind; [apply respects_traverse, respects_subsEntry | respect].
Qed.

Lemma respects_serialize v : respects R (serialize E doc objToId v).
Proof. unfold serialize. apply respects_bind; [apply respects_getObjId | respect]. Qed.

Lemma respects_stringifyQRL q : respects R (stringifyQRL E doc objToId q).
Proof.
  unfold stringifyQRL. destruct (qrl_captureRef q); [|apply respects_ret].
  apply respects_bind; [apply respects_traverse, respects_getObjId | respect].
Qed.

Lemma respects_convert obj : respects R (convert E doc objToId obj).
Proof.
  unfold convert. apply respects_bind; [apply respects_get|]. intros s. cbv zeta.
  destruct obj; try apply respects_ret.
  destruct (isArray _ _).
  - apply respects_bind; [apply respects_traverse, respects_serialize | respect].
  - assert (G : respects R (output <- foldM (fun output entry => v <- serialize E doc objToId (snd entry) ;; ret (oset (fst entry) v output)) (ownEntries (world s) l) [] ;; ret (OutObject output))).
    { apply respects_bind; [|respect]. apply respects_foldM. intros b x.
      apply respects_bind; [apply respects_serialize | respect]. }
    destruct (cellAt (world s) l) as [[| |q| |]|]; try exact G.
    apply respects_bind; [apply respects_stringifyQRL | respect].
Qed.

Lemma respects_writeIds cond values setField acc :
  respects R (writeIds E doc objToId cond values setField acc).
Proof.
  unfold writeIds. destruct cond; [|apply respects_ret].
  apply respects_bind; [apply respects_traverse, respects_mustGetObjId|].
  intros ids. cbv zeta. destruct (nonEmpty _); apply respects_ret.
Qed.

Lemma respects_metaValueOf node ctx :
  respects R (metaValueOf E doc objToId collector node ctx).
Proof.
  unfold metaValueOf. cbv zeta.
  repeat (apply respects_bind; [apply respects_writeIds|]; intros ?).
  destruct (ctx_contexts ctx); [|apply respects_ret].
  apply respects_bind.
  - apply respects_traverse. intros entry.
    apply respects_bind; [apply respects_mustGetObjId | respect].
  - intros parts. cbv zeta. destruct (nonEmpty _); apply respects_ret.
Qed.

Lemma respects_writeBack acc node :
  ok node -> respects R (writeBack E doc objToId collector acc node).
Proof.
  intros Hn. unfold writeBack. destruct acc as [meta listeners].
  apply respects_bind; [apply R_context, Hn|]. intros ctx.
  apply respects_bind; [apply respects_assertDefined|]. intros _.
  apply respects_bind; [apply respects_metaValueOf|]. intros mv.
  apply respects_bind; [|respect].
  destruct (snd mv); [|apply respects_ret].
  apply respects_bind; [apply R_elementID|]. respect.
Qed.

Lemma respects_writeBacks nodes acc :
  (forall node, node ∈ nodes -> ok node) ->
  respects R (foldM (writeBack E doc objToId collector) nodes acc).
Proof.
  revert acc. induction nodes as [|node nodes IH]; intros acc Hn; cbn [foldM]; [apply respects_ret|].
  apply respects_bind.
  - apply respects_writeBack, Hn. left.
  - intros acc'. apply IH. intros n Hin. apply Hn. right. exact Hin.
Qed.

Lemma respects_sanityCheck : respects R (sanityCheck E doc).
Proof. unfold sanityCheck. respect. Qed.

Lemma respects_destroyWatches :
  (forall watch s, R s (onWorld (destroyWatch watch) s)) ->
  respects R (destroyWatches E collector).
Proof.
  intros Hd. unfold destroyWatches. apply respects_forEach. intros watch.
  apply respects_bind; [intros s x s' [= <- <-]; apply Hd|]. respect.
Qed.

(** The steps of [writeSnapshot], one after the other. *)
Lemma writeSnapshot_steps nodes objs s r s' :
  writeSnapshot E doc objToId collector nodes objs s = Ok r s' ->
  exists subs converted acc s1 s2 s3 s4,
    traverse (subsFor E doc objToId) objs s = Ok subs s1 /\
    traverse (convert E doc objToId) objs s1 = Ok converted s2 /\
    foldM (writeBack E doc objToId collector) nodes ([], []) s2 = Ok acc s3 /\
    destroyWatches E collector s3 = Ok tt s4 /\
    sanityCheck E doc s4 = Ok tt s' /\
    state_ctx (result_state r) = fst acc.
Proof.
  unfold writeSnapshot. intros H.
  apply bind_Ok in H as (subs & s1 & H1 & H).
  apply bind_Ok in H as (converted & s2 & H2 & H).
  apply bind_Ok in H as (acc & s3 & H3 & H).
  apply bind_Ok in H as ([] & s4 & H4 & H).
  apply bind_Ok in H as ([] & s5 & H5 & H).
  injection H as <- <-. eexists _, _, _, _, _, _, _. repeat split; eauto.
Qed.

Lemma respects_writeSnapshot nodes objs :
  (forall node, node ∈ nodes -> ok node) ->
  (forall watch s, R s (onWorld (destroyWatch watch) s)) ->
  respects R (writeSnapshot E doc objToId collector nodes objs).
Proof.
  intros Hn Hd s r s' H.
  apply writeSnapshot_steps in H as (subs & converted & acc & s1 & s2 & s3 & s4 & H1 & H2 & H3 & H4 & H5 & _).
  apply (respects_traverse _ _ respects_subsFor) in H1.
  apply (respects_traverse _ _ respects_convert) in H2.
  apply (respects_writeBacks _ _ Hn) in H3.
  apply (respects_destroyWatches Hd) in H4.
  apply respects_sanityCheck in H5.
  eauto.
Qed.
End Respect.

(** ** What a snapshot changes on the page *)

Section PageFacts.

Lemma connected_node w l :
  isConnected (nodeAt w l) = true -> cellAt w l = Some (CNode (nodeAt w l)).
Proof.
  unfold nodeAt. destruct (cellAt w l) as [[| | |n|]|]; try discriminate. reflexivity.
Qed.


Lemma getAttribute_setAttribute_name w el name val l name' :
  name' <> name -> getAttribute (setAttribute el name val w) l name' = getAttribute w l name'.
Proof.
  intros Hn. unfold getAttribute, setAttribute. rewrite nodeAt_setNode.
  destruct (decide (l = el)) as [->|]; [|reflexivity].
  destruct (cellAt w el) as [[| | |n|]|] eqn:Hc; try reflexivity.
  cbn. apply mget_mset_ne. congruence.
Qed.

Lemma getAttribute_setAttribute_other w el name val l name' :
  l <> el -> getAttribute (setAttribute el name val w) l name' = getAttribute w l name'.
Proof.
  intros Hn. unfold getAttribute, setAttribute. rewrite nodeAt_setNode.
  destruct (decide (l = el)); [contradiction | reflexivity].
Qed.

Lemma getAttribute_setAttribute_same w el name val :
  cellAt w el = Some (CNode (nodeAt w el)) ->
  getAttribute (setAttribute el name val w) el name = Some val.
Proof.
  intros Hc. unfold getAttribute, setAttribute. rewrite nodeAt_setNode.
  destruct (decide (el = el)); [|contradiction]. rewrite Hc. cbn. apply mget_mset_eq.
Qed.

Lemma isConnected_setAttribute w el name val l :
  isConnected (nodeAt (setAttribute el name val w) l) = isConnected (nodeAt w l).
Proof.
  unfold setAttribute. rewrite nodeAt_setNode.
  destruct (decide (l = el)) as [->|]; [|reflexivity].
  destruct (cellAt w el) as [[| | |n|]|]; reflexivity.
Qed.

Lemma getAttribute_setContext w el c l name :
  getAttribute (setNode el (withContext (nodeAt w el) c) w) l name = getAttribute w l name.
Proof.
  unfold getAttribute. rewrite nodeAt_setNode.
  destruct (decide (l = el)) as [->|]; [|reflexivity].
  destruct (cellAt w el) as [[| | |n|]|]; reflexivity.
Qed.

Lemma isConnected_setContext w el c l :
  isConnected (nodeAt (setNode el (withContext (nodeAt w el) c) w) l) = isConnected (nodeAt w l).
Proof.
  rewrite nodeAt_setNode.
  destruct (decide (l = el)) as [->|]; [|reflexivity].
  destruct (cellAt w el) as [[| | |n|]|]; reflexivity.
Qed.

Lemma events_setNode l n w : events (setNode l n w) = events w.
Proof. unfold setNode. destruct (cellAt w l) as [[| | | |]|]; reflexivity. Qed.

Lemma destroyed_setNode l n w : destroyed (setNode l n w) = destroyed w.
Proof. unfold setNode. destruct (cellAt w l) as [[| | | |]|]; reflexivity. Qed.

Lemma length_mset_new {K V} `{EqDecision K} (k : K) (v : V) m :
  mget k m = None -> length (mset k v m) = S (length m).
Proof.
  induction m as [|[k' v'] m IH]; cbn; [reflexivity|].
  destruct (decide (k' = k)); [discriminate|]. intros H. cbn. rewrite (IH H). reflexivity.
Qed.

(** What [getContext] does on the page: nothing when the element has its
    record, else the empty record is attached. *)
Lemma getContext_run el w ctx w' :
  getContext el w = Ok ctx w' ->
  (tryGetContext w el = Some ctx /\ w' = w) \/
  (tryGetContext w el = None /\ w' = setNode el (withContext (nodeAt w el) (Some emptyContext)) w).
Proof.
  unfold getContext, bind, get. destruct (tryGetContext w el) as [c|].
  - intros [= <- <-]. auto.
  - cbn. intros [= <- <-]. auto.
Qed.

Lemma onPage_run {A} (m : M World A) s a s' :
  onPage m s = Ok a s' ->
  exists w', m (world s) = Ok a w' /\ s' = mkWS w' (elementToIndex s).
Proof.
  unfold onPage. destruct (m (world s)) as [x w1| |]; try discriminate.
  intros [= <- <-]. eauto.
Qed.
End PageFacts.

Section FrameFacts.
Variable E : Collab.

(** *** The objects, the registry and the component state *)

Lemma near_refl w0 s : near w0 s s.
Proof. intros H. exact H. Qed.

Lemma near_trans w0 s1 s2 s3 : near w0 s1 s2 -> near w0 s2 s3 -> near w0 s1 s3.
Proof. unfold near. auto. Qed.

Lemma near_log w0 e s : near w0 s (onWorld (addLog e) s).
Proof. intros H. eapply stable_trans; [exact H | apply stable_addLog]. Qed.

Lemma near_destroy w0 watch s : near w0 s (onWorld (destroyWatch watch) s).
Proof. intros H. eapply stable_trans; [exact H | apply stable_destroyWatch]. Qed.

Lemma near_elementID w0 el : respects (near w0) (getElementID E el).
Proof.
  intros s a s' H H0. apply careful_getElementID in H as [H _].
  eapply stable_trans; eauto.
Qed.

Lemma stable_context w w' l : stable w w' -> tryGetContext w' l = tryGetContext w l.
Proof.
  intros H. apply (stable_node _ _ l) in H. unfold tryGetContext.
  apply (f_equal context) in H. exact H.
Qed.

Lemma near_context w0 node :
  hasContext w0 node = true -> respects (near w0) (onPage (getContext node)).
Proof.
  intros Hc s a s' H H0. apply onPage_run in H as (w' & H & ->). cbn.
  apply getContext_run in H as [[_ ->]|[Hn _]]; [exact H0|].
  rewrite (stable_context _ _ node H0) in Hn. unfold hasContext in Hc. rewrite Hn in Hc.
  discriminate.
Qed.

(** *** Events and the other attributes *)

Lemma tame_refl s : tame E s s.
Proof. split; reflexivity. Qed.

Lemma tame_trans s1 s2 s3 : tame E s1 s2 -> tame E s2 s3 -> tame E s1 s3.
Proof.
  intros [H1 A1] [H2 A2]. split; [congruence|]. intros l name Hn.
  rewrite (A2 _ _ Hn). apply A1, Hn.
Qed.

Lemma tame_log e s : tame E s (onWorld (addLog e) s).
Proof. split; reflexivity. Qed.

Lemma tame_destroy watch s : tame E s (onWorld (destroyWatch watch) s).
Proof. split; reflexivity. Qed.

Lemma tame_elementID el : respects (tame E) (getElementID E el).
Proof.
  intros s a s'. unfold getElementID, bind, get.
  destruct (mget el (elementToIndex s)); [intros [= <- <-]; apply tame_refl|].
  destruct (isConnected _); cbn; intros [= <- <-]; [|split; reflexivity].
  split; cbn.
  - apply events_setNode.
  - intros l name Hn. apply getAttribute_setAttribute_name, Hn.
Qed.

Lemma tame_context node : respects (tame E) (onPage (getContext node)).
Proof.
  intros s a s' H. apply onPage_run in H as (w' & H & ->).
  apply getContext_run in H as [[_ ->]|[_ ->]]; [split; reflexivity|].
  split; cbn; [apply events_setNode|]. intros l name _. apply getAttribute_setContext.
Qed.

(** *** The watches destroyed *)

Lemma sparing_refl s : sparing s s.
Proof. reflexivity. Qed.

Lemma sparing_trans s1 s2 s3 : sparing s1 s2 -> sparing s2 s3 -> sparing s1 s3.
Proof. unfold sparing. congruence. Qed.

Lemma sparing_log e s : sparing s (onWorld (addLog e) s).
Proof. reflexivity. Qed.

Lemma sparing_elementID el : respects sparing (getElementID E el).
Proof.
  intros s a s'. unfold getElementID, bind, get.
  destruct (mget el (elementToIndex s)); [intros [= <- <-]; reflexivity|].
  destruct (isConnected _); cbn; intros [= <- <-]; [|unfold sparing; reflexivity].
  unfold sparing. cbn. apply destroyed_setNode.
Qed.

Lemma sparing_context node : respects sparing (onPage (getContext node)).
Proof.
  intros s a s' H. apply onPage_run in H as (w' & H & ->).
  apply getContext_run in H as [[_ ->]|[_ ->]]; [unfold sparing; reflexivity|].
  unfold sparing. cbn. apply destroyed_setNode.
Qed.

Lemma destroyWatches_run collector s s' :
  destroyWatches E collector s = Ok tt s' ->
  destroyed (world s') = destroyed (world s) ++ watches collector.
Proof.
  unfold destroyWatches. revert s. induction (watches collector) as [|watch l IH]; intros s H.
  - injection H as <-. rewrite app_nil_r. reflexivity.
  - cbn [forEach] in H. apply bind_Ok in H as ([] & s1 & H1 & H).
    apply IH in H. rewrite H. clear H IH.
    apply bind_Ok in H1 as ([] & s0 & H0 & H1). injection H0 as <-.
    assert (Hs : sparing (onWorld (destroyWatch watch) s) s1).
    { revert H1. unfold when, bind, get, logW, modify, ret, sparing.
      destruct (qDev E); [|intros [= <-]; reflexivity].
      destruct (negb (_ =? _)%Z), (negb (watchConnected _ _ _)); intros [= <-]; reflexivity. }
    rewrite Hs. cbn. rewrite <- app_assoc. reflexivity.
Qed.
End FrameFacts.

(** ** The collector, step by step *)

Section CollectInv.
Variable E : Collab.
Variable w : World.
Variable doc : loc.
Variable P : Collector -> Prop.
Hypothesis P_obj : forall v c, v <> VUndefined -> P c -> P (objSetAdd v c).
Hypothesis P_seen : forall k c, P c -> P (seenAdd k c).
Hypothesis P_push : forall el c,
  shas (SeenValue (VRef el)) (seen c) = false -> hasContext w el = true ->
  isElement w (VRef el) = true -> subscribing w el ->
  P c -> P (elementsPush el (seenAdd (SeenValue (VRef el)) c)).

Lemma foldOpt_inv_in {A C} (Q : C -> Prop) (f : A -> C -> option C) l c c' :
  (forall x c c', x ∈ l -> f x c = Some c' -> Q c -> Q c') ->
  foldOpt f l c = Some c' -> Q c -> Q c'.
Proof.
  revert c. induction l as [|x l IH]; intros c Hf H Hc; cbn in H.
  - injection H as <-. exact Hc.
  - destruct (f x c) as [c1|] eqn:Hx; [|discriminate].
    eapply IH; [|exact H|].
    + intros y a b Hy. apply Hf. right. exact Hy.
    + eapply Hf; [left | exact Hx | exact Hc].
Qed.

Lemma normalizeObj_defined obj : normalizeObj E w doc obj <> VUndefined.
Proof.
  unfold normalizeObj. destruct (bool_decide (obj = VRef doc)); [discriminate|].
  destruct (bool_decide (obj = VUndefined)) eqn:Hu; [discriminate|].
  cbn [orb]. destruct (negb _); [discriminate|].
  apply bool_decide_eq_false in Hu.
  destruct obj; try congruence. unfold targetOf.
  destruct (cellAt w l) as [[| | | |]|]; discriminate.
Qed.

Lemma collect_inv fuel :
  (forall obj c c', collectValue E fuel w doc obj c = Some c' -> P c -> P c') /\
  (forall obj c b c', collectQObjects E fuel w doc obj c = Some (b, c') -> P c -> P c') /\
  (forall obj c c', collectQrl E fuel w doc obj c = Some c' -> P c -> P c') /\
  (forall el c c', isElement w (VRef el) = true -> subscribing w el ->
     collectElement E fuel w doc el c = Some c' -> P c -> P c') /\
  (forall p subs c c', subsOf w p = Some subs ->
     collectSubscriptions E fuel w doc p subs c = Some c' -> P c -> P c').
Proof.
  induction fuel as [|fuel (IHv & IHo & IHq & IHe & IHs)].
  { repeat split; intros; discriminate. }
  assert (Hwalk : forall obj c b c', obj <> VUndefined ->
    match obj with
    | VRef l =>
        if shas (SeenValue obj) (seen c) then Some (true, c)
        else
          match
            (if isArray w obj
             then foldOpt (fun v c => option_map snd (collectQObjects E fuel w doc v c)) (arrayItems w l)
                    (objSetAdd obj (seenAdd (SeenValue obj) c))
             else foldOpt (fun v c => option_map snd (collectQObjects E fuel w doc v c))
                    (map snd (ownEntries w l)) (objSetAdd obj (seenAdd (SeenValue obj) c)))
          with
          | Some c => Some (true, c)
          | None => None
          end
    | VStr _ => Some (true, objSetAdd obj c)
    | _ => Some (false, c)
    end = Some (b, c') -> P c -> P c').
  { intros obj c b c' Hd H Hc.
    assert (Hvisit : forall x c0 c1,
      option_map snd (collectQObjects E fuel w doc x c0) = Some c1 -> P c0 -> P c1).
    { intros x c0 c1 Hx. destruct (collectQObjects E fuel w doc x c0) as [[b1 c2]|] eqn:Hq; [|discriminate].
      injection Hx as <-. eapply IHo; eauto. }
    destruct obj as [| | | |t|l];
      try (injection H as _ <-; first [exact Hc | apply P_obj; [discriminate | exact Hc]]).
    destruct (shas _ _); [injection H as _ <-; exact Hc|].
    destruct (isArray w (VRef l));
      (destruct (foldOpt _ _ _) as [c2|] eqn:Hf; [|discriminate]);
      injection H as _ <-; refine (foldOpt_inv P _ _ _ _ Hvisit Hf _);
      (apply P_obj; [discriminate|]); apply P_seen; exact Hc. }
  repeat split.
  - intros obj c c' H Hc. cbn in H.
    destruct (collectQObjects E fuel w doc obj c) as [[handled c1]|] eqn:Hq; [|discriminate].
    apply IHo in Hq; [|exact Hc]. destruct handled; injection H as <-; [exact Hq|].
    apply P_obj; [apply normalizeObj_defined | exact Hq].
  - intros obj c b c' H Hc. cbn in H.
    destruct obj as [| |b0|n|s|l];
      [injection H as _ <-; exact Hc | injection H as _ <-; exact Hc
      | refine (Hwalk (VBool b0) c b c' _ H Hc); discriminate
      | refine (Hwalk (VNum n) c b c' _ H Hc); discriminate
      | refine (Hwalk (VStr s) c b c' _ H Hc); discriminate | ].
    destruct (_ && _); [injection H as _ <-; exact Hc|].
    destruct (isQrl w (VRef l)).
    { destruct (collectQrl E fuel w doc (VRef l) c) as [c1|] eqn:Hq; [|discriminate].
      injection H as _ <-. eapply IHq; eauto. }
    match type of H with
    | match ?X with _ => _ end = _ => destruct X as [c1|] eqn:Hsub; [|discriminate]
    end.
    assert (Hc1 : P c1).
    { destruct (if truthy (targetOf w (VRef l)) then Some l else proxyFor w (VRef l)) as [p|];
        [|injection Hsub as <-; exact Hc].
      destruct (subsOf w p) as [subs|] eqn:Hp; [|injection Hsub as <-; exact Hc].
      eapply IHs; eauto. }
    eapply Hwalk; eauto. apply normalizeObj_defined.
  - intros obj c c' H Hc. cbn in H.
    destruct (shas _ _); [injection H as <-; exact Hc|].
    destruct (captureRefOf w obj) as [refs|].
    + refine (foldOpt_inv P _ _ _ _ _ H _); [intros x a b; apply IHv|].
      apply P_obj; [apply normalizeObj_defined|]. apply P_seen. exact Hc.
    + injection H as <-. apply P_obj; [apply normalizeObj_defined|]. apply P_seen. exact Hc.
  - intros el c c' Hel Hsb H Hc. cbn in H.
    destruct (shas _ _) eqn:Hseen; [injection H as <-; exact Hc|].
    destruct (tryGetContext w el) as [ctx|] eqn:Hctx; [|injection H as <-; apply P_seen; exact Hc].
    cbn in H.
    assert (Hpush : P (elementsPush el (seenAdd (SeenValue (VRef el)) c))).
    { apply P_push; [exact Hseen | unfold hasContext; rewrite Hctx; reflexivity
                    | exact Hel | exact Hsb | exact Hc]. }
    assert (Heach : forall l c0 c1, foldOpt (collectValue E fuel w doc) l c0 = Some c1 -> P c0 -> P c1).
    { intros l0 c0 c1. apply (foldOpt_inv P). intros x a b. apply IHv. }
    repeat match type of H with
    | mbind _ ?X = Some _ => 
        let c1 := fresh "c" in let Hx := fresh "Hx" in
        destruct X as [c1|] eqn:Hx; [cbn in H|discriminate]
    end.
    assert (H0 : P c0).
    { destruct (truthy (ctx_props ctx)); [eapply IHv; eauto | injection Hx as <-]; exact Hpush. }
    assert (H1 : P c1).
    { destruct (truthy (ctx_renderQrl ctx)); [eapply IHv; eauto | injection Hx0 as <-; exact H0]. }
    apply Heach in Hx1; [|exact H1]. apply Heach in Hx2; [|exact Hx1].
    apply Heach in Hx3; [|exact Hx2].
    destruct (ctx_contexts ctx); [eapply Heach; eauto | injection H as <-; exact Hx3].
  - intros p subs c c' Hp H Hc. cbn in H.
    destruct (shas _ _); [injection H as <-; exact Hc|].
    refine (foldOpt_inv_in P _ _ _ _ _ H (P_seen _ _ Hc)).
    intros key a b Hin Hk Ha. destruct key; try (eapply IHv; eauto; fail).
    destruct (isElement w (VRef l)) eqn:Hel; [|eapply IHv; eauto].
    eapply IHe; eauto. exists p, subs. auto.
Qed.

(** The first loop of [snapshotState], up to the watches it queues. *)
Lemma collectNode_inv fuel node c c' :
  collectNode E fuel w doc node c = Some c' -> P c ->
  exists c1, P c1 /\
    c' = fold_left (fun c watch => watchesPush watch c) (watchesOf w node) c1.
Proof.
  unfold collectNode, watchesOf. intros H Hc.
  destruct (tryGetContext w node) as [ctx|]; [|injection H as <-; exists c; auto].
  cbn in H.
  assert (Heach : forall l c0 c1, foldOpt (collectValue E fuel w doc) l c0 = Some c1 -> P c0 -> P c1).
  { intros l0 c0 c1. apply (foldOpt_inv P). intros x a b. apply (collect_inv fuel). }
  repeat match type of H with
  | mbind _ ?X = Some _ =>
      let c1 := fresh "c" in let Hx := fresh "Hx" in
      destruct X as [c1|] eqn:Hx; [cbn in H|discriminate]
  end.
  assert (H0 : P c0).
  { destruct (ctx_contexts ctx); [eapply Heach; eauto | injection Hx as <-; exact Hc]. }
  assert (H1 : P c1).
  { destruct (ctx_listeners ctx) as [ls|]; [|injection Hx0 as <-; exact H0].
    refine (foldOpt_inv P _ _ _ _ _ Hx0 H0). intros l a b Hl Ha.
    destruct (captureRefOf w l); [eapply Heach; eauto | injection Hl as <-; exact Ha]. }
  injection H as <-. exists c1. auto.
Qed.
End CollectInv.

(** ** What a snapshot takes and what it leaves *)

Section SnapshotFacts.
Variable E : Collab.

Lemma watchesPush_fold ws c :
  let c' := fold_left (fun c watch => watchesPush watch c) ws c in
  watches c' = watches c ++ ws /\ objSet c' = objSet c /\
  elements c' = elements c /\ seen c' = seen c.
Proof.
  revert c. induction ws as [|x ws IH]; intros c; cbn.
  - rewrite app_nil_r. auto.
  - destruct (IH (watchesPush x c)) as (H1 & H2 & H3 & H4). cbn in *.
    rewrite H1, H2, H3, H4, <- app_assoc. auto.
Qed.

Lemma sadd_other {A} `{EqDecision A} (x y : A) s : y <> x -> y ∉ s -> y ∉ sadd x s.
Proof.
  intros Hne Hs. unfold sadd. destruct (decide (x ∈ s)); [exact Hs|].
  rewrite elem_of_app, list_elem_of_singleton. tauto.
Qed.

(** The first loop of [snapshotState]: the watches of the elements are
    queued in order, and [undefined] itself is never put in [objSet]. *)
Lemma collectNodes_run fuel w doc nodes : forall c c',
  foldOpt (collectNode E fuel w doc) nodes c = Some c' ->
  watches c' = watches c ++ flat_map (watchesOf w) nodes /\
  (VUndefined ∉ objSet c -> VUndefined ∉ objSet c').
Proof.
  induction nodes as [|node nodes IH]; intros c c' H; cbn in H.
  - injection H as <-. rewrite app_nil_r. auto.
  - destruct (collectNode E fuel w doc node c) as [c1|] eqn:Hn; [|discriminate].
    apply IH in H as [Hw Hu]. cbn [flat_map]. split.
    + pose proof (collectNode_inv E w doc (fun x => watches x = watches c)) as Hc.
      destruct (Hc ltac:(auto) ltac:(auto) ltac:(auto) _ _ _ _ Hn eq_refl) as (c0 & H0 & ->).
      destruct (watchesPush_fold (watchesOf w node) c0) as (H1 & _).
      cbn zeta in H1. rewrite Hw, H1, H0, app_assoc. reflexivity.
    + intros Hc0. apply Hu.
      pose proof (collectNode_inv E w doc (fun x => VUndefined ∉ objSet x)) as Hc.
      destruct (Hc (fun v c Hv => sadd_other v VUndefined (objSet c) (not_eq_sym Hv))
                  ltac:(auto) ltac:(auto) _ _ _ _ Hn Hc0) as (c0 & H0 & ->).
      destruct (watchesPush_fold (watchesOf w node) c0) as (_ & H2 & _).
      cbn zeta in H2. rewrite H2. exact H0.
Qed.

Lemma jsSort_defined w l :
  VUndefined ∉ l ->
  jsSort (compareSubscribed w) l =
  List.filter (hasSubscriptions w) l ++ List.filter (fun v => negb (hasSubscriptions w v)) l.
Proof.
  intros Hu. unfold jsSort.
  assert (H1 : List.filter (fun v => negb (bool_decide (v = VUndefined))) l = l).
  { induction l as [|x l IH]; [reflexivity|]. cbn.
    apply not_elem_of_cons in Hu as [Hx Hl].
    rewrite bool_decide_eq_false_2 by (apply not_eq_sym, Hx). cbn. rewrite (IH Hl). reflexivity. }
  assert (H2 : List.filter (fun v => bool_decide (v = VUndefined)) l = []).
  { clear H1. induction l as [|x l IH]; [reflexivity|]. cbn.
    apply not_elem_of_cons in Hu as [Hx Hl].
    rewrite bool_decide_eq_false_2 by (apply not_eq_sym, Hx). exact (IH Hl). }
  rewrite H1, H2, app_nil_r.
  change (compareSubscribed w) with (byFlag (hasSubscriptions w)).
  apply sortBy_partition.
Qed.

(** X6.  The values are written in the order in which they were collected,
    the subscribed ones first: [objs] is the subscribed values of the
    collected set, in collection order, followed by the others, in collection
    order.  Nothing is lost and nothing is written twice. *)
Theorem objs_stable_partition fuel containerEl w r w' :
  snapshotState E fuel containerEl w = Ok r w' ->
  exists nodes collector,
    getNodesInScope E fuel w containerEl (hasContext w) = Some nodes /\
    foldOpt (collectNode E fuel w (getDocument w containerEl)) nodes createCollector
      = Some collector /\
    NoDup (objSet collector) /\
    result_objs r =
      List.filter (hasSubscriptions w) (objSet collector) ++
      List.filter (fun v => negb (hasSubscriptions w v)) (objSet collector).
Proof.
  intros H. apply snapshotState_inv in H as (nodes & collector & s' & Hn & Hc & H & _).
  exists nodes, collector. split; [exact Hn|]. split; [exact Hc|].
  split; [eapply collected_NoDup; eauto|].
  apply writeSnapshot_objs in H as [-> _]. apply jsSort_defined.
  apply collectNodes_run in Hc as [_ Hu]. apply Hu. cbn. apply not_elem_of_nil.
Qed.

Lemma scope_hasContext fuel w containerEl nodes :
  getNodesInScope E fuel w containerEl (hasContext w) = Some nodes ->
  forall node, node ∈ nodes -> hasContext w node = true.
Proof.
  intros H node Hin. apply walkNodes_grows in H as (extra & -> & Hgood & _).
  apply (Hgood node Hin).
Qed.

(** X7.  A snapshot leaves the page as it is but for the element-id attribute,
    the log and the watches it destroys: every object, the registry of
    proxies and the component state of every element are untouched (no
    object is made), no event is dispatched, and no other attribute is
    set. *)
Theorem snapshot_frame fuel containerEl w r w' :
  snapshotState E fuel containerEl w = Ok r w' ->
  stable w w' /\ length (heap w') = length (heap w) /\
  (forall l, tryGetContext w' l = tryGetContext w l) /\
  events w' = events w /\
  forall l name, name <> ELEMENT_ID E -> getAttribute w' l name = getAttribute w l name.
Proof.
  intros H. apply snapshotState_inv in H as (nodes & collector & s' & Hn & Hc & H & ->).
  assert (Hs : stable w (world s')).
  { refine (respects_writeSnapshot E _ _ _ (near w) (fun n => hasContext w n = true)
              (near_refl w) (near_trans w) (near_log w) (near_elementID E w)
              (near_context w) nodes _ _ (near_destroy w) _ _ _ H (stable_refl _)).
    eapply scope_hasContext; eauto. }
  pose proof (respects_writeSnapshot E _ _ _ (tame E) (fun _ => True)
              (tame_refl E) (tame_trans E) (tame_log E) (tame_elementID E)
              (fun n _ => tame_context E n) nodes _ (fun _ _ => I) (tame_destroy E) _ _ _ H)
    as [He Ha].
  split; [exact Hs|]. split; [|split; [|split; [exact He | exact Ha]]].
  - destruct Hs as [_ Hs].
    assert (Hlen : forall a b : World, (forall l, plainCell (cellAt a l) = plainCell (cellAt b l)) ->
              length (heap a) <= length (heap b)).
    { intros a b Hab. destruct (Nat.le_gt_cases (length (heap a)) (length (heap b))) as [|Hlt]; [assumption|].
      specialize (Hab (length (heap b))).
      destruct (lookup_lt_is_Some_2 (heap a) (length (heap b)) Hlt) as [c Hc'].
      assert (Ha' : cellAt a (length (heap b)) = Some c) by exact Hc'.
      assert (Hb' : cellAt b (length (heap b)) = None)
        by (unfold cellAt; apply lookup_ge_None_2; lia).
      rewrite Ha', Hb' in Hab. destruct c; discriminate. }
    apply Nat.le_antisymm; apply Hlen; intros l; rewrite Hs; reflexivity.
  - intros l. apply stable_context. exact Hs.
Qed.

(** X8.  A snapshot destroys the watches of the elements in scope that carry
    component state, each element's in order, the elements in document order,
    and no other. *)
Theorem snapshot_destroys_watches fuel containerEl w r w' :
  snapshotState E fuel containerEl w = Ok r w' ->
  exists nodes,
    getNodesInScope E fuel w containerEl (hasContext w) = Some nodes /\
    destroyed w' = destroyed w ++ flat_map (watchesOf w) nodes.
Proof.
  intros H. apply snapshotState_inv in H as (nodes & collector & s' & Hn & Hc & H & ->).
  exists nodes. split; [exact Hn|].
  apply collectNodes_run in Hc as [Hw _]. cbn in Hw. rewrite <- Hw.
  apply writeSnapshot_steps in H
    as (subs & converted & acc & s1 & s2 & s3 & s4 & H1 & H2 & H3 & H4 & H5 & _).
  pose proof (respects_traverse sparing sparing_refl sparing_trans _ _
           (respects_subsFor E _ _ sparing sparing_refl sparing_trans sparing_log (sparing_elementID E))
           _ _ _ H1) as G1.
  pose proof (respects_traverse sparing sparing_refl sparing_trans _ _
           (respects_convert E _ _ sparing sparing_refl sparing_trans sparing_log (sparing_elementID E))
           _ _ _ H2) as G2.
  pose proof (respects_writeBacks E _ _ _ sparing (fun _ => True) sparing_refl sparing_trans sparing_log
           (sparing_elementID E) (fun n _ => sparing_context n) _ _ (fun _ _ => I) _ _ _ H3) as G3.
  apply destroyWatches_run in H4.
  pose proof (respects_sanityCheck E _ sparing sparing_refl sparing_trans sparing_log _ _ _ H5) as G5.
  unfold sparing in *. cbn in *. congruence.
Qed.
End SnapshotFacts.

(** ** The elements a snapshot captures *)

Section CapturedFacts.
Variable E : Collab.







End CapturedFacts.

(** On the page with a store the subscribed target comes first and the
    other four values follow in the order in which they were collected. *)
Lemma objs_stable_partition_witness :
  exists r w',
    snapshotState (collab true (fun _ => None)) 10 1 pageStore = Ok r w' /\
    result_objs r = [VRef 6; VRef 5; VRef 9; VRef 10; VRef 11] /\
    exists nodes collector,
      getNodesInScope (collab true (fun _ => None)) 10 pageStore 1 (hasContext pageStore)
        = Some nodes /\
      foldOpt (collectNode (collab true (fun _ => None)) 10 pageStore (getDocument pageStore 1))
        nodes createCollector = Some collector /\
      NoDup (objSet collector) /\
      result_objs r =
        List.filter (hasSubscriptions pageStore) (objSet collector) ++
        List.filter (fun v => negb (hasSubscriptions pageStore v)) (objSet collector).
Proof.
  eexists _, _.
  match goal with
  | |- ?L = ?R /\ _ => assert (H : L = R) by (vm_compute; reflexivity)
  end.
  split; [exact H|]. split; [reflexivity|].
  exact (objs_stable_partition _ _ _ _ _ _ H).
Defined.

(** On the page with a store a snapshot dispatches nothing, makes no
    object and leaves the container attribute as it was. *)
Lemma snapshot_frame_witness :
  exists r w',
    snapshotState (collab true (fun _ => None)) 10 1 pageStore = Ok r w' /\
    stable pageStore w' /\ length (heap w') = 13 /\ events w' = [] /\
    getAttribute w' 1 "q:container" = Some "paused".
Proof.
  eexists _, _.
  match goal with
  | |- ?L = ?R /\ _ => assert (H : L = R) by (vm_compute; reflexivity)
  end.
  split; [exact H|].
  destruct (snapshot_frame _ _ _ _ _ _ H) as (Hs & Hl & _ & He & Ha).
  split; [exact Hs|]. split; [exact Hl|]. split; [exact He|].
  assert (Hne : "q:container" <> "q:id") by discriminate.
  exact (Ha 1 "q:container" Hne).
Defined.

(** On the page with a store the one watch, that of the first SPAN, is
    destroyed. *)
Lemma snapshot_destroys_watches_witness :
  exists r w',
    snapshotState (collab true (fun _ => None)) 10 1 pageStore = Ok r w' /\
    flat_map (watchesOf pageStore) [3; 4; 12] = [VRef 11] /\
    exists nodes,
      getNodesInScope (collab true (fun _ => None)) 10 pageStore 1 (hasContext pageStore)
        = Some nodes /\
      destroyed w' = destroyed pageStore ++ flat_map (watchesOf pageStore) nodes.
Proof.
  eexists _, _.
  match goal with
  | |- ?L = ?R /\ _ => assert (H : L = R) by (vm_compute; reflexivity)
  end.
  split; [exact H|]. split; [reflexivity|].
  exact (snapshot_destroys_watches _ _ _ _ _ _ H).
Defined.


(** ** Element ids: what is written is on the page *)

Section MarkedFacts.
Variable E : Collab.

Lemma marking_refl s : marking E s s.
Proof. split; auto. Qed.

Lemma marking_trans s1 s2 s3 : marking E s1 s2 -> marking E s2 s3 -> marking E s1 s3.
Proof. intros [K1 M1] [K2 M2]. split; auto. Qed.

Lemma marking_world s w' :
  (forall l name, getAttribute w' l name = getAttribute (world s) l name) ->
  (forall l, isConnected (nodeAt w' l) = isConnected (nodeAt (world s) l)) ->
  marking E s (mkWS w' (elementToIndex s)).
Proof.
  intros Ha Hc. split; [auto|]. intros M el id Hel. cbn in *.
  destruct (M el id Hel) as (n & -> & Hn & Hat & Hco & Hu).
  exists n. rewrite Ha, Hc. auto.
Qed.

Lemma marking_log e s : marking E s (onWorld (addLog e) s).
Proof. apply marking_world; reflexivity. Qed.

Lemma marking_destroy watch s : marking E s (onWorld (destroyWatch watch) s).
Proof. apply marking_world; reflexivity. Qed.

Lemma marking_context node : respects (marking E) (onPage (getContext node)).
Proof.
  intros s a s' H. apply onPage_run in H as (w' & H & ->).
  apply getContext_run in H as [[_ ->]|[_ ->]]; apply marking_world; intros; try reflexivity.
  - apply getAttribute_setContext.
  - apply isConnected_setContext.
Qed.

Lemma prefixed_injective n m :
  ELEMENT_ID_PREFIX E +:+ intToStr n = ELEMENT_ID_PREFIX E +:+ intToStr m -> n = m.
Proof.
  intros H. apply append_cancel in H.
  rewrite <- (append_empty_r (intToStr n)), <- (append_empty_r (intToStr m)) in H.
  apply id_injective in H as [H _]; auto.
Qed.

Lemma marking_elementID el : respects (marking E) (getElementID E el).
Proof.
  intros s a s'. unfold getElementID, bind, get.
  destruct (mget el (elementToIndex s)) as [id|] eqn:Hel; [intros [= <- <-]; apply marking_refl|].
  destruct (isConnected (nodeAt (world s) el)) eqn:Hc; cbn; intros [= <- <-].
  - split; cbn.
    + intros l x Hl. rewrite mget_mset_ne; [exact Hl | congruence].
    + intros M l id Hl. cbn in *. rewrite (length_mset_new _ _ _ Hel).
      destruct (decide (el = l)) as [<-|Hne].
      * rewrite mget_mset_eq in Hl. injection Hl as <-. eexists. split; [reflexivity|].
        split; [lia|]. split; [apply getAttribute_setAttribute_same, connected_node, Hc|].
        split; [rewrite isConnected_setAttribute; exact Hc|].
        intros el' Hl'. destruct (decide (el = el')) as [|Hne]; [auto|].
        rewrite mget_mset_ne in Hl' by exact Hne.
        destruct (M _ _ Hl') as (n & Hid & Hn & _). apply prefixed_injective in Hid. lia.
      * rewrite mget_mset_ne in Hl by exact Hne.
        destruct (M _ _ Hl) as (n & -> & Hn & Hat & Hco & Hu).
        exists n. split; [reflexivity|]. split; [lia|].
        split; [rewrite getAttribute_setAttribute_other by auto; exact Hat|].
        split; [rewrite isConnected_setAttribute; exact Hco|].
        intros el' Hl'. destruct (decide (el = el')) as [<-|Hne'].
        -- rewrite mget_mset_eq in Hl'. injection Hl' as Hid.
           apply prefixed_injective in Hid. lia.
        -- rewrite mget_mset_ne in Hl' by exact Hne'. auto.
  - split; cbn.
    + intros l x Hl. rewrite mget_mset_ne; [exact Hl | congruence].
    + intros M l id Hl. cbn in *. rewrite (length_mset_new _ _ _ Hel).
      destruct (decide (el = l)) as [<-|Hne]; [rewrite mget_mset_eq in Hl; discriminate|].
      rewrite mget_mset_ne in Hl by exact Hne.
      destruct (M _ _ Hl) as (n & -> & Hn & Hat & Hco & Hu).
      exists n. split; [reflexivity|]. split; [lia|]. split; [exact Hat|]. split; [exact Hco|].
      intros el' Hl'. destruct (decide (el = el')) as [<-|Hne'].
      * rewrite mget_mset_eq in Hl'. discriminate.
      * rewrite mget_mset_ne in Hl' by exact Hne'. auto.
Qed.

Variable doc : loc.
Variable objToId : list (value * N).
Variable collector : Collector.

(** One round of the write-back loop: a key that is new in [meta] is the
    id that the element was given. *)
Lemma writeBack_keys acc node s acc' s' :
  assertions E = true ->
  writeBack E doc objToId collector acc node s = Ok acc' s' ->
  marking E s s' /\
  forall k mv, oget k (fst acc') = Some mv ->
    (exists mv0, oget k (fst acc) = Some mv0) \/ mget node (elementToIndex s') = Some (Some k).
Proof.
  intros Ha H. unfold writeBack in H. destruct acc as [meta listeners].
  apply bind_Ok in H as (ctx & s1 & H1 & H). apply marking_context in H1.
  apply bind_Ok in H as ([] & s1' & H1' & H). apply assertDefined_Ok in H1' as [-> _].
  apply bind_Ok in H as (mv & s2 & H2 & H).
  pose proof (respects_metaValueOf E doc objToId collector (marking E) marking_refl marking_trans
                marking_log marking_elementID _ _ _ _ _ H2) as G2.
  apply bind_Ok in H as (meta' & s3 & H3 & H). injection H as <- <-. cbn [fst].
  destruct (snd mv).
  - apply bind_Ok in H3 as (elementID & s4 & H4 & H3).
    apply bind_Ok in H3 as ([] & s5 & H5 & H3). injection H3 as <- <-.
    apply assertDefined_Ok in H5 as [-> Hd]. destruct (Hd Ha) as [id ->].
    pose proof (getElementID_recorded _ _ _ _ _ H4) as Hr.
    apply marking_elementID in H4. split.
    + eapply marking_trans; [|exact H4]. eapply marking_trans; eauto.
    + intros k mv' Hk. cbn [idText] in Hk. destruct (decide (id = k)) as [<-|Hne]; [auto|].
      rewrite oget_oset_ne in Hk by exact Hne. eauto.
  - injection H3 as <- <-. split; [eapply marking_trans; eauto|]. eauto.
Qed.

Lemma writeBacks_keys (known : loc -> Prop) nodes : forall acc s acc' s',
  assertions E = true ->
  foldM (writeBack E doc objToId collector) nodes acc s = Ok acc' s' ->
  (forall node, node ∈ nodes -> known node) ->
  (forall k mv, oget k (fst acc) = Some mv ->
     exists el, known el /\ mget el (elementToIndex s) = Some (Some k)) ->
  marking E s s' /\
  forall k mv, oget k (fst acc') = Some mv ->
    exists el, known el /\ mget el (elementToIndex s') = Some (Some k).
Proof.
  induction nodes as [|node nodes IH]; intros acc s acc' s' Ha H Hn Hk; cbn [foldM] in H.
  - injection H as <- <-. split; [apply marking_refl | exact Hk].
  - apply bind_Ok in H as (acc1 & s1 & H1 & H).
    apply writeBack_keys in H1 as [M1 K1]; [|exact Ha].
    apply IH in H as [M2 K2]; [split; [eapply marking_trans; eauto | exact K2] | exact Ha | |].
    + intros n Hin. apply Hn. right. exact Hin.
    + intros k mv Hkm. destruct (K1 _ _ Hkm) as [[mv0 H0]|H0].
      * destruct (Hk _ _ H0) as (el & Hel & Hm). exists el. split; [exact Hel|].
        apply M1. exact Hm.
      * exists node. split; [apply Hn; left | exact H0].
Qed.
End MarkedFacts.

Section ElementIds.
Variable E : Collab.

(** X10.  With the assertions active, every key of [ctx] in a snapshot is the
    id of an element in the scope of the container (reached from it through
    children none of which is a container) that carries component state:
    the element-id prefix and a number in base 36, which after the snapshot
    is the value of the element-id attribute of that element; the element
    is connected. *)
Theorem snapshot_element_ids fuel containerEl w r w' :
  assertions E = true ->
  snapshotState E fuel containerEl w = Ok r w' ->
  forall k mv, oget k (state_ctx (result_state r)) = Some mv ->
    exists el n,
      inScope E w containerEl el /\
      hasContext w el = true /\ isContainer E w el = false /\
      isConnected (nodeAt w' el) = true /\
      k = ELEMENT_ID_PREFIX E +:+ intToStr n /\
      getAttribute w' el (ELEMENT_ID E) = Some (intToStr n).
Proof.
  intros Ha H k mv Hk.
  apply snapshotState_inv in H as (nodes & collector & s' & Hn & Hc & H & ->).
  apply writeSnapshot_steps in H
    as (subs & converted & acc & s1 & s2 & s3 & s4 & H1 & H2 & H3 & H4 & H5 & Hctx).
  rewrite Hctx in Hk.
  pose proof (respects_traverse (marking E) (marking_refl E) (marking_trans E) _ _
           (respects_subsFor E _ _ (marking E) (marking_refl E) (marking_trans E)
              (marking_log E) (marking_elementID E)) _ _ _ H1) as G1.
  pose proof (respects_traverse (marking E) (marking_refl E) (marking_trans E) _ _
           (respects_convert E _ _ (marking E) (marking_refl E) (marking_trans E)
              (marking_log E) (marking_elementID E)) _ _ _ H2) as G2.
  apply (writeBacks_keys E _ _ _ (fun el => el ∈ nodes)) in H3 as [G3 K3];
    [|exact Ha | auto | cbn; intros ? ? Hx; discriminate Hx].
  pose proof (respects_destroyWatches E _ (marking E) (marking_refl E) (marking_trans E)
           (marking_log E) (marking_destroy E) _ _ _ H4) as G4.
  pose proof (respects_sanityCheck E _ (marking E) (marking_refl E) (marking_trans E)
           (marking_log E) _ _ _ H5) as G5.
  destruct (K3 _ _ Hk) as (el & Hel & Hm).
  assert (M : marked E s').
  { apply G5, G4, G3, G2, G1. intros x id Hx. discriminate Hx. }
  assert (Hm' : mget el (elementToIndex s') = Some (Some k)) by (apply G5, G4; exact Hm).
  destruct (M _ _ Hm') as (n & -> & _ & Hat & Hco & _).
  apply walkNodes_grows in Hn as (extra & -> & Hgood & _).
  destruct (Hgood el Hel) as (Hh & Hnc & Hsc).
  exists el, n. auto 10.
Qed.
End ElementIds.

(** ** Ids joined by the writer, split by the reader *)

Section SplitFacts.

Lemma lacks_toString36 c fuel n acc :
  digitValue c = None -> lacks c acc = true -> lacks c (toString36 fuel n acc) = true.
Proof.
  intros Hc. revert n acc. induction fuel as [|fuel IH]; intros n acc Hacc; [exact Hacc|].
  rewrite toString36_step.
  assert (Hd : lacks c (String (digit36 (n mod 36)) acc) = true).
  { cbn [lacks]. rewrite Hacc, andb_true_r. apply negb_true_iff.
    destruct (Ascii.eqb_spec c (digit36 (n mod 36))) as [Heq|]; [|reflexivity].
    pose proof (digitValue_digit36 (n mod 36) ltac:(apply N.mod_lt; lia)) as Hv.
    rewrite <- Heq in Hv. congruence. }
  destruct (n / 36 =? 0)%N; [exact Hd | apply IH, Hd].
Qed.

Lemma lacks_intToStr c n : digitValue c = None -> lacks c (intToStr n) = true.
Proof. intros Hc. apply lacks_toString36; [exact Hc | reflexivity]. Qed.

Lemma lacks_append c a b : lacks c a = true -> lacks c b = true -> lacks c (a +:+ b) = true.
Proof.
  intros Ha Hb. induction a as [|x a IH]; [exact Hb|]. rewrite append_cons. cbn [lacks] in *.
  apply andb_true_iff in Ha as [Hx Ha]. rewrite Hx, (IH Ha). reflexivity.
Qed.

Lemma split_cons sep p t :
  lacks sep p = true -> split sep (p +:+ String sep t) = p :: split sep t.
Proof.
  intros Hp. induction p as [|c p IH].
  - rewrite append_nil. cbn [split]. rewrite Ascii.eqb_refl. reflexivity.
  - rewrite append_cons. cbn [lacks] in Hp. apply andb_true_iff in Hp as [Hc Hp].
    apply negb_true_iff in Hc. cbn [split]. rewrite Ascii.eqb_sym, Hc, (IH Hp). reflexivity.
Qed.

Lemma split_join sep p parts :
  Forall (fun x => lacks sep x = true) (p :: parts) ->
  split sep (join (String sep EmptyString) (p :: parts)) = p :: parts.
Proof.
  revert p. induction parts as [|q parts IH]; intros p H.
  - cbn [join]. apply split_lacks. apply Forall_inv in H. exact H.
  - change (join (String sep EmptyString) (p :: q :: parts))
      with (p +:+ String sep EmptyString +:+ join (String sep EmptyString) (q :: parts)).
    rewrite append_cons, append_nil.
    rewrite split_cons by (apply Forall_inv in H; exact H).
    rewrite IH by (apply Forall_inv_tail in H; exact H). reflexivity.
Qed.
End SplitFacts.

Section IdsBack.
Variable E : Collab.
Variable doc : loc.
Variable objToId : list (value * N).
Hypothesis asserting : assertions E = true.
Hypothesis prefix_plain : lacks " " (ELEMENT_ID_PREFIX E) = true.

Lemma marked_filled s : marked E s -> idsFilled s.
Proof.
  intros M el id Hel. destruct (M _ _ Hel) as (n & -> & _).
  apply append_filled_r, intToStr_filled.
Qed.

Lemma marked_getObjId obj s id s' :
  getObjId E doc objToId obj s = Ok id s' -> marked E s -> marked E s'.
Proof.
  intros H. apply (respects_getObjId E doc objToId (marking E) (marking_refl E)
                     (marking_trans E) (marking_log E) (marking_elementID E) _ _ _ _ H).
Qed.

Lemma getObjId_spaceless obj s id s' :
  marked E s -> getObjId E doc objToId obj s = Ok (Some id) s' -> lacks " " id = true.
Proof.
  intros M H. pose proof (marked_getObjId _ _ _ _ H M) as M'.
  revert H. unfold getObjId, bind, get.
  destruct obj as [| |b0|z|t|l];
    try (destruct (mget _ objToId) as [k|] eqn:Hn; [|discriminate];
         intros [= <- _]; apply lacks_intToStr; reflexivity).
  destruct (mget _ objToId) as [k|] eqn:Hn.
  - intros [= <- _]. apply lacks_append; [apply lacks_intToStr; reflexivity|].
    destruct (truthy _); reflexivity.
  - destruct (_ && _); [|discriminate]. destruct (_ =? _)%Z; [|discriminate].
    intros H. apply getElementID_recorded in H.
    destruct (M' _ _ H) as (n & -> & _).
    apply lacks_append; [exact prefix_plain | apply lacks_intToStr; reflexivity].
Qed.

Lemma mustGetObjIds_spaceless values : forall s ids s',
  marked E s ->
  traverse (mustGetObjId E doc objToId) values s = Ok ids s' ->
  exists xs, ids = map Some xs /\ Forall (fun x => lacks " " x = true) xs /\ marked E s'.
Proof.
  induction values as [|v values IH]; intros s ids s' M H; cbn [traverse] in H.
  - injection H as <- <-. exists []. auto.
  - apply bind_Ok in H as (id & s1 & H1 & H).
    apply bind_Ok in H as (rest & s2 & H2 & H). injection H as <- <-.
    unfold mustGetObjId in H1.
    apply bind_Ok in H1 as (id0 & s0 & H0 & H1).
    apply bind_Ok in H1 as ([] & s0' & Hd & H1). injection H1 as <- <-.
    apply assertDefined_Ok in Hd as [-> Hd]. destruct (Hd asserting) as [x ->].
    pose proof (getObjId_spaceless _ _ _ _ M H0) as Hx.
    apply marked_getObjId in H0; [|exact M].
    destruct (IH _ _ _ H0 H2) as (xs & -> & Hxs & M2).
    exists (x :: xs). auto.
Qed.

(** X11.  With the assertions active, a block of the write-back loop that has
    values to write (the references, the host state, the watches or the
    sequence of an element) writes a field that splits at the spaces into
    exactly the ids of the values, one each and in order: what the reader
    splits is what the writer joined. *)
Theorem ids_split_back values setField acc s acc' s' :
  marked E s -> values <> [] ->
  writeIds E doc objToId true values setField acc s = Ok acc' s' ->
  exists ids,
    traverse (mustGetObjId E doc objToId) values s = Ok (map Some ids) s' /\
    acc' = (setField (join " " ids) (fst acc), true) /\
    split " " (join " " ids) = ids /\ length ids = length values.
Proof.
  intros M Hv H.
  apply writeIds_written in H as (ids & Ht & ->); [|exact asserting | apply marked_filled, M | exact Hv].
  destruct (mustGetObjIds_spaceless _ _ _ _ M Ht) as (xs & -> & Hxs & _).
  exists xs. split; [exact Ht|]. split.
  - unfold joinIds. rewrite map_map, map_id. reflexivity.
  - pose proof (traverse_length _ _ _ _ _ Ht) as Hl. rewrite length_map in Hl.
    split; [|exact Hl]. destruct xs as [|x xs]; [destruct values; [contradiction | discriminate]|].
    apply (split_join " "%char). exact Hxs.
Qed.
End IdsBack.

(** On the page with a store the keys of [ctx] are the ids of the DIV and
    of the two SPANs. *)
Lemma snapshot_element_ids_witness :
  exists r w' mv,
    assertions (collab true (fun _ => None)) = true /\
    snapshotState (collab true (fun _ => None)) 10 1 pageStore = Ok r w' /\
    oget "#2" (state_ctx (result_state r)) = Some mv /\
    exists el n,
      inScope (collab true (fun _ => None)) pageStore 1 el /\
      hasContext pageStore el = true /\
      isContainer (collab true (fun _ => None)) pageStore el = false /\
      isConnected (nodeAt w' el) = true /\
      "#2" = "#" +:+ intToStr n /\
      getAttribute w' el "q:id" = Some (intToStr n).
Proof.
  eexists _, _, _. split; [reflexivity|].
  match goal with
  | |- ?L = ?R /\ _ => assert (H : L = R) by (vm_compute; reflexivity)
  end.
  split; [exact H|].
  match goal with
  | |- ?L = ?R /\ _ => assert (Hk : L = R) by (vm_compute; reflexivity)
  end.
  split; [exact Hk|].
  exact (snapshot_element_ids (collab true (fun _ => None)) _ _ _ _ _ eq_refl H _ _ Hk).
Defined.

(** On the page with a store the host state of the first SPAN is written
    as two ids that split back. *)
Lemma ids_split_back_witness :
  exists acc' s',
    marked (collab true (fun _ => None)) (mkWS pageStore []) /\
    writeIds (collab true (fun _ => None)) 0 storeObjToId true [VRef 7; VRef 9] set_h
      (emptyMeta, false) (mkWS pageStore []) = Ok acc' s' /\
    meta_h (fst acc') = Some "0! 2" /\
    exists ids,
      traverse (mustGetObjId (collab true (fun _ => None)) 0 storeObjToId) [VRef 7; VRef 9]
        (mkWS pageStore []) = Ok (map Some ids) s' /\
      acc' = (set_h (join " " ids) emptyMeta, true) /\
      split " " (join " " ids) = ids /\ length ids = 2.
Proof.
  assert (M : marked (collab true (fun _ => None)) (mkWS pageStore []))
    by (unfold marked; intros el id Hel; cbn in Hel; discriminate Hel).
  eexists _, _. split; [exact M|].
  match goal with
  | |- ?L = ?R /\ _ => assert (H : L = R) by (vm_compute; reflexivity)
  end.
  split; [exact H|]. split; [reflexivity|].
  assert (Hne : [VRef 7; VRef 9] <> []) by discriminate.
  exact (ids_split_back (collab true (fun _ => None)) 0 storeObjToId eq_refl eq_refl
           _ _ _ _ _ _ M Hne H).
Defined.

(** ** Element ids are handed out once *)

Section ElementIdFacts.
Variable E : Collab.

(** X12.  [getElementID] remembers: asked again for the same element it gives
    the same answer and changes nothing.  The first answer for an element
    is the prefix and the count of the elements met so far, or [null] when
    the element is not connected; with [null] the page is not touched. *)
Theorem getElementID_once el s id s' :
  getElementID E el s = Ok id s' ->
  getElementID E el s' = Ok id s' /\
  (mget el (elementToIndex s) = None ->
   id = if isConnected (nodeAt (world s) el)
        then Some (ELEMENT_ID_PREFIX E +:+ intToStr (N.of_nat (length (elementToIndex s))))
        else None) /\
  (id = None -> world s' = world s).
Proof.
  unfold getElementID, bind, get.
  destruct (mget el (elementToIndex s)) as [x|] eqn:Hel.
  - intros [= <- <-]. rewrite Hel. split; [reflexivity|]. split; [discriminate | reflexivity].
  - destruct (isConnected (nodeAt (world s) el)); cbn; intros [= <- <-]; cbn;
      rewrite mget_mset_eq; split; try reflexivity; split; try reflexivity; discriminate.
Qed.
End ElementIdFacts.

(** On the page with a store the first SPAN is given the id of the first
    element met. *)
Lemma getElementID_once_witness :
  exists s',
    getElementID (collab true (fun _ => None)) 4 (mkWS pageStore []) = Ok (Some "#0") s' /\
    getElementID (collab true (fun _ => None)) 4 s' = Ok (Some "#0") s' /\
    mget 4 (elementToIndex (mkWS pageStore [])) = None.
Proof.
  eexists.
  match goal with
  | |- ?L = ?R /\ _ => assert (H : L = R) by (vm_compute; reflexivity)
  end.
  split; [exact H|]. split; [|reflexivity].
  exact (proj1 (getElementID_once _ _ _ _ _ H)).
Defined.

(** ** The listeners a snapshot lists *)

Section ListenerFacts.
Variable E : Collab.
Variable doc : loc.
Variable objToId : list (value * N).
Variable collector : Collector.

Lemma writeBack_listeners w acc node s acc' s' :
  stable w (world s) ->
  writeBack E doc objToId collector acc node s = Ok acc' s' ->
  snd acc' = snd acc ++ listenersOf w node.
Proof.
  intros St H. unfold writeBack in H. destruct acc as [meta listeners].
  apply bind_Ok in H as (ctx & s1 & H1 & H).
  apply onPage_run in H1 as (w1 & H1 & ->).
  assert (Hl : match ctx_listeners ctx with
               | Some ls => flat_map (fun entry => map (mkListener (fst entry)) (snd entry)) ls
               | None => []
               end = listenersOf w node).
  { unfold listenersOf. rewrite <- (stable_context _ _ node St).
    unfold getContext, bind, get in H1.
    destruct (tryGetContext (world s) node) as [c|]; [injection H1 as <- _; reflexivity|].
    cbn in H1. injection H1 as <- _. reflexivity. }
  apply bind_Ok in H as ([] & s1' & _ & H).
  apply bind_Ok in H as (mv & s2 & _ & H).
  apply bind_Ok in H as (meta' & s3 & _ & H). injection H as <- _. cbn [snd].
  rewrite <- Hl. destruct (ctx_listeners ctx); [reflexivity | rewrite app_nil_r; reflexivity].
Qed.

Lemma writeBacks_listeners w nodes : forall acc s acc' s',
  stable w (world s) -> (forall node, node ∈ nodes -> hasContext w node = true) ->
  foldM (writeBack E doc objToId collector) nodes acc s = Ok acc' s' ->
  snd acc' = snd acc ++ flat_map (listenersOf w) nodes.
Proof.
  induction nodes as [|node nodes IH]; intros acc s acc' s' St Hn H; cbn [foldM] in H.
  - injection H as <- _. rewrite app_nil_r. reflexivity.
  - apply bind_Ok in H as (acc1 & s1 & H1 & H).
    pose proof (writeBack_listeners _ _ _ _ _ _ St H1) as Hl.
    assert (St1 : stable w (world s1)).
    { refine (respects_writeBack E doc objToId collector (near w) (fun n => hasContext w n = true)
                (near_refl w) (near_trans w) (near_log w) (near_elementID E w) (near_context w)
                acc node _ _ _ _ H1 St). apply Hn. left. }
    apply IH in H; [|exact St1 | intros n Hin; apply Hn; right; exact Hin].
    rewrite H, Hl. cbn [flat_map]. rewrite app_assoc. reflexivity.
Qed.
End ListenerFacts.

Section SnapshotListeners.
Variable E : Collab.

(** X13.  The listeners that a snapshot lists are those of the elements in
    scope that carry component state: the elements in document order, for
    each the event names in the order of its map, for each name its
    closures in order. *)
Theorem snapshot_listeners fuel containerEl w r w' :
  snapshotState E fuel containerEl w = Ok r w' ->
  exists nodes,
    getNodesInScope E fuel w containerEl (hasContext w) = Some nodes /\
    result_listeners r = flat_map (listenersOf w) nodes.
Proof.
  intros H. apply snapshotState_inv in H as (nodes & collector & s' & Hn & Hc & H & _).
  exists nodes. split; [exact Hn|].
  unfold writeSnapshot in H.
  apply bind_Ok in H as (subs & s1 & H1 & H).
  apply bind_Ok in H as (converted & s2 & H2 & H).
  apply bind_Ok in H as (acc & s3 & H3 & H).
  apply bind_Ok in H as ([] & s4 & H4 & H).
  apply bind_Ok in H as ([] & s5 & H5 & H). injection H as <- _. cbn [result_listeners].
  pose proof (respects_traverse (near w) (near_refl w) (near_trans w) _ _
           (respects_subsFor E _ _ (near w) (near_refl w) (near_trans w) (near_log w)
              (near_elementID E w)) _ _ _ H1 (stable_refl w)) as G1.
  pose proof (respects_traverse (near w) (near_refl w) (near_trans w) _ _
           (respects_convert E _ _ (near w) (near_refl w) (near_trans w) (near_log w)
              (near_elementID E w)) _ _ _ H2 G1) as G2.
  apply (writeBacks_listeners E _ _ _ w) in H3; [exact H3 | exact G2|].
  eapply scope_hasContext; eauto.
Qed.
End SnapshotListeners.

(** ** A snapshot without the assertions *)

Section ReturnFacts.
Variable E : Collab.
Variable doc : loc.
Variable objToId : list (value * N).
Variable collector : Collector.
Hypothesis relaxed : assertions E = false.

Lemma returns_ret {A} (a : A) : returns (ret a).
Proof. intros s. eauto. Qed.

Lemma returns_bind {A B} (m : M WS A) (k : A -> M WS B) :
  returns m -> (forall a, returns (k a)) -> returns (bind m k).
Proof.
  intros Hm Hk s. destruct (Hm s) as (a & s1 & H1). destruct (Hk a s1) as (b & s2 & H2).
  exists b, s2. unfold bind. rewrite H1. exact H2.
Qed.

Lemma returns_gentle {A} (m : M WS A) : gentle m -> returns m.
Proof. intros H s. destruct (H s) as (a & s' & Hm & _). eauto. Qed.

Lemma returns_traverse {A B} (f : A -> M WS B) l : (forall x, returns (f x)) -> returns (traverse f l).
Proof.
  intros Hf. induction l as [|x l IH]; cbn [traverse]; [apply returns_ret|].
  apply returns_bind; [apply Hf|]. intros y.
  apply returns_bind; [exact IH | intros; apply returns_ret].
Qed.

Lemma returns_foldM {A B} (f : B -> A -> M WS B) l b :
  (forall b x, returns (f b x)) -> returns (foldM f l b).
Proof.
  intros Hf. revert b. induction l as [|x l IH]; intros b; cbn [foldM]; [apply returns_ret|].
  apply returns_bind; [apply Hf | intros; apply IH].
Qed.

Lemma returns_forEach {A} (f : A -> M WS unit) l : (forall x, returns (f x)) -> returns (forEach f l).
Proof.
  intros Hf. induction l as [|x l IH]; cbn [forEach]; [apply returns_ret|].
  apply returns_bind; [apply Hf | intros; exact IH].
Qed.

Lemma returns_when cond (body : M WS unit) : returns body -> returns (when cond body).
Proof. intros H. unfold when. destruct cond; [exact H | apply returns_ret]. Qed.

Lemma returns_modify f : returns (modify f).
Proof. intros s. eexists _, _. reflexivity. Qed.

Lemma returns_get : returns (@get WS).
Proof. intros s. eexists _, _. reflexivity. Qed.

Lemma returns_assertDefined {A} (v : option A) : returns (assertDefined E v).
Proof. intros s. exists tt, s. unfold assertDefined, assertTrue. rewrite relaxed. reflexivity. Qed.

Lemma returns_mustGetObjId obj : returns (mustGetObjId E doc objToId obj).
Proof.
  unfold mustGetObjId. apply returns_bind; [apply returns_gentle, gentle_getObjId|]. intros id.
  apply returns_bind; [apply returns_assertDefined | intros; apply returns_ret].
Qed.

Lemma returns_writeIds cond values setField acc :
  returns (writeIds E doc objToId cond values setField acc).
Proof.
  unfold writeIds. destruct cond; [|apply returns_ret].
  apply returns_bind; [apply returns_traverse, returns_mustGetObjId|].
  intros ids. cbv zeta. destruct (nonEmpty _); apply returns_ret.
Qed.

Lemma returns_metaValueOf node ctx : returns (metaValueOf E doc objToId collector node ctx).
Proof.
  unfold metaValueOf. cbv zeta.
  repeat (apply returns_bind; [apply returns_writeIds|]; intros ?).
  destruct (ctx_contexts ctx); [|apply returns_ret].
  apply returns_bind.
  - apply returns_traverse. intros entry.
    apply returns_bind; [apply returns_mustGetObjId | intros; apply returns_ret].
  - intros parts. cbv zeta. destruct (nonEmpty _); apply returns_ret.
Qed.

Lemma returns_getContext node : returns (onPage (getContext node)).
Proof.
  intros s. unfold onPage, getContext, bind, get.
  destruct (tryGetContext (world s) node); cbn; eexists _, _; reflexivity.
Qed.

Lemma returns_writeBack acc node : returns (writeBack E doc objToId collector acc node).
Proof.
  unfold writeBack. destruct acc as [meta listeners].
  apply returns_bind; [apply returns_getContext|]. intros ctx.
  apply returns_bind; [apply returns_assertDefined|]. intros _.
  apply returns_bind; [apply returns_metaValueOf|]. intros mv.
  apply returns_bind; [|intros; apply returns_ret].
  destruct (snd mv); [|apply returns_ret].
  apply returns_bind; [apply returns_gentle, gentle_getElementID|]. intros id.
  apply returns_bind; [apply returns_assertDefined | intros; apply returns_ret].
Qed.

Lemma returns_destroyWatches : returns (destroyWatches E collector).
Proof.
  unfold destroyWatches. apply returns_forEach. intros watch.
  apply returns_bind; [apply returns_modify|]. intros _. apply returns_when.
  apply returns_bind; [apply returns_get|]. intros s.
  apply returns_bind; [apply returns_when, returns_modify|]. intros _.
  apply returns_when, returns_modify.
Qed.

Lemma returns_sanityCheck : returns (sanityCheck E doc).
Proof.
  unfold sanityCheck. apply returns_when. apply returns_bind; [apply returns_get|]. intros s.
  apply returns_forEach. intros entry. apply returns_bind; [apply returns_get|]. intros s0.
  apply returns_bind; [apply returns_when, returns_modify|]. intros _.
  apply returns_when, returns_modify.
Qed.

Lemma returns_writeSnapshot nodes objs : returns (writeSnapshot E doc objToId collector nodes objs).
Proof.
  unfold writeSnapshot.
  apply returns_bind; [apply returns_traverse; intros; apply returns_gentle, gentle_subsFor|]. intros subs.
  apply returns_bind; [apply returns_traverse; intros; apply returns_gentle, gentle_convert|]. intros cv.
  apply returns_bind; [apply returns_foldM; intros; apply returns_writeBack|]. intros acc.
  apply returns_bind; [apply returns_destroyWatches|]. intros _.
  apply returns_bind; [apply returns_sanityCheck|]. intros _. apply returns_ret.
Qed.
End ReturnFacts.

Section SnapshotReturns.
Variable E : Collab.

(** X14.  Without the assertions [snapshotState] never throws: it returns a
    snapshot as soon as the walk over the elements and the collection of
    the values have the steps they need. *)
Theorem snapshot_returns fuel containerEl w nodes collector :
  assertions E = false ->
  getNodesInScope E fuel w containerEl (hasContext w) = Some nodes ->
  foldOpt (collectNode E fuel w (getDocument w containerEl)) nodes createCollector
    = Some collector ->
  (exists r w', snapshotState E fuel containerEl w = Ok r w') /\
  forall fuel' msg w', snapshotState E fuel' containerEl w <> Throw msg w'.
Proof.
  intros Ha Hn Hc. split.
  - unfold snapshotState. rewrite Hn, Hc. cbv zeta.
    destruct (returns_writeSnapshot E (getDocument w containerEl)
                (makeObjToId (jsSort (compareSubscribed w) (objSet collector))) collector Ha
                nodes (jsSort (compareSubscribed w) (objSet collector)) (mkWS w [])) as (r & s' & ->).
    eauto.
  - intros fuel' msg w'. unfold snapshotState.
    destruct (getNodesInScope E fuel' w containerEl (hasContext w)) as [nodes'|]; [|discriminate].
    destruct (foldOpt _ nodes' createCollector) as [collector'|]; [|discriminate]. cbv zeta.
    destruct (returns_writeSnapshot E (getDocument w containerEl)
                (makeObjToId (jsSort (compareSubscribed w) (objSet collector'))) collector' Ha
                nodes' (jsSort (compareSubscribed w) (objSet collector')) (mkWS w [])) as (r & s' & ->).
    discriminate.
Qed.
End SnapshotReturns.

(** On the page with listeners the three closures are listed under their
    event names. *)
Lemma snapshot_listeners_witness :
  exists r w',
    snapshotState (collab true (fun _ => None)) 10 1 pageListeners = Ok r w' /\
    result_listeners r =
      [mkListener "on:click" (VRef 4); mkListener "on:click" (VRef 5);
       mkListener "on:focus" (VRef 4)] /\
    exists nodes,
      getNodesInScope (collab true (fun _ => None)) 10 pageListeners 1 (hasContext pageListeners)
        = Some nodes /\
      result_listeners r = flat_map (listenersOf pageListeners) nodes.
Proof.
  eexists _, _.
  match goal with
  | |- ?L = ?R /\ _ => assert (H : L = R) by (vm_compute; reflexivity)
  end.
  split; [exact H|]. split; [reflexivity|].
  exact (snapshot_listeners _ _ _ _ _ _ H).
Defined.

(** Without the assertions the page with a store gives a snapshot. *)
Lemma snapshot_returns_witness :
  exists collector,
    assertions (collab false (fun _ => None)) = false /\
    getNodesInScope (collab false (fun _ => None)) 10 pageStore 1 (hasContext pageStore)
      = Some [3; 4; 12] /\
    foldOpt (collectNode (collab false (fun _ => None)) 10 pageStore (getDocument pageStore 1))
      [3; 4; 12] createCollector = Some collector /\
    exists r w', snapshotState (collab false (fun _ => None)) 10 1 pageStore = Ok r w'.
Proof.
  eexists. split; [reflexivity|].
  assert (Hn : getNodesInScope (collab false (fun _ => None)) 10 pageStore 1 (hasContext pageStore)
               = Some [3; 4; 12]) by reflexivity.
  split; [exact Hn|].
  match goal with
  | |- ?L = ?R /\ _ => assert (H : L = R) by (vm_compute; reflexivity)
  end.
  split; [exact H|].
  exact (proj1 (snapshot_returns (collab false (fun _ => None)) _ _ _ _ _ eq_refl Hn H)).
Defined.

(** ** The reader, step by step *)

Section Abide.
Variable E : Collab.
Variable R : World -> World -> Prop.
Hypothesis R_refl : forall w, R w w.
Hypothesis R_trans : forall w1 w2 w3, R w1 w2 -> R w2 w3 -> R w1 w3.
Hypothesis R_log : forall e w, R w (addLog e w).
Hypothesis R_extend : forall c pm w,
  notNode c -> R w (mkWorld (heap w ++ [c]) pm (log w) (events w) (destroyed w)).
Hypothesis R_store : forall l c w,
  notNode c -> (forall n, cellAt w l <> Some (CNode n)) -> R w (store l c w).
Hypothesis R_context : forall el c w, R w (setNode el (withContext (nodeAt w el) c) w).

Lemma abides_run {A} (m : M World A) w a w' : abides R m -> m w = Ok a w' -> R w w'.
Proof. intros Hm H. exact (Hm _ _ _ H). Qed.

Lemma abides_ret {A} (a : A) : abides R (ret a).
Proof. intros w x w' [= _ <-]. apply R_refl. Qed.

Lemma abides_get : abides R (@get World).
Proof. intros w x w' [= _ <-]. apply R_refl. Qed.

Lemma abides_throw {A} msg : abides R (@throw World A msg).
Proof. intros w a w' H. discriminate. Qed.

Lemma abides_bind {A B} (m : M World A) (k : A -> M World B) :
  abides R m -> (forall a, abides R (k a)) -> abides R (bind m k).
Proof.
  intros Hm Hk w b w' H. apply bind_Ok in H as (a & w1 & H1 & H2).
  eapply R_trans; [eapply Hm | eapply Hk]; eauto.
Qed.

Lemma abides_modify f : (forall w, R w (f w)) -> abides R (modify f).
Proof. intros Hf w a w' [= _ <-]. apply Hf. Qed.

Lemma abides_liftFuel {A} (o : option A) : abides R (liftFuel o).
Proof. intros w a w' H. destruct o; [injection H as _ <-; apply R_refl | discriminate]. Qed.

Lemma abides_forEach {A} (f : A -> M World unit) l :
  (forall x, abides R (f x)) -> abides R (forEach f l).
Proof.
  intros Hf. induction l as [|x l IH]; cbn [forEach]; [apply abides_ret|].
  apply abides_bind; [apply Hf | intros; exact IH].
Qed.

Lemma abides_traverse {A B} (f : A -> M World B) l :
  (forall x, abides R (f x)) -> abides R (traverse f l).
Proof.
  intros Hf. induction l as [|x l IH]; cbn [traverse]; [apply abides_ret|].
  apply abides_bind; [apply Hf|]. intros y.
  apply abides_bind; [exact IH | intros; apply abides_ret].
Qed.

Lemma abides_foldM {A B} (f : B -> A -> M World B) l b :
  (forall b x, abides R (f b x)) -> abides R (foldM f l b).
Proof.
  intros Hf. revert b. induction l as [|x l IH]; intros b; cbn [foldM]; [apply abides_ret|].
  apply abides_bind; [apply Hf | intros; apply IH].
Qed.

Lemma abides_assertTrue holds msg : abides R (assertTrue E holds msg).
Proof. intros w a w' H. apply assertTrue_Ok in H as [-> _]. apply R_refl. Qed.

Lemma abides_logWarn msg : abides R (logWarn msg).
Proof. apply abides_modify. intros w. apply R_log. Qed.

Lemma abides_readWriteProxy obj subs : abides R (readWriteProxy obj subs).
Proof.
  unfold readWriteProxy. destruct obj; try apply abides_ret.
  apply abides_bind; [apply abides_get|]. intros w. destruct (mget l (proxyMap w)); [apply abides_ret|].
  apply abides_bind; [|intros; apply abides_ret]. apply abides_modify. intros w0.
  apply R_extend. exact I.
Qed.

Lemma abides_getObjectImpl elements objs id : abides R (getObjectImpl E elements objs id).
Proof.
  unfold getObjectImpl. destruct (startsWith id _).
  - apply abides_bind; [apply abides_assertTrue | intros; apply abides_ret].
  - apply abides_bind; [apply abides_get|]. intros w.
    apply abides_bind; [apply abides_assertTrue|]. intros _.
    destruct (endsWithChar _ _); [|apply abides_ret].
    destruct (proxyFor _ _); [apply abides_ret | apply abides_readWriteProxy].
Qed.

Lemma R_setItem l i v w : R w (setItem l i v w).
Proof.
  unfold setItem. destruct (cellAt w l) as [[| | | |]|] eqn:Hc; try apply R_refl.
  apply R_store; [exact I | congruence].
Qed.

Lemma R_setField l k v w : R w (setField l k v w).
Proof.
  unfold setField. destruct (cellAt w l) as [[| | | |]|] eqn:Hc; try apply R_refl.
  apply R_store; [exact I | congruence].
Qed.

Lemma R_setCaptureRef l refs w : R w (setCaptureRef l refs w).
Proof.
  unfold setCaptureRef. destruct (cellAt w l) as [[| | | |]|] eqn:Hc; try apply R_refl.
  apply R_store; [exact I | congruence].
Qed.

Lemma R_alloc c w : notNode c -> R w (snd (alloc c w)).
Proof. intros Hc. unfold alloc, withHeap. cbn [snd]. apply R_extend, Hc. Qed.

Lemma abides_getContext el : abides R (getContext el).
Proof.
  intros w a w' H. apply getContext_run in H as [[_ ->]|[_ ->]]; [apply R_refl | apply R_context].
Qed.

Lemma abides_updateContext el f : abides R (updateContext el f).
Proof.
  unfold updateContext. apply abides_bind; [apply abides_getContext|]. intros ctx.
  apply abides_modify. intros w. apply R_context.
Qed.

Section WithGetObject.
Variable getObject : string -> M World value.
Hypothesis R_getObject : forall id, abides R (getObject id).

Lemma abides_getObjectOpt id : abides R (getObjectOpt getObject id).
Proof. destruct id; [apply R_getObject | apply abides_throw]. Qed.

Lemma abides_reviveSubs sub : abides R (reviveSubs getObject sub).
Proof.
  unfold reviveSubs. apply abides_foldM. intros converted entry.
  apply abides_bind; [apply R_getObject|]. intros el. destruct (negb (truthy el)); [|apply abides_ret].
  apply abides_bind; [apply abides_logWarn | intros; apply abides_ret].
Qed.

Lemma abides_reviveValue objs subs containerEl i :
  abides R (reviveValue E objs subs getObject containerEl i).
Proof.
  unfold reviveValue. apply abides_bind; [apply abides_get|]. intros w.
  assert (Hsub : abides R (match subs !! i with
                           | Some (Some sub) =>
                               converted <- reviveSubs getObject sub ;;
                               _restoreQObject (default VUndefined (arrayItems w objs !! i)) converted
                           | _ => ret tt
                           end)).
  { destruct (subs !! i) as [[sub|]|]; try apply abides_ret.
    apply abides_bind; [apply abides_reviveSubs|]. intros converted.
    unfold _restoreQObject. apply abides_bind; [apply abides_readWriteProxy | intros; apply abides_ret]. }
  destruct (arrayItems w objs !! i) as [[| | | |value|]|]; try exact Hsub; [|apply abides_ret].
  destruct (String.eqb value UNDEFINED_PREFIX); [apply abides_modify, R_setItem|].
  destruct (String.eqb value DOCUMENT_PREFIX); [apply abides_modify, R_setItem|].
  destruct (startsWith value QRL_PREFIX); [|apply abides_ret].
  apply abides_modify. intros w0.
  eapply R_trans; [apply (R_alloc (CQrl (parseQRL E (substring 1 (String.length value - 1) value))) w0 I)|].
  unfold alloc. cbn [snd]. apply R_setItem.
Qed.

Lemma abides_reviveValues objs subs containerEl :
  abides R (reviveValues E objs subs getObject containerEl).
Proof.
  unfold reviveValues. apply abides_bind; [apply abides_get|]. intros w.
  apply abides_forEach. intros i. apply abides_reviveValue.
Qed.

Lemma abides_reviveNestedObjects fuel obj : abides R (reviveNestedObjects fuel getObject obj).
Proof.
  revert obj. induction fuel as [|fuel IH]; intros obj.
  { intros w a w' H. discriminate. }
  cbn [reviveNestedObjects]. destruct obj; try apply abides_ret.
  apply abides_bind; [apply abides_get|]. intros w.
  destruct (cellAt w l) as [[fields|items|q| |]|]; try apply abides_ret.
  - apply abides_forEach. intros key. apply abides_bind; [apply abides_get|]. intros w0.
    destruct (oget key (ownEntries w0 l)) as [[| | | |value|]|]; try apply IH; [|apply abides_ret].
    apply abides_bind; [apply R_getObject|]. intros v. apply abides_modify, R_setField.
  - apply abides_forEach. intros i. apply abides_bind; [apply abides_get|]. intros w0.
    destruct (arrayItems w0 l !! i) as [[| | | |value|]|]; try apply IH; [|apply abides_ret].
    apply abides_bind; [apply R_getObject|]. intros v. apply abides_modify, R_setItem.
  - destruct (qrl_capture q) as [capture|]; [|apply abides_ret].
    destruct (0 <? length capture)%nat; [|apply abides_ret].
    apply abides_bind; [apply abides_traverse, R_getObject|]. intros refs.
    apply abides_modify, R_setCaptureRef.
Qed.

Lemma abides_restoreHost el host : abides R (restoreHost E getObject el host).
Proof.
  unfold restoreHost. cbv zeta.
  apply abides_bind; [apply abides_assertTrue|]. intros _.
  apply abides_bind; [apply abides_assertTrue|]. intros _.
  apply abides_bind; [apply abides_getObjectOpt|]. intros p.
  apply abides_bind; [apply abides_updateContext|]. intros _.
  apply abides_bind; [apply abides_getObjectOpt|]. intros q. apply abides_updateContext.
Qed.

Lemma abides_restoreContext entry : abides R (restoreContext E getObject entry).
Proof.
  unfold restoreContext. destruct entry as [elementID meta].
  apply abides_bind; [apply R_getObject|]. intros el.
  apply abides_bind; [apply abides_assertTrue|]. intros _.
  destruct el; try apply abides_throw.
  apply abides_bind; [apply abides_getContext|]. intros _. cbv zeta.
  apply abides_bind.
  { destruct (present (meta_r meta)); [|apply abides_ret].
    apply abides_bind; [apply abides_traverse, R_getObject|]. intros refs. apply abides_updateContext. }
  intros _. apply abides_bind.
  { destruct (present (meta_s meta)); [|apply abides_ret].
    apply abides_bind; [apply abides_traverse, R_getObject|]. intros vs. apply abides_updateContext. }
  intros _. apply abides_bind.
  { destruct (present (meta_w meta)); [|apply abides_ret].
    apply abides_bind; [apply abides_traverse, R_getObject|]. intros vs. apply abides_updateContext. }
  intros _. apply abides_bind.
  { destruct (present (meta_c meta)); [|apply abides_ret].
    apply abides_forEach. intros part. cbv zeta. apply abides_bind; [apply abides_updateContext|].
    intros _. apply abides_bind; [apply abides_getObjectOpt|]. intros v. apply abides_updateContext. }
  intros _. destruct (present (meta_h meta)); [apply abides_restoreHost | apply abides_ret].
Qed.
End WithGetObject.

Lemma R_allocJson j : forall w, R w (snd (allocJson j w)).
Proof.
  induction j as [| | | |items IH|fields IH] using json_nested_ind; intros w;
    try apply R_refl.
  - cbn [allocJson].
    match goal with
    | |- R w (snd (let '(vs, w) := ?F items w in _)) => set (each := F) in *
    end.
    assert (He : forall items, Forall (fun j => forall w, R w (snd (allocJson j w))) items ->
                 forall w, R w (snd (each items w))).
    { clear -R_refl R_trans. induction items as [|j items IHi]; intros Hall w; [apply R_refl|].
      apply Forall_cons in Hall as [Hj Hall]. cbn.
      specialize (Hj w). destruct (allocJson j w) as [v w2].
      specialize (IHi Hall w2). destruct (each items w2) as [vs' w3]. cbn in *.
      eapply R_trans; eauto. }
    specialize (He items IH w). destruct (each items w) as [vs w1]. cbn in He.
    eapply R_trans; [exact He|]. apply (R_alloc (CArray vs) w1 I).
  - cbn [allocJson].
    match goal with
    | |- R w (snd (let '(fs, w) := ?F fields w in _)) => set (each := F) in *
    end.
    assert (He : forall fields, Forall (fun kv : string * json => forall w, R w (snd (allocJson (snd kv) w))) fields ->
                 forall w, R w (snd (each fields w))).
    { clear -R_refl R_trans. induction fields as [|[k j] fields IHi]; intros Hall w; [apply R_refl|].
      apply Forall_cons in Hall as [Hj Hall]. cbn.
      specialize (Hj w). cbn in Hj. destruct (allocJson j w) as [v w2].
      specialize (IHi Hall w2). destruct (each fields w2) as [fs' w3]. cbn in *.
      eapply R_trans; eauto. }
    specialize (He fields IH w). destruct (each fields w) as [fs w1]. cbn in He.
    eapply R_trans; [exact He|]. apply (R_alloc (CObject (fromEntries fs)) w1 I).
Qed.

Lemma abides_allocAll items : abides R (allocAll items).
Proof.
  unfold allocAll. apply abides_traverse. intros j w a w' H.
  pose proof (R_allocJson j w) as Hj.
  destruct (allocJson j w) as [v w1]. injection H as _ <-. exact Hj.
Qed.

(** The steps of a resume that goes through: the script is removed, the
    snapshot is read and revived, and at the end the container is marked,
    the line is logged and the event goes out. *)
Lemma resumeContainer_steps fuel containerEl w w' script :
  isContainer E w containerEl = true ->
  getQwikJSON w (parentOfJSON w containerEl) = Some script ->
  resumeContainer E fuel containerEl w = Ok tt w' ->
  exists w3,
    R (removeNode (parentOfJSON w containerEl) script w) w3 /\
    let wA := setAttribute containerEl (QContainerAttr E) "resumed" w3 in
    w' = mkWorld (heap wA) (proxyMap wA) (log wA ++ [LogDebug "Container resumed"])
           (events wA ++ [(containerEl, "qresume")]) (destroyed wA).
Proof.
  intros Hc Hs H. unfold resumeContainer in H.
  apply bind_Ok in H as (w0 & w0' & H0 & H). injection H0 as <- <-.
  rewrite Hc in H. cbn [negb] in H. cbv zeta in H.
  unfold parentOfJSON in Hs. cbv zeta in Hs. rewrite Hs in H.
  apply bind_Ok in H as ([] & w1 & H1 & H). injection H1 as <-.
  apply bind_Ok in H as (meta & w1' & Hm & H).
  assert (w1' = removeNode (parentOfJSON w containerEl) script w) as ->.
  { destruct (JSON_parse E _); [injection Hm as _ <-; reflexivity | discriminate]. }
  clear Hm.
  apply bind_Ok in H as (values & w2 & H2 & H). apply abides_allocAll in H2.
  apply bind_Ok in H as (objs & w2' & H2' & H).
  assert (G2 : R w2 w2').
  { unfold alloc in H2'. injection H2' as _ <-. apply (R_alloc (CArray values) w2 I). }
  apply bind_Ok in H as (w3 & w3' & H3 & H). injection H3 as <- <-.
  apply bind_Ok in H as (nodes & w3' & H3 & H). apply abides_liftFuel in H3.
  set (getObject := getObjectImpl E _ objs) in H.
  assert (Hg : forall id, abides R (getObject id)) by (intros id; apply abides_getObjectImpl).
  apply bind_Ok in H as ([] & w4 & H4 & H). apply (abides_reviveValues _ Hg) in H4.
  apply bind_Ok in H as (w5 & w5' & H5 & H). injection H5 as <- <-.
  apply bind_Ok in H as ([] & w6 & H6 & H).
  assert (G6 : R w4 w6).
  { eapply abides_run; [|exact H6]. apply abides_forEach. intros i.
    apply abides_bind; [apply abides_get|]. intros w7.
    destruct (arrayItems w7 objs !! i); [apply abides_reviveNestedObjects, Hg | apply abides_ret]. }
  apply bind_Ok in H as ([] & w7 & H7 & H).
  assert (G7 : R w6 w7).
  { eapply abides_run; [|exact H7]. apply abides_forEach. intros entry.
    apply abides_restoreContext, Hg. }
  unfold bind, modify, logDebug, emitEvent in H. injection H as <-.
  exists w7. split; [|reflexivity].
  unfold parentOfJSON. cbv zeta. eauto 10.
Qed.
End Abide.

(** ** A resume that goes through *)

Section SettledFacts.

Lemma withContext_same n : withContext n (context n) = n.
Proof. destruct n; reflexivity. Qed.

Lemma cellAt_store_ne l c w l0 : l0 <> l -> cellAt (store l c w) l0 = cellAt w l0.
Proof.
  intros Hne. unfold cellAt, store. cbn [heap withHeap].
  apply list_lookup_insert_ne. congruence.
Qed.

Lemma isNode_setNode l n w l0 : isNode (setNode l n w) (VRef l0) = isNode w (VRef l0).
Proof.
  unfold setNode. destruct (cellAt w l) as [[| | |n0|]|] eqn:Hl; try reflexivity.
  unfold isNode. destruct (decide (l0 = l)) as [->|Hne].
  - rewrite (cellAt_store_eq _ _ _ _ Hl), Hl. reflexivity.
  - rewrite cellAt_store_ne by exact Hne. reflexivity.
Qed.

Lemma isNode_extend w c pm lg ev ds l :
  isNode w (VRef l) = true -> isNode (mkWorld (heap w ++ [c]) pm lg ev ds) (VRef l) = true.
Proof.
  unfold isNode. intros H.
  destruct (cellAt w l) as [c0|] eqn:Hl; [|discriminate].
  assert (Hl' : cellAt (mkWorld (heap w ++ [c]) pm lg ev ds) l = Some c0).
  { unfold cellAt in *. cbn [heap]. apply lookup_app_l_Some. exact Hl. }
  rewrite Hl'. exact H.
Qed.

Lemma isNode_store w l c l0 :
  (forall n, cellAt w l <> Some (CNode n)) ->
  isNode w (VRef l0) = true -> isNode (store l c w) (VRef l0) = true.
Proof.
  intros Hold. unfold isNode. intros H.
  destruct (decide (l0 = l)) as [->|Hne].
  - exfalso. destruct (cellAt w l) as [[| | |n|]|] eqn:Hl; try discriminate. eapply Hold; eauto.
  - rewrite cellAt_store_ne by exact Hne. exact H.
Qed.

Lemma settled_refl w : settled w w.
Proof.
  split; [reflexivity|]. split; [auto|]. intros l. exists (context (nodeAt w l)).
  symmetry. apply withContext_same.
Qed.

Lemma settled_trans w1 w2 w3 : settled w1 w2 -> settled w2 w3 -> settled w1 w3.
Proof.
  intros (E1 & N1 & C1) (E2 & N2 & C2). split; [congruence|]. split; [auto|].
  intros l. destruct (C1 l) as [c1 H1]. destruct (C2 l) as [c2 H2].
  exists c2. rewrite H2, H1. reflexivity.
Qed.

Lemma settled_nodes w w' :
  events w' = events w ->
  (forall l, isNode w (VRef l) = true -> isNode w' (VRef l) = true) ->
  (forall l, nodeAt w' l = nodeAt w l) -> settled w w'.
Proof.
  intros He Hn Ha. split; [exact He|]. split; [exact Hn|]. intros l.
  exists (context (nodeAt w l)). rewrite Ha. symmetry. apply withContext_same.
Qed.

Lemma settled_log e w : settled w (addLog e w).
Proof. apply settled_nodes; auto. Qed.

Lemma settled_extend c pm w :
  notNode c -> settled w (mkWorld (heap w ++ [c]) pm (log w) (events w) (destroyed w)).
Proof.
  intros Hc. apply settled_nodes; [reflexivity | |].
  - intros l. apply isNode_extend.
  - intros l. apply nodeAt_alloc, Hc.
Qed.

Lemma settled_store l c w :
  notNode c -> (forall n, cellAt w l <> Some (CNode n)) -> settled w (store l c w).
Proof.
  intros Hc Hold. apply settled_nodes; [reflexivity | |].
  - intros l0. apply isNode_store, Hold.
  - intros l0. apply nodeAt_store; assumption.
Qed.

Lemma settled_context el c w : settled w (setNode el (withContext (nodeAt w el) c) w).
Proof.
  split; [apply events_setNode|]. split.
  - intros l H. rewrite isNode_setNode. exact H.
  - intros l. rewrite nodeAt_setNode. destruct (decide (l = el)) as [->|].
    + destruct (cellAt w el) as [[| | |n|]|]; eauto;
        exists (context (nodeAt w el)); symmetry; apply withContext_same.
    + exists (context (nodeAt w l)). symmetry. apply withContext_same.
Qed.

Lemma hasAttribute_node w el name : hasAttribute w el name = true -> isNode w (VRef el) = true.
Proof.
  unfold hasAttribute, nodeAt, isNode. destruct (cellAt w el) as [[| | |n|]|]; auto.
Qed.

Lemma isNode_cell w l : isNode w (VRef l) = true -> cellAt w l = Some (CNode (nodeAt w l)).
Proof.
  unfold isNode, nodeAt. destruct (cellAt w l) as [[| | |n|]|]; try discriminate. reflexivity.
Qed.

(** What [script.remove()] does to the nodes. *)
Lemma removeNode_run parent child w :
  events (removeNode parent child w) = events w /\
  (forall l, isNode (removeNode parent child w) (VRef l) = isNode w (VRef l)) /\
  (forall l, attributes (nodeAt (removeNode parent child w) l) = attributes (nodeAt w l)) /\
  (child ∉ children (nodeAt (removeNode parent child w) parent)) /\
  isConnected (nodeAt (removeNode parent child w) child) = false.
Proof.
  unfold removeNode. cbv zeta.
  set (w1 := setNode parent _ w).
  assert (H1 : forall l, nodeAt w1 l =
            if decide (l = parent)
            then match cellAt w parent with
                 | Some (CNode _) =>
                     withChildren (nodeAt w parent)
                       (List.filter (fun c => negb (bool_decide (c = child))) (children (nodeAt w parent)))
                 | _ => nodeAt w parent
                 end
            else nodeAt w l).
  { intros l. apply nodeAt_setNode. }
  assert (Hkids : child ∉ children (nodeAt w1 parent)).
  { rewrite H1. destruct (decide (parent = parent)); [|contradiction].
    destruct (cellAt w parent) as [[| | |n|]|] eqn:Hp;
      try (unfold nodeAt; rewrite Hp; apply not_elem_of_nil).
    cbn. intros Hin. apply list_elem_of_In, filter_In in Hin as [_ Hin].
    rewrite bool_decide_eq_true_2 in Hin by reflexivity. discriminate. }
  split; [rewrite events_setNode; unfold w1; apply events_setNode|]. split; [|split; [|split]].
  - intros l. rewrite isNode_setNode. unfold w1. apply isNode_setNode.
  - intros l. rewrite nodeAt_setNode. destruct (decide (l = child)) as [->|].
    + destruct (cellAt w1 child) as [[| | |n|]|]; cbn; rewrite H1;
        (destruct (decide (child = parent)) as [->|]; [|reflexivity]);
        destruct (cellAt w parent) as [[| | | |]|]; reflexivity.
    + rewrite H1. destruct (decide (l = parent)) as [->|]; [|reflexivity].
      destruct (cellAt w parent) as [[| | | |]|]; reflexivity.
  - rewrite nodeAt_setNode. destruct (decide (parent = child)) as [->|]; [|exact Hkids].
    destruct (cellAt w1 child) as [[| | |n|]|]; exact Hkids.
  - rewrite nodeAt_setNode. destruct (decide (child = child)); [|contradiction].
    destruct (cellAt w1 child) as [[| | |n|]|] eqn:Hc; try reflexivity;
      unfold nodeAt; rewrite Hc; reflexivity.
Qed.
End SettledFacts.

Section ResumeDone.
Variable E : Collab.

(** X15.  A resume that goes through leaves the container marked as resumed
    and dispatches one event, qresume, on it, after logging that the container
    was resumed; the snapshot script is no longer among the children of the
    element it was found in and is disconnected; and no other attribute of any
    node has changed. *)
Theorem resume_marks_container fuel containerEl w w' script :
  isContainer E w containerEl = true ->
  getQwikJSON w (parentOfJSON w containerEl) = Some script ->
  resumeContainer E fuel containerEl w = Ok tt w' ->
  getAttribute w' containerEl (QContainerAttr E) = Some "resumed" /\
  events w' = events w ++ [(containerEl, "qresume")] /\
  (exists before, log w' = before ++ [LogDebug "Container resumed"]) /\
  (script ∉ children (nodeAt w' (parentOfJSON w containerEl))) /\
  isConnected (nodeAt w' script) = false /\
  forall l name, (l = containerEl -> name <> QContainerAttr E) ->
    getAttribute w' l name = getAttribute w l name.
Proof.
  intros Hc Hs H.
  destruct (resumeContainer_steps E settled settled_refl settled_trans settled_log
              settled_extend settled_store settled_context _ _ _ _ _ Hc Hs H)
    as (w3 & (He & Hn & Hx) & Hw). clear H. rename Hw into H.
  cbv zeta in H.
  destruct (removeNode_run (parentOfJSON w containerEl) script w) as (Re & Rn & Ra & Rk & Rc).
  set (w1 := removeNode (parentOfJSON w containerEl) script w) in *.
  set (wA := setAttribute containerEl (QContainerAttr E) "resumed" w3) in *.
  assert (Hnode : forall l, nodeAt w' l = nodeAt wA l) by (subst w'; reflexivity).
  assert (Hattr : forall l name, getAttribute w' l name = getAttribute wA l name)
    by (subst w'; reflexivity).
  assert (Hw3 : forall l, attributes (nodeAt w3 l) = attributes (nodeAt w l)).
  { intros l. destruct (Hx l) as [c ->]. cbn. apply Ra. }
  assert (HA : forall l, exists a, nodeAt wA l = withAttributes (nodeAt w3 l) a).
  { intros l. unfold wA, setAttribute. rewrite nodeAt_setNode.
    destruct (decide (l = containerEl)) as [->|].
    - destruct (cellAt w3 containerEl) as [[| | |n|]|]; eauto;
        exists (attributes (nodeAt w3 containerEl)); destruct (nodeAt w3 containerEl); reflexivity.
    - exists (attributes (nodeAt w3 l)). destruct (nodeAt w3 l); reflexivity. }
  split; [|split; [|split; [|split; [|split]]]].
  - rewrite Hattr. apply getAttribute_setAttribute_same, isNode_cell, Hn.
    unfold w1. rewrite Rn. eapply hasAttribute_node, Hc.
  - subst w'. cbn [events]. unfold wA, setAttribute. rewrite events_setNode, He, Re. reflexivity.
  - subst w'. cbn [log]. eauto.
  - rewrite Hnode. destruct (HA (parentOfJSON w containerEl)) as [a ->]. cbn.
    destruct (Hx (parentOfJSON w containerEl)) as [c ->]. cbn. exact Rk.
  - rewrite Hnode. destruct (HA script) as [a ->]. cbn.
    destruct (Hx script) as [c ->]. cbn. exact Rc.
  - intros l name Hl. rewrite Hattr. unfold wA.
    destruct (decide (l = containerEl)) as [->|Hne].
    + rewrite getAttribute_setAttribute_name by auto. unfold getAttribute. rewrite Hw3. reflexivity.
    + rewrite getAttribute_setAttribute_other by exact Hne. unfold getAttribute. rewrite Hw3. reflexivity.
Qed.
End ResumeDone.

(** ** Resume: the sentinels *)

Section SentinelFacts.
Variable E : Collab.
Variable elements : list (string * loc).
Variable objs : loc.
Variable subs : list (option (jsobj subval)).
Variable containerEl : loc.

Lemma arrayItems_setItem i v w : arrayItems (setItem objs i v w) objs = <[i := v]> (arrayItems w objs).
Proof.
  unfold setItem, arrayItems. destruct (cellAt w objs) as [[| items | | |]|] eqn:Hc;
    try (rewrite Hc; reflexivity).
  rewrite (cellAt_store_eq _ _ _ _ Hc). reflexivity.
Qed.

Lemma cellAt_setItem i v w l : l <> objs -> cellAt (setItem objs i v w) l = cellAt w l.
Proof.
  intros Hne. unfold setItem. destruct (cellAt w objs) as [[| | | |]|]; try reflexivity.
  apply cellAt_store_ne. exact Hne.
Qed.

Lemma cellAt_alloc c w l x : cellAt w l = Some x -> cellAt (snd (alloc c w)) l = Some x.
Proof. intros H. unfold alloc, cellAt, withHeap in *. cbn. apply lookup_app_l_Some. exact H. Qed.

Lemma cellAt_alloc_new c w : cellAt (snd (alloc c w)) (fst (alloc c w)) = Some c.
Proof.
  unfold alloc, cellAt, withHeap. cbn. rewrite lookup_app_r by lia.
  rewrite Nat.sub_diag. reflexivity.
Qed.

Lemma arrayItems_cell w i v : arrayItems w objs !! i = Some v -> exists items, cellAt w objs = Some (CArray items).
Proof.
  unfold arrayItems. destruct (cellAt w objs) as [[| items | | |]|]; try discriminate. eauto.
Qed.

(** Rebuilding a subscriber map resolves ids and logs; the parsed array
    and the other cells stay. *)
Lemma reviveSubs_keeps sub : forall w converted w',
  reviveSubs (getObjectImpl E elements objs) sub w = Ok converted w' ->
  keeps objs w w' /\ forall l c, cellAt w l = Some c -> cellAt w' l = Some c.
Proof.
  unfold reviveSubs. generalize (@nil (value * option (list string))).
  induction sub as [|entry sub IH]; intros acc w converted w' H; cbn [foldM] in H.
  - injection H as _ <-. split; [apply keeps_refl | auto].
  - apply bind_Ok in H as (acc1 & w1 & H1 & H).
    apply IH in H as [K2 C2].
    apply bind_Ok in H1 as (el & w0 & H0 & H1).
    pose proof (getObjectImpl_keeps _ _ _ _ _ _ _ H0) as K0.
    pose proof (getObjectImpl_cells _ _ _ _ _ _ _ H0) as C0.
    assert (K1 : keeps objs w0 w1 /\ forall l c, cellAt w0 l = Some c -> cellAt w1 l = Some c).
    { destruct (negb (truthy el)).
      - apply bind_Ok in H1 as ([] & w0' & Hl & H1). injection H1 as _ <-.
        injection Hl as <-. split; [split; [reflexivity | auto] | auto].
      - injection H1 as _ <-. split; [apply keeps_refl | auto]. }
    destruct K1 as [K1 C1]. split.
    + eapply keeps_trans; [exact K0|]. eapply keeps_trans; eauto.
    + auto.
Qed.

(** One round of the loop of [reviveValues]. *)
Lemma reviveValue_at i w w' v :
  arrayItems w objs !! i = Some v ->
  reviveValue E objs subs (getObjectImpl E elements objs) containerEl i w = Ok tt w' ->
  (forall j, j <> i -> arrayItems w' objs !! j = arrayItems w objs !! j) /\
  length (arrayItems w' objs) = length (arrayItems w objs) /\
  (forall l c, l <> objs -> cellAt w l = Some c -> cellAt w' l = Some c) /\
  revivedAs E (getDocument w containerEl) w' v (arrayItems w' objs !! i).
Proof.
  intros Hv H. unfold reviveValue, bind, get in H. rewrite Hv in H.
  pose proof (lookup_lt_Some _ _ _ Hv) as Hlt.
  destruct (arrayItems_cell _ _ _ Hv) as [items Hobjs].
  assert (Hsub : forall v0, v = v0 -> (forall t, v0 <> VStr t) ->
            match subs !! i with
            | Some (Some sub) =>
                fun w => match reviveSubs (getObjectImpl E elements objs) sub w with
                         | Ok a s' => _restoreQObject v0 a s'
                         | Throw msg s' => Throw msg s'
                         | OutOfFuel => OutOfFuel
                         end
            | _ => ret tt
            end w = Ok tt w' ->
            (forall j, j <> i -> arrayItems w' objs !! j = arrayItems w objs !! j) /\
            length (arrayItems w' objs) = length (arrayItems w objs) /\
            (forall l c, l <> objs -> cellAt w l = Some c -> cellAt w' l = Some c) /\
            arrayItems w' objs !! i = Some v0).
  { intros v0 <- Hns H0.
    assert (K : keeps objs w w' /\ forall l c, cellAt w l = Some c -> cellAt w' l = Some c).
    { destruct (subs !! i) as [[sub|]|]; try (injection H0 as <-; split; [apply keeps_refl | auto]).
      destruct (reviveSubs _ sub w) as [converted w1| |] eqn:Hr; try discriminate.
      apply reviveSubs_keeps in Hr as [K1 C1].
      unfold _restoreQObject in H0. apply bind_Ok in H0 as (p & w2 & Hp & H0). injection H0 as <-.
      pose proof (readWriteProxy_keeps objs _ _ _ _ _ Hp) as K2.
      pose proof (readWriteProxy_cells _ _ _ _ _ Hp) as C2.
      split; [eapply keeps_trans; eauto | auto]. }
    destruct K as [[Ki _] C]. rewrite Ki. auto. }
  destruct v as [| |b|n|t|l];
    try (apply Hsub in H; [destruct H as (H1 & H2 & H3 & H4); cbn [revivedAs]; auto
                          | reflexivity | discriminate]).
  cbn [revivedAs].
  destruct (String.eqb t UNDEFINED_PREFIX).
  { injection H as <-. rewrite arrayItems_setItem, length_insert.
    split; [intros j Hj; apply list_lookup_insert_ne; congruence|]. split; [reflexivity|].
    split; [intros l c Hl Hc; rewrite cellAt_setItem by exact Hl; exact Hc|].
    apply list_lookup_insert_eq. exact Hlt. }
  destruct (String.eqb t DOCUMENT_PREFIX).
  { injection H as <-. rewrite arrayItems_setItem, length_insert.
    split; [intros j Hj; apply list_lookup_insert_ne; congruence|]. split; [reflexivity|].
    split; [intros l c Hl Hc; rewrite cellAt_setItem by exact Hl; exact Hc|].
    apply list_lookup_insert_eq. exact Hlt. }
  destruct (startsWith t QRL_PREFIX).
  2:{ injection H as <-. auto. }
  unfold modify in H. injection H as <-.
  set (q := CQrl (parseQRL E (substring 1 (String.length t - 1) t))).
  assert (Hne : length (heap w) <> objs).
  { unfold cellAt in Hobjs. apply lookup_lt_Some in Hobjs. lia. }
  assert (Hitems : arrayItems (withHeap w (heap w ++ [q])) objs = arrayItems w objs).
  { unfold arrayItems. rewrite (cellAt_alloc q w objs _ Hobjs : cellAt (withHeap w (heap w ++ [q])) objs = _).
    rewrite Hobjs. reflexivity. }
  rewrite arrayItems_setItem, length_insert, Hitems.
  split; [intros j Hj; apply list_lookup_insert_ne; congruence|]. split; [reflexivity|].
  split.
  - intros l c Hl Hc. rewrite cellAt_setItem by exact Hl. apply (cellAt_alloc q w). exact Hc.
  - exists (length (heap w)). split; [apply list_lookup_insert_eq; exact Hlt|].
    rewrite cellAt_setItem by exact Hne. apply (cellAt_alloc_new q w).
Qed.

Lemma revivedAs_later doc w1 w2 v r :
  (forall l c, l <> objs -> cellAt w1 l = Some c -> cellAt w2 l = Some c) ->
  (exists items, cellAt w1 objs = Some (CArray items)) ->
  revivedAs E doc w1 v r -> revivedAs E doc w2 v r.
Proof.
  intros Hc [items Ho]. unfold revivedAs. destruct v; auto.
  destruct (String.eqb _ _); [auto|]. destruct (String.eqb _ _); [auto|].
  destruct (startsWith _ _); [|auto].
  intros (l & -> & Hl). exists l. split; [reflexivity|]. apply Hc; [|exact Hl]. congruence.
Qed.

Lemma getDocument_settled w w' el : settled w w' -> getDocument w' el = getDocument w el.
Proof. intros (_ & _ & H). unfold getDocument. destruct (H el) as [c ->]. reflexivity. Qed.

Lemma reviveValues_from m : forall k w1 w',
  k + m <= length (arrayItems w1 objs) ->
  forEach (reviveValue E objs subs (getObjectImpl E elements objs) containerEl) (seq k m) w1
    = Ok tt w' ->
  settled w1 w' /\
  length (arrayItems w' objs) = length (arrayItems w1 objs) /\
  (forall l c, l <> objs -> cellAt w1 l = Some c -> cellAt w' l = Some c) /\
  (forall j, j < k \/ k + m <= j -> arrayItems w' objs !! j = arrayItems w1 objs !! j) /\
  (forall i v, k <= i < k + m -> arrayItems w1 objs !! i = Some v ->
     revivedAs E (getDocument w1 containerEl) w' v (arrayItems w' objs !! i)).
Proof.
  induction m as [|m IH]; intros k w1 w' Hlen H; cbn [seq forEach] in H.
  - injection H as <-. split; [apply settled_refl|]. split; [reflexivity|].
    split; [auto|]. split; [auto|]. intros i v Hi. lia.
  - apply bind_Ok in H as ([] & w2 & H1 & H).
    destruct (lookup_lt_is_Some_2 (arrayItems w1 objs) k ltac:(lia)) as [vk Hk].
    pose proof (abides_reviveValue E settled settled_refl settled_trans settled_log
                  settled_extend settled_store _
                  (fun id => abides_getObjectImpl E settled settled_refl settled_trans
                               settled_extend elements objs id)
                  objs subs containerEl k _ _ _ H1) as S1.
    destruct (reviveValue_at _ _ _ _ Hk H1) as (A1 & L1 & C1 & R1).
    apply IH in H as (S2 & L2 & C2 & A2 & R2); [|lia].
    split; [eapply settled_trans; eauto|]. split; [congruence|].
    split; [auto|]. split.
    + intros j Hj. rewrite A2 by lia. apply A1. lia.
    + intros i v Hi Hv. destruct (decide (i = k)) as [->|Hne].
      * rewrite A2 by lia. rewrite Hk in Hv. injection Hv as <-.
        eapply revivedAs_later; [exact C2 | | exact R1].
        assert (Hx : is_Some (arrayItems w2 objs !! k)) by (apply lookup_lt_is_Some_2; lia).
        destruct Hx as [x Hx]. eapply arrayItems_cell; eauto.
      * rewrite <- (getDocument_settled _ _ containerEl S1). apply R2; [lia|].
        rewrite A1 by exact Hne. exact Hv.
Qed.

(** X16.  After [reviveValues], every entry of the parsed array that was the
    sentinel of [undefined] is [undefined], the sentinel of the document is
    the document of the container, a text marked as a closure is a
    reference to the closure parsed from the rest of the text, and every
    other entry is what it was; the array has kept its length. *)
Theorem sentinels_revived w w' :
  reviveValues E objs subs (getObjectImpl E elements objs) containerEl w = Ok tt w' ->
  length (arrayItems w' objs) = length (arrayItems w objs) /\
  forall i v, arrayItems w objs !! i = Some v ->
    revivedAs E (getDocument w containerEl) w' v (arrayItems w' objs !! i).
Proof.
  unfold reviveValues. intros H. apply bind_Ok in H as (w0 & w0' & H0 & H).
  injection H0 as <- <-.
  apply reviveValues_from in H as (_ & L & _ & _ & R); [|lia].
  split; [exact L|]. intros i v Hv. apply R; [|exact Hv].
  apply lookup_lt_Some in Hv. lia.
Qed.
End SentinelFacts.

(** The paused page resumed from the snapshot with host state: the
    container is marked, the event goes out, the script is gone. *)
Lemma resume_marks_container_witness :
  exists w',
    isContainer (collab true (fun _ => Some hostSnapshot)) pagePaused 1 = true /\
    getQwikJSON pagePaused (parentOfJSON pagePaused 1) = Some 4 /\
    resumeContainer (collab true (fun _ => Some hostSnapshot)) 10 1 pagePaused = Ok tt w' /\
    getAttribute w' 1 "q:container" = Some "resumed" /\
    events w' = [(1, "qresume")] /\
    (4 ∉ children (nodeAt w' 2)) /\
    isConnected (nodeAt w' 4) = false /\
    getAttribute w' 3 "q:id" = Some "0".
Proof.
  eexists. split; [reflexivity|]. split; [reflexivity|].
  match goal with
  | |- ?L = ?R /\ _ => assert (H : L = R) by (vm_compute; reflexivity)
  end.
  split; [exact H|].
  destruct (resume_marks_container (collab true (fun _ => Some hostSnapshot)) 10 1 pagePaused _ 4
              eq_refl eq_refl H) as (Ha & He & _ & Hk & Hc & Hf).
  split; [exact Ha|]. split; [exact He|]. split; [exact Hk|]. split; [exact Hc|].
  assert (Hne : 3 = 1 -> "q:id" <> "q:container") by discriminate.
  exact (Hf 3 "q:id" Hne).
Defined.

(** The parsed array with the three sentinels, a text and a number. *)
Lemma sentinels_revived_witness :
  exists w',
    reviveValues (collab true (fun _ => None)) 2 []
      (getObjectImpl (collab true (fun _ => None)) [] 2) 1 pageSentinels = Ok tt w' /\
    arrayItems w' 2 = [VUndefined; VRef 0; VRef 3; VStr "text"; VNum 7] /\
    length (arrayItems w' 2) = length (arrayItems pageSentinels 2) /\
    revivedAs (collab true (fun _ => None)) (getDocument pageSentinels 1) w'
      (VStr DOCUMENT_PREFIX) (arrayItems w' 2 !! 1).
Proof.
  eexists.
  match goal with
  | |- ?L = ?R /\ _ => assert (H : L = R) by (vm_compute; reflexivity)
  end.
  split; [exact H|]. split; [reflexivity|].
  destruct (sentinels_revived _ _ _ _ _ _ _ H) as [Hl Hr].
  split; [exact Hl|]. exact (Hr 1 (VStr DOCUMENT_PREFIX) eq_refl).
Defined.

(** ** The sequence and the watches of a captured element, in [ctx] *)

Section SeqWritten.
Variable E : Collab.
Variable doc : loc.
Variable objToId : list (value * N).
Variable collector : Collector.
Variable w : World.
Hypothesis asserting : assertions E = true.




End SeqWritten.

Section SeqWatches.
Variable E : Collab.

End SeqWatches.



(** ** Nodes that are not elements, in a snapshot *)

Section LoggedFacts.
Variable E : Collab.












End LoggedFacts.

Section StrayFacts.
Variable E : Collab.
Variable doc : loc.
Variable objToId : list (value * N).




End StrayFacts.

Section DirectFacts.
Variable E : Collab.
Variable w : World.
Variable doc : loc.








End DirectFacts.

Section StrayNodes.
Variable E : Collab.




End StrayNodes.


(** ** Resume: the loop over [ctx], step by step *)

Section RestoreFrame.
Variable E : Collab.
Variable elements : list (string * loc).
Variable objs : loc.
Variable R : World -> World -> Prop.
Hypothesis R_refl : forall w, R w w.
Hypothesis R_trans : forall w1 w2 w3, R w1 w2 -> R w2 w3 -> R w1 w3.
Hypothesis R_getObject : forall id, abides R (getObjectImpl E elements objs id).
Hypothesis R_getContext : forall el, abides R (getContext el).
Hypothesis R_update : forall el f,
  (forall c, exists after, ctx_refMap (f c) = ctx_refMap c ++ after) ->
  abides R (updateContext el f).







End RestoreFrame.

(** ** Resume: the references restored on the elements *)

Section GrowsFacts.
Variable E : Collab.
Variable elements : list (string * loc).
Variable objs : loc.




Lemma tryGetContext_setNode l n w el :
  tryGetContext (setNode l n w) el =
  if decide (el = l)
  then match cellAt w l with Some (CNode _) => context n | _ => tryGetContext w l end
  else tryGetContext w el.
Proof.
  unfold tryGetContext. rewrite nodeAt_setNode. destruct (decide (el = l)) as [->|]; [|reflexivity].
  destruct (cellAt w l) as [[| | | |]|]; reflexivity.
Qed.








Lemma getContext_node el w ctx w' :
  getContext el w = Ok ctx w' -> isNode w (VRef el) = true -> tryGetContext w' el = Some ctx.
Proof.
  unfold getContext, bind, get. destruct (tryGetContext w el) as [c|] eqn:Hc.
  - intros [= <- <-] _. exact Hc.
  - cbn. intros [= <- <-] Hn.
    rewrite tryGetContext_setNode. destruct (decide (el = el)); [|contradiction].
    rewrite (isNode_cell _ _ Hn). reflexivity.
Qed.











End GrowsFacts.

(** ** Resume: the parsed array stays private *)

Section SlotFacts.






End SlotFacts.

Section PrivateFacts.
Variable E : Collab.
Variable elements : list (string * loc).
Variable objs : loc.
















Lemma may_store l c w :
  l <> objs -> resuming elements objs (store l c w) -> mayResume elements objs w (store l c w).
Proof.
  intros Hne H _. split; [exact H|]. unfold arrayItems. rewrite cellAt_store_ne by auto. reflexivity.
Qed.














End PrivateFacts.

(** ** Resume: the sentinels keep the array private *)

Section ReviveFacts.
Variable E : Collab.
Variable elements : list (string * loc).
Variable objs : loc.
Variable js : list json.
Variable h0 doc : loc.





End ReviveFacts.

(** ** Resume: what the parse allocates *)

Section ParseFacts.


















End ParseFacts.

(** ** Resume: the references of the elements *)

Section ResumeFacts.
Variable E : Collab.






End ResumeFacts.

Section Identity.
Variable E : Collab.

End Identity.

